(** * ElegantRL: the actor / learner / evaluator orchestration core

    A shallow embedding of [elegantrl/train/run.py] (classes [Learner],
    [Worker], [EvaluatorProc], function [train_agent_single_process]) and of
    [Evaluator.evaluate_and_save] in [elegantrl/train/evaluator.py].

    Pipes are FIFO queues (lists, head = next message to be received),
    tensors are a shape together with an indexing function, the processes'
    loops are functions over the queue of messages they will receive. *)

From Stdlib Require Import ZArith QArith Lia.
From stdpp Require Import base option numbers list sorting.

Set Default Proof Using "Type".
Open Scope nat_scope.

(** ** Outcomes of fallible code *)

(** The Python exceptions the modelled code can raise by itself. *)
Inductive exn := IndexError | UnboundLocalError.

(** [Ok v]: the statement ran to its end; [Raise e]: an exception left it;
    [Block]: a blocking [recv()] found its pipe empty. *)
Inductive result (A : Type) :=
  | Ok (v : A)
  | Raise (e : exn)
  | Block.
Arguments Ok {A} v.
Arguments Raise {A} e.
Arguments Block {A}.

#[global] Instance result_ret : MRet result := λ A v, Ok v.
#[global] Instance result_bind : MBind result := λ A B f r,
  match r with
  | Ok v => f v
  | Raise e => Raise e
  | Block => Block
  end.
#[global] Instance result_fmap : FMap result := λ A B f r,
  match r with
  | Ok v => Ok (f v)
  | Raise e => Raise e
  | Block => Block
  end.

(** How a process ends: [run] returned (exit code 0), an exception left
    [run] (exit code 1), or it waits in a [recv()] for a message that the
    given inbox does not contain. *)
Inductive status := Exited | Crashed | Waiting.

Definition exit_code (s : status) : option Z :=
  match s with
  | Exited => Some 0%Z
  | Crashed => Some 1%Z
  | Waiting => None
  end.

(** ** Tensors *)

Module Tensor.

(** Tensor contents are opaque to the orchestration code; an integer stands
    for one stored number. *)
Definition elem := Z.

(** A tensor: its [shape] (as [t.shape]) and the element at each index
    tuple.  Only indices inside the shape are ever read. *)
Record tensor := Build {
  shape : list nat;
  tget : list nat → elem;
}.

(** [th.zeros(shape)] *)
Definition zeros (sh : list nat) : tensor := Build sh (λ _, 0%Z).

(** [idx] is a full index tuple inside [sh]. *)
Fixpoint in_bounds (sh idx : list nat) : bool :=
  match sh, idx with
  | [], [] => true
  | n :: sh', k :: idx' => (k <? n) && in_bounds sh' idx'
  | _, _ => false
  end.

(** Same shape and same contents: what [torch.equal] decides. *)
Definition teq (a b : tensor) : Prop :=
  shape a = shape b ∧
  ∀ idx, in_bounds (shape a) idx = true → tget a idx = tget b idx.

(** Bounds of the Python slice [i:j] (both non-negative) on a dimension of
    size [n]: start and stop are clamped to [n]. *)
Definition slice_lo (i n : nat) : nat := i `min` n.
Definition slice_hi (j n : nat) : nat := j `min` n.

(** [t[:, i:j]] for [ax = 1], [t[i:j]] for [ax = 0]. *)
Definition slice_axis (ax i j : nat) (t : tensor) : result tensor :=
  match shape t !! ax with
  | None => Raise IndexError
  | Some n =>
      let lo := slice_lo i n in
      let hi := slice_hi j n in
      Ok (Build (<[ax := hi - lo]> (shape t))
                (λ idx, tget t (alter (λ c, lo + c) ax idx)))
  end.

(** [buf[:, i:j] = src] for [ax = 1], [buf[i:j] = src] for [ax = 0], for a
    source of the shape of the target slice. *)
Definition assign_axis (ax i j : nat) (buf src : tensor) : tensor :=
  match shape buf !! ax with
  | None => buf
  | Some n =>
      let lo := slice_lo i n in
      let hi := slice_hi j n in
      Build (shape buf)
            (λ idx, match idx !! ax with
                    | Some c =>
                        if (lo <=? c) && (c <? hi)
                        then tget src (alter (λ c, c - lo) ax idx)
                        else tget buf idx
                    | None => tget buf idx
                    end)
  end.

(** [buf[:, i:j, ..., :m] = src[..., :m]] for [ax = 1] and
    [buf[i:j, ..., :m] = src[..., :m]] for [ax = 0].  The index names
    [ax + 2] dimensions; torch raises [IndexError] (too many indices) on a
    tensor with fewer. *)
Definition assign_axis_trunc (ax i j m : nat) (buf src : tensor) : result tensor :=
  match shape buf !! ax with
  | None => Raise IndexError
  | Some n =>
      if length (shape buf) <? ax + 2 then Raise IndexError
      else
        let lo := slice_lo i n in
        let hi := slice_hi j n in
        Ok (Build (shape buf)
              (λ idx, match idx !! ax, last idx with
                      | Some c, Some k =>
                          if (lo <=? c) && (c <? hi) && (k <? m)
                          then tget src (alter (λ c, c - lo) ax idx)
                          else tget buf idx
                      | _, _ => tget buf idx
                      end))
  end.

(** Columns [i, j) of [t] hold exactly the tensor [src]. *)
Definition cols_hold (i j : nat) (t src : tensor) : Prop :=
  ∃ s, slice_axis 1 i j t = Ok s ∧ teq s src.

End Tensor.

(** ** The Learner process: [Learner.run] *)

Module Learner.
Import Tensor.

(** The fields of [args : Config] that [Learner.run] reads for the round
    logic.  [num_learners] is [max(1, len(args.learner_gpu_ids))] and
    [learner_id] the position of [args.gpu_id] in that list (0 when the
    list is empty). *)
Record config := Config {
  num_workers : nat;
  num_envs : nat;
  horizon_len : nat;
  state_dim : nat;
  action_dim : nat;
  if_discrete : bool;
  if_off_policy : bool;
  num_learners : nat;
  learner_id : nat;
}.

Definition num_seqs (args : config) : nat :=
  num_envs args * num_workers args * num_learners args.

Definition num_communications (args : config) : nat := num_learners args - 1.

(** The shapes of the tensors of a trajectory tuple with [n] columns
    (sequences), in the order of [buffer_items_tensor]:
    [(states, actions, rewards, undones, unmasks)] when off-policy,
    [(states, actions, logprobs, rewards, undones, unmasks)] otherwise. *)
Definition item_shapes (args : config) (n : nat) : list (list nat) :=
  let h := horizon_len args in
  let states := [h; n; state_dim args] in
  let actions := if if_discrete args then [h; n] else [h; n; action_dim args] in
  let flat := [h; n] in
  if if_off_policy args
  then [states; actions; flat; flat; flat]
  else [states; actions; flat; flat; flat; flat].

(** [buffer_items_tensor] as allocated before the loop. *)
Definition init_buffer_items_tensor (args : config) : list tensor :=
  zeros <$> item_shapes args (num_seqs args).

(** A message of a Worker: [(worker_id, buffer_items, last_state)]. *)
Record worker_msg := WorkerMsg {
  msg_worker_id : nat;
  msg_buffer_items : list tensor;
  msg_last_state : tensor;
}.

(** The part of the Learner's memory the round logic writes:
    [buffer_items_tensor] and [agent.last_state]. *)
Record state := State {
  buffer_items_tensor : list tensor;
  last_state : tensor;
}.

(** The body of the loops over [zip(buffer_items, buffer_items_tensor)] and
    the write of [last_state], for one received tensor:

      - equal shapes: the slice is assigned;
      - same rank and same leading dimensions: a warning is printed and the
        first [min_dim] entries of the last dimension are assigned;
      - otherwise an error is printed and nothing is written. *)
Definition write_segment (ax buf_i buf_j : nat)
    (buffer_tensor buffer_item : tensor) : result tensor :=
  target ← slice_axis ax buf_i buf_j buffer_tensor;
  let target_shape := shape target in
  let source_shape := shape buffer_item in
  if decide (source_shape = target_shape) then
    Ok (assign_axis ax buf_i buf_j buffer_tensor buffer_item)
  else if decide (length source_shape = length target_shape
                  ∧ removelast source_shape = removelast target_shape) then
    let min_dim := List.last source_shape 0 `min` List.last target_shape 0 in
    assign_axis_trunc ax buf_i buf_j min_dim buffer_tensor buffer_item
  else
    Ok buffer_tensor.

(** [for i, (buffer_item, buffer_tensor) in enumerate(zip(items, tensors))]:
    [zip] stops at the shorter sequence; the tensors beyond it are left as
    they are. *)
Fixpoint write_items (buf_i buf_j : nat) (items tensors : list tensor)
    : result (list tensor) :=
  match items, tensors with
  | buffer_item :: items', buffer_tensor :: tensors' =>
      t ← write_segment 1 buf_i buf_j buffer_tensor buffer_item;
      ts ← write_items buf_i buf_j items' tensors';
      Ok (t :: ts)
  | _, _ => Ok tensors
  end.

(** One iteration of [for _ in range(num_workers)] after the [recv()]. *)
Definition recv_worker (args : config) (st : state) (m : worker_msg) : result state :=
  let buf_i := num_envs args * msg_worker_id m in
  let buf_j := num_envs args * (msg_worker_id m + 1) in
  ts ← write_items buf_i buf_j (msg_buffer_items m) (buffer_items_tensor st);
  ls ← write_segment 0 buf_i buf_j (last_state st) (msg_last_state m);
  Ok (State ts ls).

(** The gather loop: [n] blocking receives from [recv_pipe], whose pending
    messages are [pipe] in arrival order.  Returns the state and what is
    left in the pipe. *)
Fixpoint gather_loop (args : config) (n : nat) (pipe : list worker_msg) (st : state)
    : result (state * list worker_msg) :=
  match n with
  | 0 => Ok (st, pipe)
  | S n' =>
      match pipe with
      | [] => Block
      | m :: pipe' =>
          st' ← recv_worker args st m;
          gather_loop args n' pipe' st'
      end
  end.

Definition gather (args : config) (pipe : list worker_msg) (st : state)
    : result (state * list worker_msg) :=
  gather_loop args (num_workers args) pipe st.

(** *** The exchange between Learners *)

(** What travels between Learners: the list [_buffer_items_tensor_send]. *)
Abbreviation payload := (list tensor) (only parsing).

(** [learners_pipe]: one pipe per Learner; Learner [k] sends on end 0 of
    pipe [k], every other Learner receives on end 1 of pipe [k].  A pipe is
    the queue of payloads sent and not yet received. *)
Abbreviation ring := (list (list payload)) (only parsing).

Definition buffer_len (args : config) : nat := num_envs args * num_workers args.

(** [[t[:, :_buffer_len].cpu().detach() for t in buffer_items_tensor]] *)
Fixpoint local_segment (len : nat) (tensors : list tensor) : result payload :=
  match tensors with
  | [] => Ok []
  | t :: tensors' =>
      s ← slice_axis 1 0 len t;
      ss ← local_segment len tensors';
      Ok (s :: ss)
  end.

(** The send loop: [num_communications] copies on the Learner's own pipe. *)
Definition ring_send (args : config) (tensors : list tensor) (pipes : ring) : result ring :=
  seg ← local_segment (buffer_len args) tensors;
  match num_communications args with
  | 0 => Ok pipes
  | S _ =>
      match pipes !! learner_id args with
      | None => Raise IndexError
      | Some q =>
          Ok (<[learner_id args := q ++ replicate (num_communications args) seg]> pipes)
      end
  end.

(** The receive loop over [shift_id], here over the list [shifts] of the
    remaining values of [shift_id]. *)
Fixpoint ring_recv_loop (args : config) (shifts : list nat)
    (tensors : list tensor) (pipes : ring) : result (list tensor * ring) :=
  match shifts with
  | [] => Ok (tensors, pipes)
  | shift_id :: shifts' =>
      let _learner_id := (learner_id args + shift_id + 1) `mod` num_learners args in
      match pipes !! _learner_id with
      | None => Raise IndexError
      | Some [] => Block
      | Some (_buffer_items_recv :: q) =>
          let _buf_i := num_envs args * num_workers args * (shift_id + 1) in
          let _buf_j := num_envs args * num_workers args * (shift_id + 2) in
          ts ← write_items _buf_i _buf_j _buffer_items_recv tensors;
          ring_recv_loop args shifts' ts (<[_learner_id := q]> pipes)
      end
  end.

Definition ring_recv (args : config) (tensors : list tensor) (pipes : ring)
    : result (list tensor * ring) :=
  ring_recv_loop args (seq 0 (num_communications args)) tensors pipes.

(** *** One round up to the update call

    Gather, [del buffer_items, last_state] (names that are bound only if the
    gather loop ran at least once), send to the other Learners, receive
    from them; the result is the tuple [buffer_items_tensor] passed to
    [buffer.update] (off-policy) or stored by
    [buffer[:] = buffer_items_tensor] (on-policy), which the Learner
    reaches with no further test. *)
Record round_result := RoundResult {
  handed_to_update : list tensor;
  state_after : state;
  recv_pipe_after : list worker_msg;
  ring_after : ring;
}.

Definition round_to_update (args : config) (recv_pipe : list worker_msg)
    (pipes : ring) (st : state) : result round_result :=
  '(st1, recv_pipe') ← gather args recv_pipe st;
  _ ← (if num_workers args =? 0 then Raise UnboundLocalError else Ok ());
  pipes1 ← ring_send args (buffer_items_tensor st1) pipes;
  '(ts, pipes2) ← ring_recv args (buffer_items_tensor st1) pipes1;
  Ok (RoundResult ts (State ts (last_state st1)) recv_pipe' pipes2).

(** The trailing (per-sample) dimensions of the tensors of a trajectory
    tuple, in the order of [item_shapes]. *)
Definition feature_dims (args : config) : list (list nat) :=
  let actions := if if_discrete args then [] else [action_dim args] in
  if if_off_policy args
  then [[state_dim args]; actions; []; []; []]
  else [[state_dim args]; actions; []; []; []; []].

(** The tensors [ts] have [h] rows, [n] columns and the trailing dimensions
    [feats], one by one. *)
Definition shapes_are (h n : nat) (feats : list (list nat)) (ts : list tensor) : Prop :=
  Forall2 (λ t f, shape t = h :: n :: f) ts feats.

(** The column range [buf_i, buf_j) of the Worker that sent [m]. *)
Definition worker_range (args : config) (m : worker_msg) : nat * nat :=
  (num_envs args * msg_worker_id m, num_envs args * (msg_worker_id m + 1)).

(** The Learner whose segment Learner [me] reads for [shift_id]. *)
Definition peer (args : config) (shift_id : nat) : nat :=
  (learner_id args + shift_id + 1) `mod` num_learners args.

(** The Learner whose local segment ends up in slot [slot] of the buffer of
    Learner [me]: slot 0 is its own, slot [shift_id + 1] is that of
    [peer shift_id]. *)
Definition slot_owner (num_learners me slot : nat) : nat :=
  (me + slot) `mod` num_learners.

(** *** All Learners of one round

    [train_agent_multiprocessing_multi_gpu] gives Learner [k] a deep copy of
    [args] whose [gpu_id] is the [k]-th of [learner_gpu_ids], and one list
    [learners_pipe] of fresh pipes shared by all. *)
Definition learner_args (args : config) (k : nat) : config :=
  Config (num_workers args) (num_envs args) (horizon_len args) (state_dim args)
         (action_dim args) (if_discrete args) (if_off_policy args)
         (num_learners args) k.

Definition learners_pipe (args : config) : ring :=
  replicate (num_learners args) [].

(** The segment [local_segment] yields, as a total function. *)
Definition segment_of (len : nat) (tensors : list tensor) : payload :=
  match local_segment len tensors with
  | Ok seg => seg
  | _ => []
  end.

(** The Learners listed in [ks] run their send loops, one after the other;
    [locals k] is [buffer_items_tensor] of Learner [k] after its gather. *)
Fixpoint send_all (args : config) (ks : list nat) (locals : nat → list tensor)
    (pipes : ring) : result ring :=
  match ks with
  | [] => Ok pipes
  | k :: ks' =>
      pipes' ← ring_send (learner_args args k) (locals k) pipes;
      send_all args ks' locals pipes'
  end.

(** The Learners listed in [ks] run their receive loops, one after the
    other; the result pairs each Learner with its buffer. *)
Fixpoint recv_all (args : config) (ks : list nat) (locals : nat → list tensor)
    (pipes : ring) : result (list (nat * list tensor) * ring) :=
  match ks with
  | [] => Ok ([], pipes)
  | k :: ks' =>
      '(ts, pipes') ← ring_recv (learner_args args k) (locals k) pipes;
      '(rest, pipes'') ← recv_all args ks' locals pipes';
      Ok ((k, ts) :: rest, pipes'')
  end.

(** One round of the exchange as it runs when a barrier holds the Learners
    together: the pipes are empty when the round starts, the send loops run
    in the order [send_order], and only then the receive loops, in the order
    [recv_order].  [Learner.run] has no such barrier: a Learner may be a
    round ahead of a peer that has not received yet, which
    [Race.slow_peers_run] plays through. *)
Definition exchange (args : config) (send_order recv_order : list nat)
    (locals : nat → list tensor) : result (list (nat * list tensor) * ring) :=
  pipes ← send_all args send_order locals (learners_pipe args);
  recv_all args recv_order locals pipes.

(** How many of the Learners in [done] have taken a payload from pipe [k]:
    all but [k] itself. *)
Definition reads (done : list nat) (k : nat) : nat :=
  length (filter (λ j, j ≠ k) done).

End Learner.

(** ** The Worker process: [Worker.run] *)

Module Worker.
Import Tensor Learner.

Section Run.
(** A policy snapshot, and the Worker's agent and environment. *)
Context {actor wstate : Type}.

(** [agent.explore_env(env, horizon_len)] with [agent.act = actor]: code
    of the agent class, outside this file.  It returns [buffer_items] and
    moves agent and environment on, or raises ([None]). *)
Variable explore_env : actor → wstate → option (list tensor * wstate).

(** [agent.last_state] *)
Variable agent_last_state : wstate → tensor.

(** What a Worker does on its two pipes, in order. *)
Inductive event :=
  | Recv (a : option actor)
  | Send (m : worker_msg).

(** The loop [while True] of [Worker.run] on the messages [inbox] that its
    [recv_pipe] will deliver; [None] is the Python [None].  After the
    [break] the Worker closes its environment, prints and returns. *)
Fixpoint worker_loop (worker_id : nat) (inbox : list (option actor)) (ws : wstate)
    : list event * status :=
  match inbox with
  | [] => ([], Waiting)
  | None :: _ => ([Recv None], Exited)
  | Some a :: inbox' =>
      match explore_env a ws with
      | None => ([Recv (Some a)], Crashed)
      | Some (buffer_items, ws') =>
          let '(tr, s) := worker_loop worker_id inbox' ws' in
          (Recv (Some a)
             :: Send (WorkerMsg worker_id buffer_items (agent_last_state ws'))
             :: tr, s)
      end
  end.

(** The messages sent and the policies received along a trace. *)
Definition sends (tr : list event) : list worker_msg :=
  omap (λ e, match e with Send m => Some m | Recv _ => None end) tr.

Definition policies (tr : list event) : list actor :=
  omap (λ e, match e with Recv (Some a) => Some a | _ => None end) tr.

(** A trace made of rounds, each a received policy followed at once by one
    message carrying [worker_id], and ended, if at all, by the receipt of
    the sentinel. *)
Inductive rounds (worker_id : nat) : list event → Prop :=
  | rounds_waiting : rounds worker_id []
  | rounds_stopped : rounds worker_id [Recv None]
  | rounds_round a m tr :
      msg_worker_id m = worker_id →
      rounds worker_id tr →
      rounds worker_id (Recv (Some a) :: Send m :: tr).
End Run.

(** A Worker whose exploration returns one tensor per round. *)
Definition demo_explore (a : nat) (ws : nat) : option (list tensor * nat) :=
  Some ([Build [1; 1] (λ _, Z.of_nat a)], S ws).

Definition demo_last_state (ws : nat) : tensor :=
  Build [1; 1] (λ _, Z.of_nat ws).

End Worker.

(** ** The Evaluator: [Evaluator.evaluate_and_save], [EvaluatorProc.run] *)

Module Evaluator.

(** Python floats as far as the Evaluator uses them: they are compared and
    stored, never computed with.  A finite float is the rational it
    denotes. *)
Inductive pyfloat :=
  | NegInf
  | Fin (q : Q)
  | PosInf
  | NaN.

(** [a > b] *)
Definition fgt (a b : pyfloat) : bool :=
  match a, b with
  | NaN, _ | _, NaN => false
  | NegInf, _ => false
  | Fin _, NegInf => true
  | Fin x, Fin y => negb (Qle_bool x y)
  | Fin _, PosInf => false
  | PosInf, PosInf => false
  | PosInf, _ => true
  end.

(** [a == b] *)
Definition feq (a b : pyfloat) : bool :=
  match a, b with
  | NegInf, NegInf | PosInf, PosInf => true
  | Fin x, Fin y => Qeq_bool x y
  | _, _ => false
  end.

(** [a >= b] *)
Definition fge (a b : pyfloat) : bool := fgt a b || feq a b.

(** The builtin [max(a, b)]: the first argument unless the second is
    greater. *)
Definition pymax (a b : pyfloat) : pyfloat := if fgt b a then b else a.

(** The attributes of an [Evaluator] that [evaluate_and_save] reads or
    writes.  [recorder] keeps, of each tuple, [total_step] and [avg_r]. *)
Record evaluator := Attrs {
  total_step : Z;
  eval_per_step : Z;
  eval_step_counter : Z;
  recorder_step : Z;
  save_gap : Z;
  save_counter : Z;
  if_keep_save : bool;
  if_over_write : bool;
  recorder : list (Z * pyfloat);
  max_r : pyfloat;
}.

(** The attributes set by [Evaluator.__init__] from [args]. *)
Definition init (eval_per_step eval_record_step save_gap : Z)
    (if_keep_save if_over_write : bool) : evaluator :=
  Attrs 0 eval_per_step (- eval_per_step) eval_record_step save_gap 0
        if_keep_save if_over_write [] NegInf.

Definition set_total_step (v : Z) (ev : evaluator) : evaluator :=
  Attrs v (eval_per_step ev) (eval_step_counter ev) (recorder_step ev)
        (save_gap ev) (save_counter ev) (if_keep_save ev) (if_over_write ev)
        (recorder ev) (max_r ev).

Definition set_eval_step_counter (v : Z) (ev : evaluator) : evaluator :=
  Attrs (total_step ev) (eval_per_step ev) v (recorder_step ev)
        (save_gap ev) (save_counter ev) (if_keep_save ev) (if_over_write ev)
        (recorder ev) (max_r ev).

Definition set_save_counter (v : Z) (ev : evaluator) : evaluator :=
  Attrs (total_step ev) (eval_per_step ev) (eval_step_counter ev) (recorder_step ev)
        (save_gap ev) v (if_keep_save ev) (if_over_write ev)
        (recorder ev) (max_r ev).

Definition set_recorder (v : list (Z * pyfloat)) (ev : evaluator) : evaluator :=
  Attrs (total_step ev) (eval_per_step ev) (eval_step_counter ev) (recorder_step ev)
        (save_gap ev) (save_counter ev) (if_keep_save ev) (if_over_write ev)
        v (max_r ev).

Definition set_max_r (v : pyfloat) (ev : evaluator) : evaluator :=
  Attrs (total_step ev) (eval_per_step ev) (eval_step_counter ev) (recorder_step ev)
        (save_gap ev) (save_counter ev) (if_keep_save ev) (if_over_write ev)
        (recorder ev) v.

(** What the world answers during one cycle of the Evaluator:
    - [episodes]: the mean return [avg_r] that
      [get_cumulative_rewards_and_step(actor)] yields if it is called;
      [None] when its result is [None], not a tensor, of rank below two or
      empty, or when the statistics raise [IndexError];
    - [save_ok]: whether [th.save] succeeds;
    - [stop_exists]: [os.path.exists(f"{cwd}/stop")]. *)
Record world := World {
  episodes : option pyfloat;
  save_ok : bool;
  stop_exists : bool;
}.

(** The two branches that assign [actor_path]. *)
Inductive save_reason := Improved | Gap.

(** The file name chosen for the checkpoint. *)
Inductive checkpoint :=
  | ActorPt
  | ActorStepReturn (total_step : Z) (max_r : pyfloat)
  | ActorStep (total_step : Z).

(** The effects of the Evaluator outside its attributes. *)
Inductive event :=
  | RunEpisodes
  | SaveCurve
  | SaveCheckpoint (why : save_reason) (file : checkpoint)
  | SendFlag (if_train : bool).

(** [self.recorder and self.recorder[-1][1] > -np.inf] *)
Definition recorder_valid (ev : evaluator) : bool :=
  match last (recorder ev) with
  | Some (_, r) => fgt r NegInf
  | None => false
  end.

(** [Evaluator.evaluate_and_save(actor, steps, exp_r, logging_tuple)].
    Printing, the clock and the tensorboard scalars are left out: they
    change none of the attributes above and their exceptions are caught. *)
Definition evaluate_and_save (ev : evaluator) (steps : Z) (w : world)
    : evaluator * list event :=
  let ev := set_total_step (total_step ev + steps) ev in
  if (total_step ev <? recorder_step ev)%Z then (ev, [])
  else if (total_step ev <? eval_step_counter ev + eval_per_step ev)%Z then (ev, [])
  else
    let ev := set_eval_step_counter (total_step ev) ev in
    let avg_r := default NegInf (episodes w) in
    let ev := if fgt avg_r NegInf
              then set_recorder (recorder ev ++ [(total_step ev, avg_r)]) ev
              else ev in
    let prev_max_r := max_r ev in
    let ev := if fgt avg_r NegInf
              then set_max_r (pymax (max_r ev) avg_r) ev
              else ev in
    let if_save := fgt avg_r NegInf && fgt avg_r prev_max_r in
    let curve := if if_save && recorder_valid ev then [SaveCurve] else [] in
    if negb (if_keep_save ev) then (ev, RunEpisodes :: curve)
    else
      let ev := set_save_counter (save_counter ev + 1) ev in
      let '(ev, actor_path) :=
        if if_save then
          (ev, Some (Improved,
                     if negb (if_over_write ev)
                     then ActorStepReturn (total_step ev) (max_r ev)
                     else ActorPt))
        else if (save_gap ev <=? save_counter ev)%Z then
          (set_save_counter 0 ev,
           Some (Gap, if negb (if_over_write ev) then ActorStep (total_step ev) else ActorPt))
        else (ev, None) in
      match actor_path with
      | Some (why, file) =>
          if save_ok w
          then (ev, RunEpisodes :: curve ++ SaveCheckpoint why file
                      :: (if recorder_valid ev then [SaveCurve] else []))
          else (ev, RunEpisodes :: curve)
      | None => (ev, RunEpisodes :: curve)
      end.

(** [(running_total <= break_step) and (not os.path.exists(f"{cwd}/stop"))] *)
Definition continue_flag (break_step running_total : Z) (stop_exists : bool) : bool :=
  (running_total <=? break_step)%Z && negb stop_exists.

Section Proc.
Context {actor : Type}.

(** What the Learner sends: [(actor, steps, exp_r, logging_tuple)], of
    which the loop reads the first two. *)
Record learner_msg := LearnerMsg {
  msg_actor : option actor;
  msg_steps : Z;
}.

(** The body of [while if_train] in [EvaluatorProc.run]: the state after
    it, what it did, and the flag it sent. *)
Definition cycle (break_step : Z) (ev : evaluator) (m : learner_msg) (w : world)
    : evaluator * list event * bool :=
  let '(ev, evs) :=
    match msg_actor m with
    | None => (set_total_step (total_step ev + msg_steps m) ev, [])
    | Some _ => evaluate_and_save ev (msg_steps m) w
    end in
  let if_train := (total_step ev <=? break_step)%Z && negb (stop_exists w) in
  (ev, evs ++ [SendFlag if_train], if_train).

(** The loop of [EvaluatorProc.run] on the messages its pipe will
    deliver, each with the answers of the world during its cycle.  What
    follows the loop (the learning curve, the pipe drained, the environment
    closed) sends nothing. *)
Fixpoint proc_loop (break_step : Z) (ev : evaluator)
    (inbox : list (learner_msg * world)) : evaluator * list event * status :=
  match inbox with
  | [] => (ev, [], Waiting)
  | (m, w) :: inbox' =>
      let '(ev', evs, if_train) := cycle break_step ev m w in
      if if_train then
        let '(ev'', evs', s) := proc_loop break_step ev' inbox' in
        (ev'', evs ++ evs', s)
      else (ev', evs, Exited)
  end.
End Proc.

(** The flags sent along a trace, in order. *)
Definition flags (tr : list event) : list bool :=
  omap (λ e, match e with SendFlag b => Some b | _ => None end) tr.

(** One pass of [while if_train] in [train_agent_single_process], from the
    call of [evaluate_and_save] on: the Evaluator after it, what it did, and
    the new [if_train]. *)
Definition single_process_cycle (break_step horizon_len : Z) (ev : evaluator) (w : world)
    : evaluator * list event * bool :=
  let '(ev, evs) := evaluate_and_save ev horizon_len w in
  (ev, evs, (total_step ev <=? break_step)%Z && negb (stop_exists w)).

End Evaluator.

(** ** What a write leaves alone *)

Module Frame.
Import Tensor.

(** [t] has the shape of [b] and agrees with it on every column outside
    [lo, hi). *)
Definition untouched_outside (lo hi : nat) (t b : tensor) : Prop :=
  shape t = shape b
  ∧ ∀ k c r, c < lo ∨ hi ≤ c → tget t (k :: c :: r) = tget b (k :: c :: r).

(** Rows [i, j) of [t] hold exactly the tensor [src]. *)
Definition rows_hold (i j : nat) (t src : tensor) : Prop :=
  ∃ s, slice_axis 0 i j t = Ok s ∧ teq s src.

End Frame.

(** ** Runs of the Evaluator *)

Module EvaluatorRun.
Import Evaluator.

(** Successive calls of [evaluate_and_save], each given as its [steps] and
    the answers of the world during it: the Evaluator after each call and
    what the call did. *)
Fixpoint calls (ev : evaluator) (cs : list (Z * world)) : list (evaluator * list event) :=
  match cs with
  | [] => []
  | (steps, w) :: cs' =>
      let r := evaluate_and_save ev steps w in
      r :: calls r.1 cs'
  end.

(** The Evaluator after the calls [cs]. *)
Definition after_calls (ev : evaluator) (cs : list (Z * world)) : evaluator :=
  foldl (λ ev c, (evaluate_and_save ev c.1 c.2).1) ev cs.

(** The greatest of a list of returns, by the builtin [max] from [-inf]
    on. *)
Definition best (rs : list pyfloat) : pyfloat := foldl pymax NegInf rs.

(** The recorder explains [max_r]: [max_r] is the greatest recorded
    average return, every recorded return is above [-inf], and the recorded
    steps are in order and not beyond the running total. *)
Definition recorder_ok (ev : evaluator) : Prop :=
  max_r ev = best (recorder ev).*2
  ∧ Forall (λ tr, fgt tr.2 NegInf = true ∧ (tr.1 ≤ total_step ev)%Z) (recorder ev)
  ∧ StronglySorted Z.le (recorder ev).*1.

End EvaluatorRun.

(** ** The whole loop of the Learner: [Learner.run], [while if_train] *)

Module LearnerLoop.
Import Tensor Learner.

(** Which Python object travels as the policy: [agent.act] itself, or the
    copy [deepcopy(agent.act).cpu()] that Windows needs, made in round
    [round] before or after [agent.update_net]. *)
Inductive actor_obj :=
  | AgentAct
  | ActCopy (round : nat) (updated : bool).

(** [agent.act], made ready to be sent ([os.name == 'nt'] is [nt]). *)
Definition fetch_actor (nt : bool) (round : nat) (updated : bool) : actor_obj :=
  if nt then ActCopy round updated else AgentAct.

(** What one round finds outside the Learner: the pipes between Learners
    as they are when it gets to the exchange, and what
    [eval_pipe.poll()] / [eval_pipe.recv()] give: [None] when nothing is
    pending, else the flag of the Evaluator. *)
Record round_input := RoundInput {
  ri_pipes : ring;
  ri_poll : option bool;
}.

(** The names of the tensors of [buffer_items_tensor], in their order. *)
Inductive item_name := States | Actions | Logprobs | Rewards | Undones | Unmasks.

Definition item_names (args : config) : list item_name :=
  if if_off_policy args
  then [States; Actions; Rewards; Undones; Unmasks]
  else [States; Actions; Logprobs; Rewards; Undones; Unmasks].

(** [reward_index = 3 if not agent.if_off_policy else 2], the agent being
    built from the same [args]. *)
Definition reward_index (args : config) : nat :=
  if negb (if_off_policy args) then 3 else 2.

(** [num_steps = args.horizon_len * args.num_workers] *)
Definition num_steps (args : config) : nat := horizon_len args * num_workers args.

(** What the Learner does to the outside, in order: a message on the pipe
    of Worker [i] (a policy or the sentinel [None]); the buffer handed to
    [buffer.update] or [buffer[:] = ...], followed by
    [agent.update_net(buffer)]; the message
    [(actor, num_steps, exp_r, logging_tuple)] to the Evaluator, [exp_r]
    being the mean of the tensor at [index]; the final save of the agent. *)
Inductive event :=
  | ToWorker (i : nat) (a : option actor_obj)
  | Update (buffer_items : list tensor)
  | ToEvaluator (a : option actor_obj) (steps : nat) (index : nat)
  | SaveAgent.

(** How the loop ends: [run] returned, an exception left it, a blocking
    receive found nothing, or [inputs] ran out while it was training. *)
Inductive outcome :=
  | Stopped
  | Raised (e : exn)
  | Blocked
  | Unfinished.

(** [for send_pipe in self.send_pipes: send_pipe.send(a)]: one pipe per
    Worker, as [train_agent_multiprocessing] builds them. *)
Definition broadcast (args : config) (a : option actor_obj) : list event :=
  (λ i, ToWorker i a) <$> seq 0 (num_workers args).

(** The loop [while if_train] and what follows it, on the rounds [inputs]
    and the messages [recv_pipe] that the Workers will have sent. *)
Fixpoint learner_loop (nt : bool) (args : config) (round : nat)
    (inputs : list round_input) (recv_pipe : list worker_msg) (st : state)
    : list event * outcome :=
  match inputs with
  | [] => ([], Unfinished)
  | inp :: inputs' =>
      let actor := fetch_actor nt round false in
      let sent := broadcast args (Some actor) in
      match round_to_update args recv_pipe (ri_pipes inp) st with
      | Raise e => (sent, Raised e)
      | Block => (sent, Blocked)
      | Ok r =>
          let '(if_train, actor) :=
            match ri_poll inp with
            | Some flag => (flag, Some actor)
            | None => (true, None)
            end in
          if if_train then
            let actor :=
              match actor with
              | None => Some (fetch_actor nt round true)
              | Some a => Some a
              end in
            let '(tr, o) := learner_loop nt args (S round) inputs'
                              (recv_pipe_after r) (state_after r) in
            (sent ++ Update (handed_to_update r)
                  :: ToEvaluator actor (num_steps args) (reward_index args)
                  :: tr, o)
          else
            (sent ++ Update (handed_to_update r)
                  :: broadcast args None ++ [SaveAgent], Stopped)
      end
  end.

(** What Worker [i] finds in its pipe. *)
Definition worker_inbox (i : nat) (tr : list event) : list (option actor_obj) :=
  omap (λ e, match e with
             | ToWorker j a => if decide (j = i) then Some a else None
             | _ => None
             end) tr.

(** The buffers handed to the update, one per round. *)
Definition updates (tr : list event) : list (list tensor) :=
  omap (λ e, match e with Update b => Some b | _ => None end) tr.

(** The messages to the Evaluator: policy and steps. *)
Definition evaluator_msgs (tr : list event) : list (option actor_obj * nat) :=
  omap (λ e, match e with ToEvaluator a n _ => Some (a, n) | _ => None end) tr.

(** A Learner with one Worker, one environment and a horizon of one step,
    its buffer as allocated, and a message of its Worker. *)
Definition demo_args : config := Config 1 1 1 3 1 false true 1 0.

Definition demo_state : state :=
  State (init_buffer_items_tensor demo_args) (zeros [1; 3]).

Definition demo_msg : worker_msg :=
  WorkerMsg 0 ((λ sh, Build sh (λ _, 7%Z)) <$> item_shapes demo_args 1) (zeros [1; 3]).

End LearnerLoop.

(** ** One Learner per GPU: [train_agent_multiprocessing_multi_gpu] *)

Module Topology.
Import Tensor Learner.

(** [l.index(x)]: the first position of [x]; [None] stands for
    [ValueError]. *)
Fixpoint index (x : Z) (l : list Z) : option nat :=
  match l with
  | [] => None
  | y :: l' => if decide (y = x) then Some 0 else S <$> index x l'
  end.

(** [args.learner_gpu_ids.index(args.gpu_id) if len(args.learner_gpu_ids) > 0 else 0] *)
Definition learner_id_of (learner_gpu_ids : list Z) (gpu_id : Z) : option nat :=
  if 0 <? length learner_gpu_ids then index gpu_id learner_gpu_ids else Some 0.

(** [max(1, len(args.learner_gpu_ids))] *)
Definition num_learners_of (learner_gpu_ids : list Z) : nat :=
  1 `max` length learner_gpu_ids.

(** [for gpu_id in args.learner_gpu_ids]: each Learner gets a copy of
    [args] with [gpu_id] set; the [learner_id] each of them computes, in
    the order in which they are built. *)
Definition spawned_learner_ids (learner_gpu_ids : list Z) : list (option nat) :=
  learner_id_of learner_gpu_ids <$> learner_gpu_ids.

(** The send loops of the Learners [procs], one after the other; each
    Learner is given by the [learner_id] it computed and its buffer. *)
Fixpoint send_each (args : config) (procs : list (nat * list tensor)) (pipes : ring)
    : result ring :=
  match procs with
  | [] => Ok pipes
  | (k, tensors) :: procs' =>
      pipes' ← ring_send (learner_args args k) tensors pipes;
      send_each args procs' pipes'
  end.

End Topology.

(** ** Evaluation episodes: [get_rewards_and_steps] and the single-env
    evaluation *)

Module Episode.
Import Evaluator.

Section Env.
Context {obs action env_state reward : Type}.

(** The arithmetic of the returns: [0.0] and [+] on what the environment
    gives as rewards. *)
Variable zero : reward.
Variable add : reward → reward → reward.

(** [info_dict.get("episode", {})] as the function reads it: the entries
    ["r"] and ["l"], each [None] when the key (or ["episode"] itself) is
    absent; the values are what [float(.)] and [int(.)] make of them. *)
Record episode_info := EpisodeInfo {
  info_r : option reward;
  info_l : option Z;
}.

(** What [env.step(action)] returns, by the length of the tuple: five
    values, four values, six or more (the first four are used), fewer than
    four. *)
Inductive step_output :=
  | Step5 (state : obs) (r : reward) (terminated truncated : bool) (info : episode_info)
  | Step4 (state : obs) (r : reward) (done : bool) (info : episode_info)
  | StepLonger (state : obs) (r : reward) (done : bool) (info : episode_info)
  | StepShorter.

(** An environment: the attributes [max_step] and [_max_episode_steps]
    (absent, [None], or an integer), and [reset] and [step] on its hidden
    state; [None] for a call that raises. *)
Record env := Env {
  max_step_attr : option (option Z);
  max_episode_steps_attr : option (option Z);
  reset : env_state → option obs * env_state;
  step : env_state → action → option step_output * env_state;
}.

(** The policy: whether [actor.parameters()] yields anything, and the
    action for a state, [None] when the conversion of the state or the
    forward pass raises. *)
Record policy := Policy {
  has_parameters : bool;
  act : obs → option action;
}.

(** What a call does: it returns a result or [None], or an exception
    leaves it. *)
Inductive outcome :=
  | Returns (result : option (reward * Z))
  | Raises.

(** [max_step] after the first four lines of [get_rewards_and_steps]. *)
Definition max_step_of (e : env) : Z :=
  let max_step :=
    match max_step_attr e with
    | Some v => v
    | None => match max_episode_steps_attr e with
              | Some v => v
              | None => Some 10000%Z
              end
    end in
  match max_step with
  | None => 10000
  | Some n => if (n <=? 0)%Z then 10000 else n
  end.

(** What a step gives the loop: state, reward, [done], info. *)
Definition unpack (out : step_output) : option (obs * reward * bool * episode_info) :=
  match out with
  | Step5 state r terminated truncated info => Some (state, r, terminated || truncated, info)
  | Step4 state r done info => Some (state, r, done, info)
  | StepLonger state r done info => Some (state, r, done, info)
  | StepShorter => None
  end.

(** [for episode_steps in range(max_step)] from the iteration
    [episode_steps] on, with [remaining] more iterations after it, and the
    lines after the loop. *)
Fixpoint episode_loop (e : env) (pi : policy) (remaining : nat) (episode_steps : Z)
    (state : obs) (cumulative_returns : reward) (s : env_state) {struct remaining}
    : option (reward * Z) * env_state :=
  match act pi state with
  | None => (None, s)
  | Some action =>
      let '(out, s) := step e s action in
      match (out ≫= unpack : option (obs * reward * bool * episode_info)) with
      | None => (None, s)
      | Some (state, r, done, info_dict) =>
          let cumulative_returns := add cumulative_returns r in
          if done then
            (Some (default cumulative_returns (info_r info_dict),
                   default (episode_steps + 1)%Z (info_l info_dict)), s)
          else
            match remaining with
            | 0 => (Some (cumulative_returns, (episode_steps + 1)%Z), s)
            | S remaining' =>
                episode_loop e pi remaining' (episode_steps + 1) state cumulative_returns s
            end
      end
  end.

(** [get_rewards_and_steps(env, actor)], [if_render] left at [False] as
    the Evaluator calls it. *)
Definition get_rewards_and_steps (e : env) (pi : policy) (s : env_state)
    : outcome * env_state :=
  let max_step := max_step_of e in
  if negb (has_parameters pi) then (Raises, s)
  else
    match reset e s with
    | (None, s) => (Returns None, s)
    | (Some state, s) =>
        let '(res, s) := episode_loop e pi (Z.to_nat max_step - 1) 0 state zero s in
        (Returns res, s)
    end.

(** [for _ in range(n)] of [get_cumulative_rewards_and_step_single_env],
    inside its [try]. *)
Fixpoint run_episodes (e : env) (pi : policy) (n : nat) (s : env_state)
    (rewards_steps_list : list (reward * Z)) : option (list (reward * Z)) * env_state :=
  match n with
  | 0 => (Some rewards_steps_list, s)
  | S n' =>
      match get_rewards_and_steps e pi s with
      | (Raises, s) => (None, s)
      | (Returns None, s) => run_episodes e pi n' s rewards_steps_list
      | (Returns (Some result), s) =>
          run_episodes e pi n' s (rewards_steps_list ++ [result])
      end
  end.

(** [Evaluator.get_cumulative_rewards_and_step_single_env(actor)]: [None],
    or the rows of the tensor it returns ([[]] for [th.empty((0, 2))]). *)
Definition get_cumulative_rewards_and_step_single_env (eval_times : Z)
    (e : env) (pi : policy) (s : env_state) : option (list (reward * Z)) * env_state :=
  run_episodes e pi (Z.to_nat eval_times) s [].

(** [avg_r] as [evaluate_and_save] gets it from that result: nothing for
    [None] or a tensor without rows, else [returns.mean().item()], here
    [mean] of the first column. *)
Definition episodes_of (mean : list reward → pyfloat) (rows : option (list (reward * Z)))
    : option pyfloat :=
  match rows with
  | None | Some [] => None
  | Some rows => Some (mean rows.*1)
  end.

(** [evaluate_and_save] of an Evaluator whose environment has
    [num_envs == 1], so that [get_cumulative_rewards_and_step] is the
    single-env one. *)
Definition evaluate_and_save_single_env (mean : list reward → pyfloat) (eval_times : Z)
    (e : env) (pi : policy) (s : env_state)
    (ev : evaluator) (steps : Z) (save_ok stop_exists : bool) : evaluator * list event :=
  let rows := (get_cumulative_rewards_and_step_single_env eval_times e pi s).1 in
  evaluate_and_save ev steps (World (episodes_of mean rows) save_ok stop_exists).

(** The environment never reports an episode length of its own. *)
Definition reports_no_length (e : env) : Prop :=
  ∀ s a out state r done info,
    (step e s a).1 = Some out → unpack out = Some (state, r, done, info) →
    info_l info = None.

(** The environment never ends an episode, and neither it nor the policy
    ever fails. *)
Definition never_done (e : env) (pi : policy) : Prop :=
  (∀ s, is_Some (reset e s).1)
  ∧ (∀ state, is_Some (act pi state))
  ∧ ∀ s a, ∃ out state r info,
      (step e s a).1 = Some out ∧ unpack out = Some (state, r, false, info).

End Env.

(** A counter as environment: the state is the number of steps taken, every
    reward is 1, and the episode ends at the [len]-th step if [len] is
    given. *)
Definition counter_env (max_step : option (option Z)) (len : option nat)
    : @env nat unit nat Z :=
  Env max_step None
      (λ _, (Some 0, 0))
      (λ s _, (Some (Step5 (S s) 1%Z (bool_decide (len = Some (S s))) false
                       (EpisodeInfo None None)), S s)).

Definition unit_policy : @policy nat unit := Policy true (λ _, Some tt).

End Episode.

(** ** Training in one process: [train_agent_single_process] *)

Module SingleProcess.
Import Evaluator.


End SingleProcess.

(** ** Learner and Workers together: who waits for whom *)

Module Lockstep.

(** Where the Learner is in [run]: before the send to Worker [k] in
    [for send_pipe in self.send_pipes], in the gather loop with [j]
    messages taken, before the send of [None] to Worker [k], or past it. *)
Inductive learner_phase :=
  | Sending (k : nat)
  | Receiving (j : nat)
  | Closing (k : nat)
  | Returned.

(** Where a Worker is in [run]: at [self.recv_pipe.recv()], between that
    and its send (exploring with the policy of round [policy]), or past the
    loop. *)
Inductive worker_phase :=
  | Idle
  | Exploring (policy : nat)
  | Closed.

#[global] Instance worker_phase_eq_dec : EqDecision worker_phase.
Proof. solve_decision. Defined.

(** The processes and their pipes as [train_agent_multiprocessing] builds
    them: one pipe per Worker, written by the Learner, and one pipe to the
    Learner, written by all Workers.  A policy is named by the round of the
    Learner that sent it, a message of a Worker by the Worker's id and the
    policy it explored with.  [taken] are the messages of the current
    gather loop, [gathers] those of the gather loops that are over. *)
Record sys := Sys {
  phase : learner_phase;
  round : nat;
  workers : nat → worker_phase;
  worker_pipes : nat → list (option nat);
  learner_pipe : list (nat * nat);
  taken : list (nat * nat);
  gathers : list (list (nat * nat));
}.

Definition upd {B} (f : nat → B) (i : nat) (v : B) : nat → B :=
  λ j, if decide (j = i) then v else f j.

(** Who moves next: the Learner ([if_train] is the flag it has at the end
    of the round, read there only) or Worker [i]. *)
Inductive agent :=
  | TheLearner (if_train : bool)
  | TheWorker (i : nat).

(** One move of one process between two operations on pipes; [None] when
    the process cannot move: it is blocked in [recv()] or has returned.
    Sends are atomic and pipes deliver in order; nobody raises. *)
Definition step (num_workers : nat) (a : agent) (s : sys) : option sys :=
  match a with
  | TheLearner if_train =>
      match phase s with
      | Sending k =>
          if k <? num_workers then
            Some (Sys (Sending (S k)) (round s) (workers s)
                      (upd (worker_pipes s) k (worker_pipes s k ++ [Some (round s)]))
                      (learner_pipe s) (taken s) (gathers s))
          else
            Some (Sys (Receiving 0) (round s) (workers s) (worker_pipes s)
                      (learner_pipe s) (taken s) (gathers s))
      | Receiving j =>
          if j <? num_workers then
            match learner_pipe s with
            | [] => None
            | m :: q =>
                Some (Sys (Receiving (S j)) (round s) (workers s) (worker_pipes s)
                          q (taken s ++ [m]) (gathers s))
            end
          else
            Some (Sys (if if_train then Sending 0 else Closing 0) (S (round s))
                      (workers s) (worker_pipes s) (learner_pipe s)
                      [] (gathers s ++ [taken s]))
      | Closing k =>
          if k <? num_workers then
            Some (Sys (Closing (S k)) (round s) (workers s)
                      (upd (worker_pipes s) k (worker_pipes s k ++ [None]))
                      (learner_pipe s) (taken s) (gathers s))
          else
            Some (Sys Returned (round s) (workers s) (worker_pipes s)
                      (learner_pipe s) (taken s) (gathers s))
      | Returned => None
      end
  | TheWorker i =>
      if i <? num_workers then
        match workers s i with
        | Idle =>
            match worker_pipes s i with
            | [] => None
            | Some actor :: q =>
                Some (Sys (phase s) (round s) (upd (workers s) i (Exploring actor))
                          (upd (worker_pipes s) i q)
                          (learner_pipe s) (taken s) (gathers s))
            | None :: q =>
                Some (Sys (phase s) (round s) (upd (workers s) i Closed)
                          (upd (worker_pipes s) i q)
                          (learner_pipe s) (taken s) (gathers s))
            end
        | Exploring actor =>
            Some (Sys (phase s) (round s) (upd (workers s) i Idle) (worker_pipes s)
                      (learner_pipe s ++ [(i, actor)]) (taken s) (gathers s))
        | Closed => None
        end
      else None
  end.

(** The moves of a schedule, one after the other. *)
Fixpoint run (num_workers : nat) (schedule : list agent) (s : sys) : option sys :=
  match schedule with
  | [] => Some s
  | a :: schedule' => s' ← step num_workers a s; run num_workers schedule' s'
  end.

(** All processes started, nothing sent. *)
Definition init : sys := Sys (Sending 0) 0 (λ _, Idle) (λ _, []) [] [] [].

(** *** What the proofs count *)

Fixpoint count {A} (f : A → bool) (l : list A) : nat :=
  match l with
  | [] => 0
  | x :: l' => (if f x then 1 else 0) + count f l'
  end.

Definition from_worker (i : nat) (m : nat * nat) : bool := m.1 =? i.

Definition is_policy (o : option nat) : bool :=
  match o with Some _ => true | None => false end.

(** The policies sent to Worker [i] that have not come back yet: in its
    pipe, in its hands, or as its message in the pipe of the Learner. *)
Definition outstanding (s : sys) (i : nat) : nat :=
  count is_policy (worker_pipes s i)
  + (match workers s i with Exploring _ => 1 | _ => 0 end)
  + count (from_worker i) (learner_pipe s).

Definition owed (s : sys) (i : nat) : nat :=
  match phase s with
  | Sending k => if i <? k then 1 else 0
  | Receiving _ => if bool_decide (i ∈ (taken s).*1) then 0 else 1
  | Closing _ | Returned => 0
  end.

(** The sentinels sent to Worker [i]: in its pipe, or obeyed. *)
Definition sentinels (s : sys) (i : nat) : nat :=
  count (λ o, negb (is_policy o)) (worker_pipes s i)
  + (match workers s i with Closed => 1 | _ => 0 end).

Definition sentinels_owed (s : sys) (i : nat) : nat :=
  match phase s with
  | Closing k => if i <? k then 1 else 0
  | Returned => 1
  | Sending _ | Receiving _ => 0
  end.

Record inv (num_workers : nat) (s : sys) : Prop := Inv {
  inv_owed : ∀ i, i < num_workers → outstanding s i = owed s i;
  inv_sentinels : ∀ i, i < num_workers → sentinels s i = sentinels_owed s i;
  inv_phase :
    match phase s with
    | Sending k | Closing k => k ≤ num_workers ∧ taken s = []
    | Receiving j => j ≤ num_workers ∧ length (taken s) = j ∧ NoDup (taken s).*1
    | Returned => taken s = []
    end;
  inv_pipe : ∀ m, m ∈ learner_pipe s → m.1 < num_workers ∧ m.2 = round s;
  inv_taken : ∀ m, m ∈ taken s → m.1 < num_workers ∧ m.2 = round s;
  inv_policies : ∀ i p, i < num_workers → Some p ∈ worker_pipes s i → p = round s;
  inv_exploring : ∀ i p, i < num_workers → workers s i = Exploring p → p = round s;
  inv_gathers :
    length (gathers s) = round s
    ∧ ∀ k g, gathers s !! k = Some g →
        g.*1 ≡ₚ seq 0 num_workers ∧ ∀ m, m ∈ g → m.2 = k;
}.

End Lockstep.

(** ** Rounds of several Learners without a barrier *)

Module Race.
Import Tensor Learner.

(** A round of Learner [k] up to the end of its send loop: it gathers from
    [recv_pipe] and puts its segment on its pipe. *)
Definition gather_and_send (args : config) (k : nat) (recv_pipe : list worker_msg)
    (st : state) (pipes : ring) : result (state * ring) :=
  '(st1, _) ← gather (learner_args args k) recv_pipe st;
  _ ← (if num_workers args =? 0 then Raise UnboundLocalError else Ok ());
  pipes1 ← ring_send (learner_args args k) (buffer_items_tensor st1) pipes;
  Ok (st1, pipes1).

(** The rest of the round up to the update: the receive loop. *)
Definition receive (args : config) (k : nat) (st : state) (pipes : ring)
    : result (state * ring) :=
  '(ts, pipes') ← ring_recv (learner_args args k) (buffer_items_tensor st) pipes;
  Ok (State ts (last_state st), pipes').

(** Three Learners with one Worker and one environment each. *)
Definition three : config := Config 1 1 1 2 1 true true 3 0.

(** What the Worker of Learner [k] explores in round [r]: every entry is
    [10 * r + k]. *)
Definition batch (k r : nat) : list tensor :=
  (λ sh, Build sh (λ _, Z.of_nat (10 * r + k))) <$> item_shapes three 1.

Definition msg (k r : nat) : worker_msg := WorkerMsg 0 (batch k r) (zeros [1; 2]).

Definition fresh : state := State (init_buffer_items_tensor three) (zeros [3; 2]).

(** Learner 0 is a round ahead.  All three Learners gather and send in
    round 1; Learner 0 receives, updates, and goes through its round 2
    while Learners 1 and 2 have not started to receive.  The result: the
    state of Learner 0 at its updates of round 1 and round 2, the states of
    Learners 1 and 2, and the pipes. *)
Definition slow_peers_run : result (state * state * state * state * ring) :=
  '(s1, p) ← gather_and_send three 1 [msg 1 1] fresh (learners_pipe three);
  '(s2, p) ← gather_and_send three 2 [msg 2 1] fresh p;
  '(a, p) ← gather_and_send three 0 [msg 0 1] fresh p;
  '(a, p) ← receive three 0 a p;
  '(b, p) ← gather_and_send three 0 [msg 0 2] a p;
  '(b, p) ← receive three 0 b p;
  Ok (a, b, s1, s2, p).

(** The round 3 of Learner 0 after that. *)
Definition third_round (b : state) (pipes : ring) : result (state * ring) :=
  '(c, p) ← gather_and_send three 0 [msg 0 3] b pipes;
  receive three 0 c p.

End Race.

(** ** The exchange between Learners, operation by operation *)

Module RingRun.
Import Lockstep.

(** Where a Learner is in the exchange of its round: in the send loop with
    [j] copies sent, or in the receive loop with [j] payloads taken. *)
Inductive phase :=
  | Sending (j : nat)
  | Receiving (j : nat).

(** The Learners and [learners_pipe].  A payload is named by the Learner
    that sent it and the round it was gathered in.  [got k] are the
    payloads Learner [k] has taken in its current round, [history] the
    rounds that are over: Learner, round, payloads in the order of the
    slots. *)
Record sys := Sys {
  phases : nat → phase;
  rounds : nat → nat;
  pipes : nat → list (nat * nat);
  got : nat → list (nat * nat);
  history : list (nat * nat * list (nat * nat));
}.

(** Learner [k] does its next operation on a pipe: a send on its own pipe,
    a receive from the pipe of [_learner_id], or the step from one loop to
    the next (after the receive loop: update, the next gather, and the next
    round).  [None] when the receive blocks.  Nobody raises, and no Learner
    stops. *)
Definition step (num_learners k : nat) (s : sys) : option sys :=
  if k <? num_learners then
    match phases s k with
    | Sending j =>
        if j <? num_learners - 1 then
          Some (Sys (upd (phases s) k (Sending (S j))) (rounds s)
                    (upd (pipes s) k (pipes s k ++ [(k, rounds s k)]))
                    (got s) (history s))
        else
          Some (Sys (upd (phases s) k (Receiving 0)) (rounds s) (pipes s)
                    (got s) (history s))
    | Receiving j =>
        if j <? num_learners - 1 then
          let _learner_id := (k + j + 1) `mod` num_learners in
          match pipes s _learner_id with
          | [] => None
          | m :: q =>
              Some (Sys (upd (phases s) k (Receiving (S j))) (rounds s)
                        (upd (pipes s) _learner_id q)
                        (upd (got s) k (got s k ++ [m])) (history s))
          end
        else
          Some (Sys (upd (phases s) k (Sending 0)) (upd (rounds s) k (S (rounds s k)))
                    (pipes s) (upd (got s) k [])
                    (history s ++ [(k, rounds s k, got s k)]))
    end
  else None.

(** The moves of a schedule, given by the Learner that moves. *)
Fixpoint run (num_learners : nat) (schedule : list nat) (s : sys) : option sys :=
  match schedule with
  | [] => Some s
  | k :: schedule' => s' ← step num_learners k s; run num_learners schedule' s'
  end.

Definition init : sys := Sys (λ _, Sending 0) (λ _, 0) (λ _, []) (λ _, []) [].

(** *** What the proofs count *)

(** How many send loops Learner [k] has run, and how many receive loops
    (of one receive each, between two Learners). *)
Definition sent_count (s : sys) (k : nat) : nat :=
  rounds s k + match phases s k with Sending 0 => 0 | _ => 1 end.

Definition received_count (s : sys) (k : nat) : nat :=
  rounds s k + match phases s k with Receiving (S _) => 1 | _ => 0 end.

Record inv2 (s : sys) : Prop := Inv2 {
  inv2_phase : ∀ k, k < 2 → match phases s k with Sending j | Receiving j => j ≤ 1 end;
  inv2_pipe : ∀ k, k < 2 →
    received_count s (1 - k) ≤ sent_count s k
    ∧ pipes s k = (λ r, (k, r)) <$> seq (received_count s (1 - k))
                                      (sent_count s k - received_count s (1 - k));
  inv2_got : ∀ k, k < 2 →
    got s k = match phases s k with
              | Receiving (S _) => [(1 - k, rounds s k)]
              | _ => []
              end;
  inv2_history : ∀ k r g, (k, r, g) ∈ history s → g = [(1 - k, r)];
}.
End RingRun.

(** * Facts about tensors *)

Module TensorFacts.
Import Tensor.

Lemma teq_refl a : teq a a.
Proof. by split. Qed.

Lemma teq_sym a b : teq a b → teq b a.
Proof.
  intros [Hs Hg]. split; [done|].
  intros idx Hidx. symmetry. apply Hg. by rewrite Hs.
Qed.

Lemma teq_trans a b c : teq a b → teq b c → teq a c.
Proof.
  intros [Hab Gab] [Hbc Gbc]. split; [congruence|].
  intros idx Hidx. rewrite Gab by done. apply Gbc. by rewrite <-Hab.
Qed.

(** An index inside a shape of rank at least two has a time and a column
    component. *)
Lemma in_bounds_cols h n f idx :
  in_bounds (h :: n :: f) idx = true →
  ∃ t c r, idx = t :: c :: r ∧ t < h ∧ c < n ∧ in_bounds f r = true.
Proof.
  destruct idx as [|t [|c r]]; simpl; try done.
  - by rewrite andb_false_r.
  - rewrite !andb_true_iff, !Nat.ltb_lt. intros [? [? ?]]. eauto 10.
Qed.

Lemma slice_axis_cols h n f i j t :
  shape t = h :: n :: f →
  ∃ s, slice_axis 1 i j t = Ok s
       ∧ shape s = h :: (slice_hi j n - slice_lo i n) :: f
       ∧ ∀ k c r, tget s (k :: c :: r) = tget t (k :: (slice_lo i n + c) :: r).
Proof.
  intros Hs. unfold slice_axis. rewrite Hs. simpl. eexists. split; [done|].
  by split.
Qed.

Lemma assign_axis_cols_shape i j buf src :
  shape (assign_axis 1 i j buf src) = shape buf.
Proof. unfold assign_axis. by destruct (shape buf !! 1). Qed.

Lemma assign_axis_cols_get h n f i j buf src k c r :
  shape buf = h :: n :: f →
  tget (assign_axis 1 i j buf src) (k :: c :: r) =
    if (slice_lo i n <=? c) && (c <? slice_hi j n)
    then tget src (k :: (c - slice_lo i n) :: r)
    else tget buf (k :: c :: r).
Proof. intros Hs. unfold assign_axis. by rewrite Hs. Qed.

Lemma cols_hold_assign h n f i j buf src :
  shape buf = h :: n :: f → i ≤ j → j ≤ n →
  shape src = h :: (j - i) :: f →
  cols_hold i j (assign_axis 1 i j buf src) src.
Proof.
  intros Hb Hij Hjn Hsrc.
  destruct (slice_axis_cols h n f i j (assign_axis 1 i j buf src))
    as (s & Hs & Hsh & Hget); [by rewrite assign_axis_cols_shape|].
  exists s. split; [done|]. unfold slice_lo, slice_hi in *.
  split.
  - rewrite Hsh, Hsrc. do 2 f_equal. lia.
  - intros idx Hidx. rewrite Hsh in Hidx.
    apply in_bounds_cols in Hidx as (k & c & r & -> & Hk & Hc & Hr).
    rewrite Hget, (assign_axis_cols_get h n f) by done.
    unfold slice_lo, slice_hi.
    replace ((i `min` n <=? i `min` n + c) && (i `min` n + c <? j `min` n))
      with true.
    + do 3 f_equal. lia.
    + symmetry. apply andb_true_iff. rewrite Nat.leb_le, Nat.ltb_lt. lia.
Qed.

(** A write to columns [i, j) leaves a disjoint column range as it was. *)
Lemma cols_hold_assign_other h n f i j a b buf src x :
  shape buf = h :: n :: f →
  b ≤ i ∨ j ≤ a →
  cols_hold a b buf x →
  cols_hold a b (assign_axis 1 i j buf src) x.
Proof.
  intros Hb Hdisj (s & Hs & Hsh & Hget).
  destruct (slice_axis_cols h n f a b buf Hb) as (s0 & Hs0 & Hsh0 & Hget0).
  assert (s0 = s) as -> by congruence.
  destruct (slice_axis_cols h n f a b (assign_axis 1 i j buf src))
    as (s' & Hs' & Hsh' & Hget'); [by rewrite assign_axis_cols_shape|].
  exists s'. split; [done|]. split; [congruence|].
  intros idx Hidx. rewrite <-Hget by congruence.
  rewrite Hsh' in Hidx.
  apply in_bounds_cols in Hidx as (k & c & r & -> & Hk & Hc & Hr).
  rewrite Hget', Hget0, (assign_axis_cols_get h n f) by done.
  unfold slice_lo, slice_hi in *.
  replace ((i `min` n <=? a `min` n + c) && (a `min` n + c <? j `min` n))
    with false; [done|].
  symmetry. apply andb_false_iff. rewrite Nat.leb_gt, Nat.ltb_ge. lia.
Qed.

End TensorFacts.

(** * The gather step *)

Module LearnerFacts.
Import Tensor TensorFacts Learner.

(** The three branches of [write_segment] on a buffer of shape (1, 2, 3):
    an item of the slice's shape is stored, a longer last dimension is cut,
    another horizon is skipped. *)
Example write_segment_equal_shapes :
  (λ t, (shape t, tget t [0; 1; 2], tget t [0; 0; 2]))
    <$> write_segment 1 1 2 (zeros [1; 2; 3]) (Build [1; 1; 3] (λ _, 7%Z))
  = Ok ([1; 2; 3], 7%Z, 0%Z).
Proof. reflexivity. Qed.

Example write_segment_longer_last_dim :
  (λ t, (shape t, tget t [0; 1; 2]))
    <$> write_segment 1 1 2 (zeros [1; 2; 3]) (Build [1; 1; 5] (λ _, 7%Z))
  = Ok ([1; 2; 3], 7%Z).
Proof. reflexivity. Qed.

Example write_segment_other_horizon :
  (λ t, (shape t, tget t [0; 1; 2]))
    <$> write_segment 1 1 2 (zeros [1; 2; 3]) (Build [4; 1; 3] (λ _, 7%Z))
  = Ok ([1; 2; 3], 0%Z).
Proof. reflexivity. Qed.

Lemma item_shapes_feature_dims args n :
  item_shapes args n = (λ f, horizon_len args :: n :: f) <$> feature_dims args.
Proof. unfold item_shapes, feature_dims. by destruct (if_off_policy args), (if_discrete args). Qed.

Lemma shapes_are_item_shapes args n ts :
  shape <$> ts = item_shapes args n ↔
  shapes_are (horizon_len args) n (feature_dims args) ts.
Proof.
  rewrite item_shapes_feature_dims. unfold shapes_are.
  generalize (feature_dims args) as feats. intros feats. revert feats.
  induction ts as [|t ts IH]; intros [|f feats]; simpl; split; intros H;
    try done; try by inversion H.
  - injection H as H1 H2. constructor; [done|]. by apply IH.
  - inversion H; subst. f_equal; [done|]. by apply IH.
Qed.

(** A tensor of the expected segment shape is assigned as it is. *)
Lemma write_segment_cols_exact h n f i j buf src :
  shape buf = h :: n :: f → i ≤ j → j ≤ n →
  shape src = h :: (j - i) :: f →
  write_segment 1 i j buf src = Ok (assign_axis 1 i j buf src).
Proof.
  intros Hb Hij Hjn Hsrc. unfold write_segment.
  destruct (slice_axis_cols h n f i j buf Hb) as (s & -> & Hsh & _). simpl.
  rewrite decide_True; [done|].
  rewrite Hsh, Hsrc. unfold slice_lo, slice_hi. do 2 f_equal. lia.
Qed.

(** The zip loop on a well-shaped tuple: every tensor of the buffer gets its
    item in columns [i, j), and disjoint column ranges keep what they held. *)
Lemma write_items_exact h n feats i j items tensors :
  shapes_are h n feats tensors → shapes_are h (j - i) feats items →
  i ≤ j → j ≤ n →
  ∃ ts, write_items i j items tensors = Ok ts
        ∧ shapes_are h n feats ts
        ∧ Forall2 (cols_hold i j) ts items
        ∧ ∀ a b xs, b ≤ i ∨ j ≤ a →
            Forall2 (cols_hold a b) tensors xs → Forall2 (cols_hold a b) ts xs.
Proof.
  intros Ht Hi Hij Hjn. revert items Hi.
  induction Ht as [|t f tensors feats Hsh Ht IH]; intros items Hi.
  - inversion Hi; subst. exists []. simpl. repeat split; by try constructor.
  - inversion Hi as [|it f' items' feats' Hit Hi']; subst.
    destruct (IH items' Hi') as (ts & Hw & Hts & Hhold & Hkeep).
    simpl. rewrite (write_segment_cols_exact h n f) by done. simpl.
    rewrite Hw. simpl. eexists. split; [done|]. repeat split.
    + constructor; [by rewrite assign_axis_cols_shape|done].
    + constructor; [by eapply cols_hold_assign|done].
    + intros a b xs Hd Hxs. inversion Hxs; subst.
      constructor; [by eapply cols_hold_assign_other|by apply Hkeep].
Qed.

(** The write of [agent.last_state], a tensor of rank two, never raises. *)
Lemma write_segment_rows_ok i j buf src :
  length (shape buf) = 2 →
  ∃ t, write_segment 0 i j buf src = Ok t ∧ shape t = shape buf.
Proof.
  intros Hlen. destruct (shape buf) as [|n [|d [|? ?]]] eqn:Hs; try done.
  unfold write_segment, slice_axis. rewrite Hs. simpl.
  destruct (decide _) as [_|_].
  - eexists. split; [done|]. unfold assign_axis. by rewrite Hs.
  - destruct (decide _) as [_|_]; [|by eexists].
    unfold assign_axis_trunc. rewrite Hs. simpl. by eexists.
Qed.

(** The gather loop over well-shaped messages of distinct Workers: it ends
    with an empty pipe, each Worker's items sit in the Worker's columns, and
    columns that belong to none of the Workers are kept. *)
Lemma gather_loop_layout args n feats pipe : ∀ st,
  shapes_are (horizon_len args) n feats (buffer_items_tensor st) →
  length (shape (last_state st)) = 2 →
  NoDup (msg_worker_id <$> pipe) →
  (∀ m, m ∈ pipe →
     num_envs args * (msg_worker_id m + 1) ≤ n
     ∧ shapes_are (horizon_len args) (num_envs args) feats (msg_buffer_items m)) →
  ∃ st', gather_loop args (length pipe) pipe st = Ok (st', [])
    ∧ shapes_are (horizon_len args) n feats (buffer_items_tensor st')
    ∧ length (shape (last_state st')) = 2
    ∧ (∀ m, m ∈ pipe →
         Forall2 (cols_hold (worker_range args m).1 (worker_range args m).2)
                 (buffer_items_tensor st') (msg_buffer_items m))
    ∧ (∀ a b xs,
         (∀ m, m ∈ pipe → b ≤ (worker_range args m).1 ∨ (worker_range args m).2 ≤ a) →
         Forall2 (cols_hold a b) (buffer_items_tensor st) xs →
         Forall2 (cols_hold a b) (buffer_items_tensor st') xs).
Proof.
  induction pipe as [|m pipe IH]; intros st Hsh Hls Hnd Hmsgs.
  - exists st. simpl. repeat split; try done. intros m Hm. by inversion Hm.
  - simpl in Hnd. apply NoDup_cons in Hnd as [Hm Hnd].
    destruct (Hmsgs m) as [Hle Hit]; [by left|].
    set (E := num_envs args) in *. set (w := msg_worker_id m) in *.
    destruct (write_items_exact (horizon_len args) n feats (E * w) (E * (w + 1))
                (msg_buffer_items m) (buffer_items_tensor st))
      as (ts & Hw & Hts & Hhold & Hkeep); try done; try lia.
    { by replace (E * (w + 1) - E * w) with E by lia. }
    destruct (write_segment_rows_ok (E * w) (E * (w + 1)) (last_state st)
                (msg_last_state m) Hls) as (ls & Hwl & Hlsh).
    destruct (IH (State ts ls)) as (st' & Hg & Hsh' & Hls' & Hall & Hkeep');
      try done.
    { simpl. congruence. }
    { intros m' Hm'. apply Hmsgs. by right. }
    exists st'. simpl. unfold recv_worker. fold E w. rewrite Hw. simpl.
    rewrite Hwl. simpl. rewrite Hg. split; [done|]. repeat split; try done.
    + intros m' Hm'. apply elem_of_cons in Hm' as [->|Hm']; [|by apply Hall].
      apply Hkeep'; [|done].
      intros m' Hm'. unfold worker_range. simpl. fold E w.
      assert (msg_worker_id m' ≠ w) as Hne.
      { intros Heq. apply Hm. rewrite <-Heq. by apply list_elem_of_fmap_2. }
      destruct (decide (msg_worker_id m' < w)); [right|left]; nia.
    + intros a b xs Hd Hxs. apply Hkeep'.
      * intros m' Hm'. apply Hd. by right.
      * apply Hkeep; [|done]. apply (Hd m). by left.
Qed.

(** The gather step on one message of the expected shapes from each
    Worker, in any order of arrival. *)
Lemma gather_layout args st sent lasts pipe :
  shape <$> buffer_items_tensor st = item_shapes args (num_seqs args) →
  shape (last_state st) = [num_seqs args; state_dim args] →
  1 ≤ num_learners args →
  (∀ i, i < num_workers args →
     shape <$> sent i = item_shapes args (num_envs args)) →
  pipe ≡ₚ (λ i, WorkerMsg i (sent i) (lasts i)) <$> seq 0 (num_workers args) →
  ∃ st', gather args pipe st = Ok (st', [])
    ∧ shape <$> buffer_items_tensor st' = item_shapes args (num_seqs args)
    ∧ (∀ i, i < num_workers args →
         Forall2 (cols_hold (num_envs args * i) (num_envs args * (i + 1)))
                 (buffer_items_tensor st') (sent i))
    ∧ (∀ c, c < num_workers args * num_envs args →
         ∃ i, i < num_workers args
              ∧ num_envs args * i ≤ c < num_envs args * (i + 1)).
Proof.
  intros Hsh Hls HL Hsent Hperm.
  set (mk := λ i, WorkerMsg i (sent i) (lasts i)) in *.
  assert (length pipe = num_workers args) as Hlen.
  { by rewrite Hperm, length_fmap, length_seq. }
  assert (∀ m, m ∈ pipe ↔ ∃ i, m = mk i ∧ i < num_workers args) as Hin.
  { intros m. rewrite Hperm, list_elem_of_fmap.
    setoid_rewrite elem_of_seq. split.
    - intros (i & -> & _ & Hi). eauto.
    - intros (i & -> & Hi). exists i. split; [done|lia]. }
  destruct (gather_loop_layout args (num_seqs args) (feature_dims args) pipe st)
    as (st' & Hg & Hsh' & _ & Hall & _).
  - by apply shapes_are_item_shapes.
  - by rewrite Hls.
  - rewrite Hperm, <-list_fmap_compose.
    change (msg_worker_id ∘ mk) with (@id nat). rewrite list_fmap_id.
    apply NoDup_seq.
  - intros m (i & -> & Hi)%Hin. simpl. split.
    + unfold num_seqs.
      transitivity (num_envs args * num_workers args * 1); [|by apply Nat.mul_le_mono_l].
      rewrite Nat.mul_1_r. apply Nat.mul_le_mono_l. lia.
    + apply shapes_are_item_shapes. by apply Hsent.
  - exists st'. split; [unfold gather; by rewrite <-Hlen|].
    split; [by apply shapes_are_item_shapes|]. split.
    + intros i Hi. apply (Hall (mk i)). apply Hin. eauto.
    + intros c Hc. exists (c `div` num_envs args).
      assert (num_envs args ≠ 0) as HE by lia.
      pose proof (Nat.div_mod c (num_envs args) HE).
      pose proof (Nat.mod_upper_bound c (num_envs args) HE).
      split; [apply Nat.Div0.div_lt_upper_bound|]; lia.
Qed.

(** [C1] Gather places by [worker_id], not by arrival order.  For [W]
    Workers with [E] environments each and any number of Learners, let the
    [W] messages [(i, sent i, lasts i)] of one round arrive in any order
    [pipe], each [sent i] of the shape of a trajectory batch.  Then the
    gather step returns with the pipe emptied, the buffer keeps its shape,
    columns [E*i, E*(i+1)) of every buffer tensor hold exactly what Worker
    [i] sent, and every one of the first [W*E] columns belongs to one such
    range. *)
Theorem gather_places_by_worker_id args st sent lasts pipe :
  shape <$> buffer_items_tensor st = item_shapes args (num_seqs args) →
  shape (last_state st) = [num_seqs args; state_dim args] →
  1 ≤ num_learners args →
  (∀ i, i < num_workers args →
     shape <$> sent i = item_shapes args (num_envs args)) →
  pipe ≡ₚ (λ i, WorkerMsg i (sent i) (lasts i)) <$> seq 0 (num_workers args) →
  ∃ st', gather args pipe st = Ok (st', [])
    ∧ shape <$> buffer_items_tensor st' = item_shapes args (num_seqs args)
    ∧ (∀ i, i < num_workers args →
         Forall2 (cols_hold (num_envs args * i) (num_envs args * (i + 1)))
                 (buffer_items_tensor st') (sent i))
    ∧ (∀ c, c < num_workers args * num_envs args →
         ∃ i, i < num_workers args
              ∧ num_envs args * i ≤ c < num_envs args * (i + 1)).
Proof. apply gather_layout. Qed.

(** The scenario [W = 2, E = 1, H = 4]: Worker 1 reports before Worker 0. *)
Lemma gather_places_by_worker_id_witness :
  let args := Config 2 1 4 3 1 false true 1 0 in
  let sent := λ i, (λ sh, Build sh (λ _, Z.of_nat (S i))) <$> item_shapes args 1 in
  let lasts := λ i : nat, zeros [1; 3] in
  let st := State (init_buffer_items_tensor args) (zeros [2; 3]) in
  ∃ st', gather args [WorkerMsg 1 (sent 1) (lasts 1); WorkerMsg 0 (sent 0) (lasts 0)] st
           = Ok (st', [])
    ∧ Forall2 (cols_hold 0 1) (buffer_items_tensor st') (sent 0)
    ∧ Forall2 (cols_hold 1 2) (buffer_items_tensor st') (sent 1).
Proof.
  intros args sent lasts st.
  destruct (gather_places_by_worker_id args st sent lasts
              [WorkerMsg 1 (sent 1) (lasts 1); WorkerMsg 0 (sent 0) (lasts 0)])
    as (st' & Hg & _ & Hcols & _).
  - reflexivity.
  - reflexivity.
  - simpl. lia.
  - intros i Hi. reflexivity.
  - simpl. apply perm_swap.
  - exists st'. split; [exact Hg|]. split.
    + apply (Hcols 0). simpl. lia.
    + apply (Hcols 1). simpl. lia.
Defined.

End LearnerFacts.

(** * The exchange between Learners *)

Module RingFacts.
Import Tensor TensorFacts Learner LearnerFacts.

Lemma mod_add_inj L me s s' :
  s < L → s' < L → (me + s) `mod` L = (me + s') `mod` L → s = s'.
Proof.
  intros Hs Hs' Heq.
  assert (L ≠ 0) as HL by lia.
  pose proof (Nat.div_mod (me + s) L HL) as H1.
  pose proof (Nat.div_mod (me + s') L HL) as H2.
  pose proof (Nat.mod_upper_bound (me + s) L HL).
  rewrite Heq in H1.
  set (q := (me + s) `div` L) in *. set (q' := (me + s') `div` L) in *.
  set (r := (me + s') `mod` L) in *.
  assert (q = q') by nia. subst. nia.
Qed.

Lemma peer_slot_owner args shift_id :
  peer args shift_id = slot_owner (num_learners args) (learner_id args) (shift_id + 1).
Proof. unfold peer, slot_owner. f_equal. lia. Qed.

Lemma peer_inj args s s' :
  s + 1 < num_learners args → s' + 1 < num_learners args →
  peer args s = peer args s' → s = s'.
Proof.
  intros Hs Hs'. rewrite !peer_slot_owner. unfold slot_owner. intros Heq.
  apply mod_add_inj in Heq; lia.
Qed.

Lemma peer_lt args s : 0 < num_learners args → peer args s < num_learners args.
Proof. intros HL. unfold peer. apply Nat.mod_upper_bound. lia. Qed.

(** The receive loop of one Learner.  If the next payload in the pipe of
    every peer it still has to read is that peer's segment [segs k], the
    loop ends, each such segment sits in the slot of its [shift_id], every
    other column range is kept, and exactly one payload has left each of
    those pipes. *)
Lemma ring_recv_loop_layout args h feats (segs : nat → payload) : ∀ shifts tensors pipes,
  NoDup shifts →
  (∀ s, s ∈ shifts → s + 1 < num_learners args) →
  (∀ s, s ∈ shifts → ∃ q, pipes !! peer args s = Some (segs (peer args s) :: q)) →
  (∀ k, k < num_learners args → shapes_are h (buffer_len args) feats (segs k)) →
  shapes_are h (num_seqs args) feats tensors →
  ∃ ts pipes', ring_recv_loop args shifts tensors pipes = Ok (ts, pipes')
    ∧ shapes_are h (num_seqs args) feats ts
    ∧ (∀ s, s ∈ shifts →
         Forall2 (cols_hold (buffer_len args * (s + 1)) (buffer_len args * (s + 2)))
                 ts (segs (peer args s)))
    ∧ (∀ a b xs,
         (∀ s, s ∈ shifts → b ≤ buffer_len args * (s + 1) ∨ buffer_len args * (s + 2) ≤ a) →
         Forall2 (cols_hold a b) tensors xs → Forall2 (cols_hold a b) ts xs)
    ∧ (∀ k, (∀ s, s ∈ shifts → peer args s ≠ k) → pipes' !! k = pipes !! k)
    ∧ (∀ s, s ∈ shifts → pipes' !! peer args s = tail <$> pipes !! peer args s).
Proof.
  induction shifts as [|s shifts IH]; intros tensors pipes Hnd Hlt Hheads Hsegs Hsh.
  - exists tensors, pipes. simpl. repeat split; try done;
      intros s Hs; by inversion Hs.
  - apply NoDup_cons in Hnd as [Hs Hnd].
    assert (s + 1 < num_learners args) as HsL by (apply Hlt; by left).
    destruct (Hheads s) as [q Hq]; [by left|].
    set (WE := buffer_len args) in *.
    assert (WE * (s + 2) ≤ num_seqs args) as Hle.
    { unfold num_seqs. fold (buffer_len args). fold WE. apply Nat.mul_le_mono_l. lia. }
    destruct (write_items_exact h (num_seqs args) feats (WE * (s + 1)) (WE * (s + 2))
                (segs (peer args s)) tensors)
      as (ts1 & Hw & Hts1 & Hhold & Hkeep); try done; try lia.
    { replace (WE * (s + 2) - WE * (s + 1)) with WE by lia.
      apply Hsegs, peer_lt. lia. }
    assert (∀ s', s' ∈ shifts → peer args s' ≠ peer args s) as Hne.
    { intros s' Hs' Heq. apply peer_inj in Heq; [by subst| |done].
      apply Hlt. by right. }
    destruct (IH ts1 (<[peer args s := q]> pipes))
      as (ts & pipes' & Hloop & Hts & Hall & Hkeep' & Hsame & Hpop); try done.
    { intros s' Hs'. apply Hlt. by right. }
    { intros s' Hs'. destruct (Hheads s') as [q' Hq']; [by right|].
      exists q'. by rewrite list_lookup_insert_ne by (symmetry; by apply Hne). }
    exists ts, pipes'. simpl. fold (peer args s). rewrite Hq.
    unfold buffer_len in WE. fold WE. rewrite Hw. simpl.
    split; [done|]. split; [done|]. repeat split.
    + intros s' [->|Hs']%elem_of_cons; [|by apply Hall].
      apply Hkeep'; [|done]. intros s' Hs'.
      assert (s' ≠ s) by (intros ->; done).
      destruct (decide (s' < s)); [right|left]; nia.
    + intros a b xs Hd Hxs. apply Hkeep'.
      * intros s' Hs'. apply Hd. by right.
      * apply Hkeep; [|done]. apply (Hd s). by left.
    + intros k Hk. rewrite Hsame.
      * apply list_lookup_insert_ne. apply Hk. by left.
      * intros s' Hs'. apply Hk. by right.
    + intros s' [->|Hs']%elem_of_cons.
      * rewrite Hsame by (intros s' Hs'; by apply Hne).
        rewrite list_lookup_insert_eq, Hq; [done|].
        by eapply lookup_lt_Some.
      * rewrite Hpop by done.
        by rewrite list_lookup_insert_ne by (symmetry; by apply Hne).
Qed.

(** The segment a Learner sends holds its first [len] columns. *)
Lemma local_segment_holds h n feats len tensors :
  shapes_are h n feats tensors → len ≤ n →
  ∃ seg, local_segment len tensors = Ok seg
         ∧ shapes_are h len feats seg
         ∧ Forall2 (cols_hold 0 len) tensors seg.
Proof.
  intros Hsh Hlen. induction Hsh as [|t f tensors feats Ht Hsh (seg & IH & Hseg & Hhold)].
  - exists []. simpl. repeat split; constructor.
  - destruct (slice_axis_cols h n f 0 len t Ht) as (s & Hs & Hshape & Hget).
    exists (s :: seg). simpl. rewrite Hs. simpl. rewrite IH. simpl.
    split; [done|]. split.
    + constructor; [|done]. rewrite Hshape. unfold slice_lo, slice_hi.
      do 2 f_equal. lia.
    + constructor; [|done]. exists s. split; [done|apply teq_refl].
Qed.

(** Every Learner owns exactly one slot of every buffer. *)
Lemma slot_owner_bijective L me k :
  k < L →
  ∃ slot, slot < L ∧ slot_owner L me slot = k
          ∧ ∀ slot', slot' < L → slot_owner L me slot' = k → slot' = slot.
Proof.
  intros Hk. assert (L ≠ 0) as HL by lia.
  exists ((k + (L - me `mod` L)) `mod` L).
  assert (slot_owner L me ((k + (L - me `mod` L)) `mod` L) = k) as Hown.
  { unfold slot_owner. rewrite Nat.Div0.add_mod_idemp_r.
    rewrite <-Nat.Div0.add_mod_idemp_l.
    pose proof (Nat.mod_upper_bound me L HL).
    replace (me `mod` L + (k + (L - me `mod` L))) with (k + 1 * L) by lia.
    rewrite Nat.Div0.mod_add. by apply Nat.mod_small. }
  split; [by apply Nat.mod_upper_bound|]. split; [done|].
  intros slot' Hslot' Heq. unfold slot_owner in *.
  eapply mod_add_inj; [done|by apply Nat.mod_upper_bound|]. by rewrite Heq, Hown.
Qed.

(** The exchange as one Learner sees it: if the next payload in the pipe of
    each peer is that peer's segment, then after the receive loop slot
    [slot] of every buffer tensor holds the segment of Learner
    [slot_owner L me slot], for all [L] slots. *)
Lemma ring_recv_layout args tensors pipes (segs : nat → payload) :
  1 ≤ num_learners args →
  learner_id args < num_learners args →
  shape <$> tensors = item_shapes args (num_seqs args) →
  (∀ k, k < num_learners args → shape <$> segs k = item_shapes args (buffer_len args)) →
  local_segment (buffer_len args) tensors = Ok (segs (learner_id args)) →
  (∀ k, k < num_learners args → k ≠ learner_id args →
     ∃ q, pipes !! k = Some (segs k :: q)) →
  ∃ ts pipes', ring_recv args tensors pipes = Ok (ts, pipes')
    ∧ shape <$> ts = item_shapes args (num_seqs args)
    ∧ (∀ slot, slot < num_learners args →
         Forall2 (cols_hold (buffer_len args * slot) (buffer_len args * (slot + 1)))
                 ts (segs (slot_owner (num_learners args) (learner_id args) slot)))
    ∧ (∀ a b xs, b ≤ buffer_len args →
         Forall2 (cols_hold a b) tensors xs → Forall2 (cols_hold a b) ts xs)
    ∧ pipes' !! learner_id args = pipes !! learner_id args
    ∧ (∀ k, k < num_learners args → k ≠ learner_id args →
         pipes' !! k = tail <$> pipes !! k).
Proof.
  intros HL Hme Hsh Hsegs Hown Hheads.
  set (L := num_learners args) in *. set (me := learner_id args) in *.
  assert (∀ s, s ∈ seq 0 (num_communications args) → s + 1 < L) as Hshift.
  { intros s Hs%elem_of_seq. unfold num_communications in Hs. fold L in Hs. lia. }
  assert (∀ s, s + 1 < L → peer args s ≠ me) as Hpeer_ne.
  { intros s Hs. rewrite peer_slot_owner. fold L me. intros Heq.
    destruct (slot_owner_bijective L me me Hme) as (slot & _ & _ & Huniq).
    pose proof (Huniq (s + 1) Hs Heq) as H1.
    assert (slot_owner L me 0 = me) as H0.
    { unfold slot_owner. rewrite Nat.add_0_r. by apply Nat.mod_small. }
    pose proof (Huniq 0 ltac:(lia) H0) as H2. lia. }
  destruct (ring_recv_loop_layout args (horizon_len args) (feature_dims args) segs
              (seq 0 (num_communications args)) tensors pipes)
    as (ts & pipes' & Hloop & Hts & Hall & Hkeep & Hsame & Hpop).
  - apply NoDup_seq.
  - done.
  - intros s Hs. apply Hheads; [apply peer_lt; fold L; lia|].
    apply Hpeer_ne. by apply Hshift.
  - intros k Hk. apply shapes_are_item_shapes. by apply Hsegs.
  - by apply shapes_are_item_shapes.
  - exists ts, pipes'. split; [done|]. split; [by apply shapes_are_item_shapes|].
    assert (∀ a b xs, b ≤ buffer_len args →
              Forall2 (cols_hold a b) tensors xs → Forall2 (cols_hold a b) ts xs) as Hlow.
    { intros a b xs Hb. apply Hkeep. intros s _. left. nia. }
    repeat split.
    + intros slot Hslot. destruct slot as [|s].
      * replace (slot_owner L me 0) with me
          by (unfold slot_owner; rewrite Nat.add_0_r; symmetry; by apply Nat.mod_small).
        rewrite Nat.mul_0_r, Nat.mul_1_r. apply Hlow; [done|].
        destruct (local_segment_holds (horizon_len args) (num_seqs args)
                    (feature_dims args) (buffer_len args) tensors)
          as (seg & Hseg & _ & Hhold).
        { by apply shapes_are_item_shapes. }
        { unfold num_seqs, buffer_len. fold L. nia. }
        congruence.
      * replace (S s) with (s + 1) by lia. unfold L, me. rewrite <-peer_slot_owner.
        replace (s + 1 + 1) with (s + 2) by lia. apply Hall.
        apply elem_of_seq. unfold num_communications. fold L. lia.
    + done.
    + apply Hsame. intros s Hs. apply Hpeer_ne. by apply Hshift.
    + intros k Hk Hne.
      destruct (slot_owner_bijective L me k Hk) as (slot & Hslot & Hk' & _).
      destruct slot as [|s].
      { exfalso. apply Hne. rewrite <-Hk'. unfold slot_owner.
        rewrite Nat.add_0_r. by apply Nat.mod_small. }
      replace (S s) with (s + 1) in Hk' by lia. unfold L, me in Hk'.
      rewrite <-peer_slot_owner in Hk'. rewrite <-Hk'. apply Hpop.
      apply elem_of_seq. unfold num_communications. fold L. lia.
Qed.

Lemma segment_of_spec args tensors :
  1 ≤ num_learners args →
  shape <$> tensors = item_shapes args (num_seqs args) →
  local_segment (buffer_len args) tensors = Ok (segment_of (buffer_len args) tensors)
  ∧ shape <$> segment_of (buffer_len args) tensors = item_shapes args (buffer_len args).
Proof.
  intros HL Hsh.
  destruct (local_segment_holds (horizon_len args) (num_seqs args)
              (feature_dims args) (buffer_len args) tensors)
    as (seg & Hseg & Hshape & _).
  - by apply shapes_are_item_shapes.
  - unfold num_seqs, buffer_len. nia.
  - unfold segment_of. rewrite Hseg. split; [done|]. by apply shapes_are_item_shapes.
Qed.

Lemma ring_send_ok args tensors pipes q :
  2 ≤ num_learners args →
  shape <$> tensors = item_shapes args (num_seqs args) →
  pipes !! learner_id args = Some q →
  ring_send args tensors pipes =
    Ok (<[learner_id args :=
            q ++ replicate (num_learners args - 1) (segment_of (buffer_len args) tensors)]> pipes).
Proof.
  intros HL Hsh Hq. unfold ring_send.
  destruct (segment_of_spec args tensors) as [-> _]; [lia|done|]. simpl.
  unfold num_communications. rewrite Hq.
  by destruct (num_learners args - 1) eqn:?; [lia|].
Qed.

(** After the send loops of the Learners in [ks], the pipe of each holds
    [L - 1] copies of its segment. *)
Lemma send_all_spec args locals : ∀ ks pipes,
  2 ≤ num_learners args →
  (∀ k, k < num_learners args → shape <$> locals k = item_shapes args (num_seqs args)) →
  NoDup ks →
  (∀ k, k ∈ ks → k < num_learners args ∧ pipes !! k = Some []) →
  ∃ pipes', send_all args ks locals pipes = Ok pipes'
    ∧ (∀ k, k ∈ ks →
         pipes' !! k = Some (replicate (num_learners args - 1)
                                       (segment_of (buffer_len args) (locals k))))
    ∧ (∀ k, k ∉ ks → pipes' !! k = pipes !! k).
Proof.
  intros ks pipes HL Hsh. revert pipes.
  induction ks as [|k ks IH]; intros pipes Hnd Hks.
  - exists pipes. simpl. split; [done|]. split; [|done]. intros k Hk. by inversion Hk.
  - apply NoDup_cons in Hnd as [Hk Hnd].
    destruct (Hks k) as [HkL Hq]; [by left|].
    destruct (IH (<[k := replicate (num_learners args - 1)
                          (segment_of (buffer_len args) (locals k))]> pipes))
      as (pipes' & Hsend & Hin & Hout); [done| |].
    { intros k' Hk'. destruct (Hks k') as [? ?]; [by right|]. split; [done|].
      rewrite list_lookup_insert_ne; [done|]. by intros ->. }
    exists pipes'. simpl.
    rewrite (ring_send_ok (learner_args args k) (locals k) pipes []);
      [|done|by apply Hsh|done].
    simpl. split; [done|]. split.
    + intros k' [->|Hk']%elem_of_cons; [|by apply Hin].
      rewrite Hout by done. apply list_lookup_insert_eq. by eapply lookup_lt_Some.
    + intros k' Hk'%not_elem_of_cons. destruct Hk' as [Hne Hk'].
      rewrite Hout by done. by apply list_lookup_insert_ne.
Qed.

Lemma NoDup_bounded_length (l : list nat) L :
  NoDup l → (∀ x, x ∈ l → x < L) → length l ≤ L.
Proof.
  intros Hnd Hlt. transitivity (length (seq 0 L)); [|by rewrite length_seq].
  apply submseteq_length.
  apply NoDup_submseteq; [done|]. intros x Hx. apply elem_of_seq.
  specialize (Hlt x Hx). lia.
Qed.

Lemma reads_cons j done k :
  reads (j :: done) k = if decide (j = k) then reads done k else S (reads done k).
Proof.
  unfold reads. rewrite filter_cons. destruct (decide (j = k)) as [->|Hne].
  - by rewrite decide_False by (intros H; by apply H).
  - by rewrite decide_True.
Qed.

(** While Learner [me] has not received, every other pipe still holds a
    payload for it. *)
Lemma reads_pending L done me k :
  NoDup done → (∀ x, x ∈ done → x < L) →
  me ∉ done → me < L → k < L → k ≠ me →
  reads done k + 2 ≤ L.
Proof.
  intros Hnd Hlt Hme HmeL HkL Hne.
  pose proof (NoDup_bounded_length (me :: k :: filter (λ j, j ≠ k) done) L) as H.
  simpl in H. unfold reads. cut (S (S (length (filter (λ j, j ≠ k) done))) ≤ L); [lia|].
  apply H.
  - apply NoDup_cons. split.
    + intros [?|[_ Hin]%list_elem_of_filter]%elem_of_cons; [by subst|done].
    + apply NoDup_cons. split; [|by apply NoDup_filter].
      by intros [? _]%list_elem_of_filter.
  - intros x [->|[->|[_ Hin]%list_elem_of_filter]%elem_of_cons]%elem_of_cons;
      [done|done|by apply Hlt].
Qed.

Lemma reads_notin l k : k ∉ l → reads l k = length l.
Proof.
  induction l as [|j l IH]; intros Hk; [done|].
  apply not_elem_of_cons in Hk as [Hne Hk]. rewrite reads_cons.
  rewrite decide_False by done. simpl. by rewrite IH.
Qed.

Lemma reads_all l k : NoDup l → k ∈ l → reads l k + 1 = length l.
Proof.
  induction l as [|j l IH]; intros Hnd Hk; [by inversion Hk|].
  apply NoDup_cons in Hnd as [Hj Hnd]. rewrite reads_cons. simpl.
  destruct (decide (j = k)) as [->|Hne].
  - rewrite reads_notin by done. lia.
  - apply elem_of_cons in Hk as [->|Hk]; [done|]. rewrite <-IH by done. lia.
Qed.

(** The receive loops of the Learners in [ks], after those in [done]: none
    blocks, and each ends with the segment of Learner [slot_owner L me slot]
    in slot [slot], for all [L] slots. *)
Lemma recv_all_spec args locals :
  2 ≤ num_learners args →
  (∀ k, k < num_learners args → shape <$> locals k = item_shapes args (num_seqs args)) →
  ∀ ks done pipes,
  NoDup (ks ++ done) →
  (∀ k, k ∈ ks ++ done → k < num_learners args) →
  (∀ k, k < num_learners args →
     pipes !! k = Some (replicate (num_learners args - 1 - reads done k)
                                  (segment_of (buffer_len args) (locals k)))) →
  ∃ bufs pipes', recv_all args ks locals pipes = Ok (bufs, pipes')
    ∧ bufs.*1 = ks
    ∧ (∀ me ts, (me, ts) ∈ bufs →
         shape <$> ts = item_shapes args (num_seqs args)
         ∧ ∀ slot, slot < num_learners args →
             Forall2 (cols_hold (buffer_len args * slot) (buffer_len args * (slot + 1)))
                     ts (segment_of (buffer_len args)
                           (locals (slot_owner (num_learners args) me slot))))
    ∧ (∀ k, k < num_learners args →
         pipes' !! k = Some (replicate (num_learners args - 1 - reads (reverse ks ++ done) k)
                                       (segment_of (buffer_len args) (locals k)))).
Proof.
  intros HL Hsh. set (segs := λ k, segment_of (buffer_len args) (locals k)).
  induction ks as [|k0 ks IH]; intros done pipes Hnd Hlt Hpipes.
  - exists [], pipes. simpl. split; [done|]. split; [done|]. split; [|done].
    intros ? ? Hin. by inversion Hin.
  - simpl in Hnd. pose proof Hnd as Hnd0. apply NoDup_cons in Hnd0 as [Hk0 Hnd1].
    assert (k0 < num_learners args) as Hk0L by (apply Hlt; by left).
    assert (k0 ∉ done) as Hk0d by (intros ?; apply Hk0, elem_of_app; by right).
    assert (NoDup done) as Hndd by (by apply NoDup_app in Hnd1 as (_ & _ & ?)).
    assert (∀ x, x ∈ done → x < num_learners args) as Hltd.
    { intros x Hx. apply Hlt. right. apply elem_of_app. by right. }
    assert (∀ k, k < num_learners args → k ≠ k0 →
              reads done k + 2 ≤ num_learners args) as Hpend.
    { intros k Hk Hne. by apply (reads_pending _ done k0 k). }
    destruct (ring_recv_layout (learner_args args k0) (locals k0) pipes segs)
      as (ts & pipes1 & Hrecv & Hts & Hslots & _ & Hown & Hpop); simpl.
    + lia.
    + done.
    + by apply Hsh.
    + intros k Hk.
      destruct (segment_of_spec args (locals k)) as [_ H]; [lia|by apply Hsh|exact H].
    + destruct (segment_of_spec args (locals k0)) as [H _]; [lia|by apply Hsh|exact H].
    + intros k Hk Hne. rewrite Hpipes by done.
      specialize (Hpend k Hk Hne).
      destruct (num_learners args - 1 - reads done k) as [|n] eqn:Hn; [lia|].
      by eexists.
    + simpl in *. destruct (IH (k0 :: done) pipes1)
        as (bufs & pipes' & Hall & Hkeys & Hbufs & Hfinal).
      * by rewrite <-Permutation_middle.
      * intros k Hk. apply Hlt. by rewrite <-Permutation_middle in Hk.
      * intros k Hk. rewrite reads_cons. destruct (decide (k0 = k)) as [->|Hne].
        -- rewrite Hown. by apply Hpipes.
        -- rewrite Hpop, Hpipes by done. simpl. f_equal.
           assert (k ≠ k0) as Hne' by done. specialize (Hpend k Hk Hne').
           replace (num_learners args - 1 - reads done k)
             with (S (num_learners args - 1 - S (reads done k))) by lia.
           done.
      * exists ((k0, ts) :: bufs), pipes'. rewrite Hrecv. simpl. rewrite Hall. simpl.
        split; [done|]. split; [f_equal; exact Hkeys|]. split.
        -- intros me ts' [[= -> ->]|Hin]%elem_of_cons; [|by apply Hbufs].
           split; [done|]. apply Hslots.
        -- intros k Hk. rewrite reverse_cons, <-app_assoc. simpl. by apply Hfinal.
Qed.

(** The exchange is all-to-all in a round that a barrier holds together.
    For [L >= 2] Learners whose buffers have the shapes of the
    configuration, let the pipes be empty, the send loops run in any order
    and, after all of them, the receive loops in any order.  Then no receive
    blocks, every pipe ends empty, and every Learner [me] ends with a buffer
    of [L] slots of [W*E] columns in which slot [slot] holds the local
    segment of Learner [slot_owner L me slot]; each of the [L] Learners owns
    exactly one slot, so every segment is there once: none twice, none
    missing.  Without the barrier this fails for three Learners, see
    [RaceFacts.stale_segments_after_exchange]. *)
Theorem exchange_all_to_all args locals send_order recv_order :
  2 ≤ num_learners args →
  (∀ k, k < num_learners args → shape <$> locals k = item_shapes args (num_seqs args)) →
  send_order ≡ₚ seq 0 (num_learners args) →
  recv_order ≡ₚ seq 0 (num_learners args) →
  ∃ bufs pipes', exchange args send_order recv_order locals = Ok (bufs, pipes')
    ∧ bufs.*1 = recv_order
    ∧ (∀ k, k < num_learners args → pipes' !! k = Some [])
    ∧ (∀ me ts, (me, ts) ∈ bufs →
         shape <$> ts = item_shapes args (num_seqs args)
         ∧ ∀ slot, slot < num_learners args →
             Forall2 (cols_hold (buffer_len args * slot) (buffer_len args * (slot + 1)))
                     ts (segment_of (buffer_len args)
                           (locals (slot_owner (num_learners args) me slot))))
    ∧ (∀ me k, k < num_learners args →
         ∃ slot, slot < num_learners args
                 ∧ slot_owner (num_learners args) me slot = k
                 ∧ ∀ slot', slot' < num_learners args →
                     slot_owner (num_learners args) me slot' = k → slot' = slot).
Proof.
  intros HL Hsh Hsend Hrecv.
  assert (∀ ks k, ks ≡ₚ seq 0 (num_learners args) → k ∈ ks ↔ k < num_learners args) as Hin.
  { intros ks k ->. rewrite elem_of_seq. lia. }
  assert (∀ ks, ks ≡ₚ seq 0 (num_learners args) → NoDup ks) as Hnd.
  { intros ks ->. apply NoDup_seq. }
  destruct (send_all_spec args locals send_order (learners_pipe args))
    as (pipes1 & Hs & Hfull & _); [done|done|by apply Hnd| |].
  { intros k Hk%Hin; [|done]. split; [done|]. by apply lookup_replicate_2. }
  destruct (recv_all_spec args locals HL Hsh recv_order [] pipes1)
    as (bufs & pipes' & Hr & Hkeys & Hbufs & Hfinal).
  - rewrite app_nil_r. by apply Hnd.
  - intros k. rewrite app_nil_r. by apply Hin.
  - intros k Hk. unfold reads. simpl. rewrite Nat.sub_0_r. apply Hfull. by apply Hin.
  - exists bufs, pipes'. unfold exchange. rewrite Hs. simpl.
    split; [done|]. split; [done|]. split; [|split; [done|]].
    + intros k Hk. rewrite Hfinal by done. rewrite app_nil_r.
      assert (length recv_order = num_learners args) as Hlen
        by (by rewrite Hrecv, length_seq).
      pose proof (reads_all (reverse recv_order) k) as Hall.
      rewrite length_reverse, Hlen in Hall.
      rewrite <-Hall; [by replace (_ - _) with 0 by lia|..].
      * rewrite reverse_Permutation. by apply Hnd.
      * rewrite elem_of_reverse. by apply Hin.
    + intros me k Hk. by apply slot_owner_bijective.
Qed.

(** Three Learners with one Worker and one environment each. *)
Lemma exchange_all_to_all_witness :
  let args := Config 1 1 1 2 1 true true 3 0 in
  let locals := λ k, (λ sh, Build sh (λ _, Z.of_nat (S k))) <$> item_shapes args 3 in
  ∃ bufs pipes', exchange args [2; 0; 1] [1; 2; 0] locals = Ok (bufs, pipes')
    ∧ bufs.*1 = [1; 2; 0]
    ∧ ∀ me ts, (me, ts) ∈ bufs → ∀ slot, slot < 3 →
        Forall2 (cols_hold slot (slot + 1)) ts
                (segment_of 1 (locals (slot_owner 3 me slot))).
Proof.
  intros args locals.
  destruct (exchange_all_to_all args locals [2; 0; 1] [1; 2; 0])
    as (bufs & pipes' & Hx & Hkeys & _ & Hbufs & _).
  - simpl. lia.
  - intros k Hk. reflexivity.
  - simpl. solve_Permutation.
  - simpl. solve_Permutation.
  - exists bufs, pipes'. split; [exact Hx|]. split; [exact Hkeys|].
    intros me ts Hin slot Hslot.
    destruct (Hbufs me ts Hin) as [_ Hslots].
    specialize (Hslots slot Hslot). simpl in Hslots.
    by rewrite !Nat.add_0_r in Hslots.
Defined.

End RingFacts.

(** * Payloads of an unexpected shape, and what reaches the update *)

Module RoundFacts.
Import Tensor TensorFacts Learner LearnerFacts RingFacts.

(** [C6] What the Learner does with a tensor whose shape is not that of the
    target slice [buf[:, i:j]], for a buffer tensor with trailing dimensions
    ([f] not empty) or a source that differs in more than its last
    dimension: no exception is raised.  If rank and leading dimensions
    agree, the first [min_dim] entries of the last dimension are copied into
    the slice and everything else is kept; otherwise the buffer tensor is
    left as it is. *)
Theorem write_segment_shape_mismatch h n f i j buf item :
  shape buf = h :: n :: f →
  shape item ≠ h :: (slice_hi j n - slice_lo i n) :: f →
  f ≠ [] ∨ ¬ (length (shape item) = S (S (length f))
              ∧ removelast (shape item)
                = removelast (h :: (slice_hi j n - slice_lo i n) :: f)) →
  ∃ t, write_segment 1 i j buf item = Ok t
    ∧ shape t = shape buf
    ∧ ((length (shape item) = S (S (length f))
        ∧ removelast (shape item)
          = removelast (h :: (slice_hi j n - slice_lo i n) :: f)) →
       ∀ k c r d, last r = Some d →
         tget t (k :: c :: r) =
           if (slice_lo i n <=? c) && (c <? slice_hi j n)
              && (d <? List.last (shape item) 0
                       `min` List.last (h :: (slice_hi j n - slice_lo i n) :: f) 0)
           then tget item (k :: (c - slice_lo i n) :: r)
           else tget buf (k :: c :: r))
    ∧ (¬ (length (shape item) = S (S (length f))
          ∧ removelast (shape item)
            = removelast (h :: (slice_hi j n - slice_lo i n) :: f)) →
       t = buf).
Proof.
  intros Hb Hne Hcase. unfold write_segment.
  destruct (slice_axis_cols h n f i j buf Hb) as (s & -> & Hsh & _). simpl.
  rewrite Hsh. rewrite decide_False by done. simpl length.
  destruct (decide _) as [Hlead|Hlead].
  - destruct Hcase as [Hf|Hcase]; [|done].
    unfold assign_axis_trunc. rewrite Hb. simpl.
    destruct f as [|d0 f]; [done|]. simpl.
    eexists. split; [done|]. split; [done|]. split; [|done].
    intros _ k c r d Hd. simpl.
    destruct r as [|r0 r]; [done|]. rewrite !last_cons_cons, Hd. done.
  - exists buf. split; [done|]. split; [done|]. split; [done|]. done.
Qed.

(** States of dimension 4 arrive where the buffer has dimension 3. *)
Lemma write_segment_shape_mismatch_witness :
  ∃ t, write_segment 1 0 1 (zeros [1; 1; 3])
                     (Build [1; 1; 4] (λ idx, Z.of_nat (S (List.last idx 0)))) = Ok t
    ∧ shape t = [1; 1; 3]
    ∧ tget t [0; 0; 2] = 3%Z.
Proof.
  destruct (write_segment_shape_mismatch 1 1 [3] 0 1 (zeros [1; 1; 3])
              (Build [1; 1; 4] (λ idx, Z.of_nat (S (List.last idx 0)))))
    as (t & Hw & Hsh & Hcopy & _).
  - reflexivity.
  - simpl. discriminate.
  - left. discriminate.
  - exists t. split; [exact Hw|]. split; [exact Hsh|].
    rewrite (Hcopy (conj eq_refl eq_refl) 0 0 [2] 2 eq_refl). reflexivity.
Defined.

(** [C6], as stated, fails: Worker 0 sends states of dimension 4 to a
    Learner whose buffer has [state_dim = 3].  The gather step raises
    nothing; of each state [(1, 2, 3, 4)] it stores [(1, 2, 3)] and drops the
    fourth number. *)
Lemma shape_mismatch_is_truncated :
  let args := Config 1 1 1 3 1 false true 1 0 in
  let st := State (init_buffer_items_tensor args) (zeros [1; 3]) in
  let states := Build [1; 1; 4] (λ idx, Z.of_nat (S (List.last idx 0))) in
  let items := states :: (zeros <$> [[1; 1; 1]; [1; 1]; [1; 1]; [1; 1]]) in
  shape states ≠ [horizon_len args; num_envs args; state_dim args]
  ∧ ∃ st' t, gather args [WorkerMsg 0 items (zeros [1; 3])] st = Ok (st', [])
      ∧ buffer_items_tensor st' !! 0 = Some t
      ∧ shape t = [1; 1; 3]
      ∧ tget t [0; 0; 0] = 1%Z ∧ tget t [0; 0; 1] = 2%Z ∧ tget t [0; 0; 2] = 3%Z.
Proof.
  simpl. split; [discriminate|]. eexists _, _. vm_compute. repeat split.
Qed.

(** A rank-two tensor (rewards, flags) with the wrong number of columns
    takes the truncating branch, whose index names three dimensions:
    [IndexError]. *)
Lemma flat_mismatch_raises_IndexError :
  write_segment 1 0 1 (zeros [1; 1]) (zeros [1; 2]) = Raise IndexError.
Proof. reflexivity. Qed.

(** The send loop leaves the pipes of the other Learners as they are. *)
Lemma ring_send_others args tensors pipes :
  1 ≤ num_learners args →
  shape <$> tensors = item_shapes args (num_seqs args) →
  num_learners args = 1 ∨ is_Some (pipes !! learner_id args) →
  ∃ pipes1, ring_send args tensors pipes = Ok pipes1
    ∧ ∀ k, k ≠ learner_id args → pipes1 !! k = pipes !! k.
Proof.
  intros HL Hsh Hpipe. unfold ring_send.
  destruct (segment_of_spec args tensors HL Hsh) as [-> _]. simpl.
  unfold num_communications.
  destruct (num_learners args - 1) as [|c] eqn:Hc; [by eexists|].
  destruct Hpipe as [?|[q Hq]]; [lia|]. rewrite Hq. eexists. split; [done|].
  intros k Hk. by apply list_lookup_insert_ne.
Qed.

(** [C8] What reaches the update when every payload of the round has the
    expected shape: one message from each Worker, in any order, and at the
    head of each peer's pipe that peer's segment.  The round gets to the
    update call with all its receives done, and the buffer it hands over
    has the shapes of the configuration, holds in columns [E*i, E*(i+1))
    what Worker [i] sent and in slot [slot] the segment of the peer that
    owns the slot. *)
Theorem update_gets_populated_buffer args st sent lasts recv_pipe pipes segs :
  shape <$> buffer_items_tensor st = item_shapes args (num_seqs args) →
  shape (last_state st) = [num_seqs args; state_dim args] →
  1 ≤ num_workers args →
  1 ≤ num_learners args →
  learner_id args < num_learners args →
  (∀ i, i < num_workers args →
     shape <$> sent i = item_shapes args (num_envs args)) →
  recv_pipe ≡ₚ (λ i, WorkerMsg i (sent i) (lasts i)) <$> seq 0 (num_workers args) →
  num_learners args = 1 ∨ is_Some (pipes !! learner_id args) →
  (∀ k, k < num_learners args → k ≠ learner_id args →
     shape <$> segs k = item_shapes args (buffer_len args)
     ∧ ∃ q, pipes !! k = Some (segs k :: q)) →
  ∃ r, round_to_update args recv_pipe pipes st = Ok r
    ∧ recv_pipe_after r = []
    ∧ shape <$> handed_to_update r = item_shapes args (num_seqs args)
    ∧ (∀ i, i < num_workers args →
         Forall2 (cols_hold (num_envs args * i) (num_envs args * (i + 1)))
                 (handed_to_update r) (sent i))
    ∧ (∀ slot, 0 < slot < num_learners args →
         Forall2 (cols_hold (buffer_len args * slot) (buffer_len args * (slot + 1)))
                 (handed_to_update r)
                 (segs (slot_owner (num_learners args) (learner_id args) slot))).
Proof.
  intros Hsh Hls HW HL Hme Hsent Hperm Hown Hpeers.
  destruct (gather_layout args st sent lasts recv_pipe)
    as (st1 & Hg & Hsh1 & Hcols & _); try done.
  destruct (ring_send_others args (buffer_items_tensor st1) pipes)
    as (pipes1 & Hs & Hothers); try done.
  set (me := learner_id args) in *.
  set (segs' := λ k, if decide (k = me)
                     then segment_of (buffer_len args) (buffer_items_tensor st1)
                     else segs k).
  destruct (ring_recv_layout args (buffer_items_tensor st1) pipes1 segs')
    as (ts & pipes2 & Hr & Hts & Hslots & Hlow & _); try done.
  - intros k Hk. unfold segs'. destruct (decide (k = me)) as [->|Hne].
    + by apply segment_of_spec.
    + by apply Hpeers.
  - unfold segs'. rewrite decide_True by done. by apply segment_of_spec.
  - intros k Hk Hne. unfold segs'. rewrite decide_False by done.
    rewrite Hothers by done. by apply Hpeers.
  - eexists. unfold round_to_update. rewrite Hg. simpl.
    destruct (num_workers args =? 0) eqn:HW0; [apply Nat.eqb_eq in HW0; lia|].
    simpl. rewrite Hs. simpl.
    rewrite Hr. simpl. split; [done|]. simpl. split; [done|]. split; [done|].
    split.
    + intros i Hi. apply Hlow; [|by apply Hcols].
      unfold buffer_len. apply Nat.mul_le_mono_l. lia.
    + intros slot [Hpos Hslot]. specialize (Hslots slot Hslot).
      unfold segs' in Hslots. rewrite decide_False in Hslots; [done|].
      intros Heq. fold me in Heq.
      destruct (slot_owner_bijective (num_learners args) me me Hme)
        as (slot0 & _ & _ & Huniq).
      assert (slot_owner (num_learners args) me 0 = me) as H0.
      { unfold slot_owner. rewrite Nat.add_0_r. by apply Nat.mod_small. }
      pose proof (Huniq 0 ltac:(lia) H0). pose proof (Huniq slot Hslot Heq). lia.
Qed.

(** Learner 0 of two, with one Worker; the segment of Learner 1 waits in
    its pipe. *)
Lemma update_gets_populated_buffer_witness :
  let args := Config 1 1 1 2 1 true true 2 0 in
  let st := State (init_buffer_items_tensor args) (zeros [2; 2]) in
  let sent := λ _ : nat, (λ sh, Build sh (λ _, 5%Z)) <$> item_shapes args 1 in
  let seg1 := (λ sh, Build sh (λ _, 9%Z)) <$> item_shapes args 1 in
  ∃ r, round_to_update args [WorkerMsg 0 (sent 0) (zeros [1; 2])] [[]; [seg1]] st = Ok r
    ∧ Forall2 (cols_hold 0 1) (handed_to_update r) (sent 0)
    ∧ Forall2 (cols_hold 1 2) (handed_to_update r) seg1.
Proof.
  intros args st sent seg1.
  destruct (update_gets_populated_buffer args st sent (λ _, zeros [1; 2])
              [WorkerMsg 0 (sent 0) (zeros [1; 2])] [[]; [seg1]] (λ _, seg1))
    as (r & Hr & _ & _ & Hworkers & Hpeers).
  - reflexivity.
  - reflexivity.
  - simpl. lia.
  - simpl. lia.
  - simpl. lia.
  - intros i Hi. reflexivity.
  - reflexivity.
  - right. by eexists.
  - intros k Hk Hne. simpl in Hk, Hne.
    destruct k as [|[|k]]; [done| |lia]. split; [reflexivity|]. by eexists.
  - exists r. split; [exact Hr|]. split.
    + apply (Hworkers 0). simpl. lia.
    + apply (Hpeers 1). simpl. lia.
Defined.

(** [C8], as stated, fails: the only Worker sends a batch of two time steps
    to a Learner whose horizon is one.  Every write is skipped, and the
    update is handed the buffer as it was allocated: the Worker's columns
    do not hold what it sent. *)
Lemma update_gets_unwritten_buffer :
  let args := Config 1 1 1 3 1 false true 1 0 in
  let st := State (init_buffer_items_tensor args) (zeros [1; 3]) in
  let items := (λ sh, Build sh (λ _, 7%Z))
                 <$> [[2; 1; 3]; [2; 1; 1]; [2; 1]; [2; 1]; [2; 1]] in
  ∃ r, round_to_update args [WorkerMsg 0 items (zeros [1; 3])] [] st = Ok r
    ∧ handed_to_update r = init_buffer_items_tensor args
    ∧ ¬ Forall2 (cols_hold 0 1) (handed_to_update r) items.
Proof.
  simpl. eexists. split; [reflexivity|]. split; [reflexivity|].
  intros H. inversion H as [|? ? ? ? (s & Hs & Hshape & _) _]; subst.
  injection Hs as <-. discriminate Hshape.
Qed.

End RoundFacts.

(** * The Worker loop *)

Module WorkerFacts.
Import Tensor Learner Worker.

Example worker_loop_run :
  (worker_loop demo_explore demo_last_state 3 [Some 7; None; Some 8] 0).2 = Exited
  ∧ msg_worker_id
      <$> sends (worker_loop demo_explore demo_last_state 3 [Some 7; None; Some 8] 0).1
    = [3].
Proof. split; reflexivity. Qed.

Section Run.
Context {actor wstate : Type}.
Variable explore_env : actor → wstate → option (list tensor * wstate).
Variable agent_last_state : wstate → tensor.

Local Abbreviation worker_loop := (worker_loop explore_env agent_last_state).

(** Unless [explore_env] raises, the trace is a sequence of rounds. *)
Lemma worker_loop_rounds worker_id inbox : ∀ ws tr s,
  worker_loop worker_id inbox ws = (tr, s) → s ≠ Crashed →
  rounds worker_id tr.
Proof.
  induction inbox as [|[a|] inbox IH]; intros ws tr s; simpl.
  - intros [= <- <-] _. constructor.
  - destruct (explore_env a ws) as [[items ws']|]; [|by intros [= <- <-]].
    destruct (worker_loop worker_id inbox ws') as [tr' s'] eqn:Hloop.
    intros [= <- <-] Hs. constructor; [done|]. by eapply IH.
  - intros [= <- <-] _. constructor.
Qed.

Lemma rounds_sends worker_id (tr : list (@event actor)) :
  rounds worker_id tr →
  (∀ m, m ∈ sends tr → msg_worker_id m = worker_id)
  ∧ length (sends tr) = length (policies tr).
Proof.
  induction 1 as [| |a m tr Hm _ [IHid IHlen]]; simpl.
  - split; [|done]. intros m Hm. by inversion Hm.
  - split; [|done]. intros m Hm. by inversion Hm.
  - split; [|by rewrite IHlen].
    intros m' [->|Hin]%elem_of_cons; [done|by apply IHid].
Qed.

(** The sentinel, once received, is the last thing that happens. *)
Lemma worker_loop_sentinel_last worker_id inbox : ∀ ws tr s,
  worker_loop worker_id inbox ws = (tr, s) → Recv None ∈ tr →
  s = Exited ∧ ∃ tr', tr = (tr' ++ [Recv None]) ∧ Recv None ∉ tr'.
Proof.
  induction inbox as [|[a|] inbox IH]; intros ws tr s; simpl.
  - intros [= <- <-] Hin. by inversion Hin.
  - destruct (explore_env a ws) as [[items ws']|].
    + destruct (worker_loop worker_id inbox ws') as [tr' s'] eqn:Hloop.
      intros [= <- <-] Hin.
      apply elem_of_cons in Hin as [?|Hin]; [done|].
      apply elem_of_cons in Hin as [?|Hin]; [done|].
      destruct (IH ws' tr' s' Hloop Hin) as (-> & tr0 & -> & Hnot).
      split; [done|]. eexists (_ :: _ :: tr0). split; [done|].
      intros [?|[?|?]%elem_of_cons]%elem_of_cons; done.
    + intros [= <- <-] Hin. apply elem_of_cons in Hin as [?|Hin]; [done|].
      by inversion Hin.
  - intros [= <- <-] _. split; [done|]. exists []. split; [done|].
    intros Hin. by inversion Hin.
Qed.

(** A sentinel in the inbox is received unless [explore_env] raises
    before: the Worker then stops after one round per policy that
    precedes it. *)
Lemma worker_loop_reaches_sentinel worker_id pre post : ∀ ws tr s,
  worker_loop worker_id ((Some <$> pre) ++ None :: post) ws = (tr, s) →
  s ≠ Crashed →
  s = Exited ∧ Recv None ∈ tr ∧ policies tr = pre.
Proof.
  induction pre as [|a pre IH]; intros ws tr s; simpl.
  - intros [= <- <-] _. split; [done|]. split; [by left|done].
  - destruct (explore_env a ws) as [[items ws']|]; [|by intros [= <- <-]].
    destruct (worker_loop worker_id _ ws') as [tr' s'] eqn:Hloop.
    intros [= <- <-] Hs. destruct (IH ws' tr' s' Hloop Hs) as (-> & Hin & Hpol).
    split; [done|]. split; [by do 2 right|]. simpl. by rewrite Hpol.
Qed.

(** [C7] A Worker that receives the sentinel leaves its loop at once and
    ends with no error and exit code 0: the receipt of the sentinel is the
    last event of its run, so no message is sent after it, whatever else
    its pipe still holds. *)
Theorem sentinel_stops_worker worker_id inbox ws tr s :
  worker_loop worker_id inbox ws = (tr, s) →
  Recv None ∈ tr →
  s = Exited ∧ exit_code s = Some 0%Z
  ∧ ∃ tr', tr = (tr' ++ [Recv None])
           ∧ (Recv None ∉ tr')
           ∧ sends tr = sends tr'.
Proof.
  intros Hloop Hin.
  destruct (worker_loop_sentinel_last worker_id inbox ws tr s Hloop Hin)
    as (-> & tr' & -> & Hnot).
  split; [done|]. split; [done|]. exists tr'. split; [done|]. split; [done|].
  unfold sends. by rewrite omap_app, app_nil_r.
Qed.

End Run.

(** The sentinel waits in the pipe behind one policy, and a policy that is
    never read follows it. *)
Lemma sentinel_stops_worker_witness :
  let run := worker_loop demo_explore demo_last_state 3 [Some 7; None; Some 8] 0 in
  Recv None ∈ run.1
  ∧ run.2 = Exited ∧ exit_code run.2 = Some 0%Z
  ∧ ∃ tr', run.1 = (tr' ++ [Recv None]) ∧ (Recv None ∉ tr') ∧ sends run.1 = sends tr'.
Proof.
  intros run.
  assert (Recv None ∈ run.1) as Hin by (simpl; do 2 right; left).
  split; [exact Hin|].
  apply (sentinel_stops_worker demo_explore demo_last_state 3 [Some 7; None; Some 8] 0).
  - reflexivity.
  - exact Hin.
Defined.


End WorkerFacts.

(** * The Evaluator and the continue flag *)

Module EvaluatorFacts.
Import Evaluator.

Example fgt_finite : fgt (Fin 2) (Fin 1) = true ∧ fgt (Fin 1) (Fin 1) = false.
Proof. split; reflexivity. Qed.

Example fgt_infinite :
  fgt (Fin 0) NegInf = true ∧ fgt NegInf NegInf = false ∧ fgt PosInf (Fin 9) = true.
Proof. repeat split; reflexivity. Qed.

Example fgt_nan : fgt NaN NegInf = false ∧ fgt PosInf NaN = false.
Proof. split; reflexivity. Qed.

Example pymax_keeps_first_on_nan : pymax (Fin 1) NaN = Fin 1.
Proof. reflexivity. Qed.

(** A run of three cycles: steps without a policy, a first evaluation that
    improves on [-inf] and writes a checkpoint, and a poorer one that makes
    the total pass the budget of 25. *)
Example proc_loop_run :
  let inbox := [(LearnerMsg None 10, World None true false);
                (LearnerMsg (Some tt) 10, World (Some (Fin 3)) true false);
                (LearnerMsg (Some tt) 10, World (Some (Fin 1)) true false)] in
  let r := proc_loop 25 (init 0 0 5 true true) inbox in
  r.1.2 = [SendFlag true;
           RunEpisodes; SaveCurve; SaveCheckpoint Improved ActorPt; SaveCurve;
           SendFlag true;
           RunEpisodes; SendFlag false]
  ∧ total_step r.1.1 = 30%Z ∧ max_r r.1.1 = Fin 3 ∧ r.2 = Exited.
Proof. repeat split; reflexivity. Qed.

Lemma fge_refl a : a ≠ NaN → fge a a = true.
Proof.
  destruct a as [|q| |]; try done. intros _. unfold fge. simpl.
  by rewrite Qeq_bool_refl, orb_true_r.
Qed.

Lemma fgt_not_NaN a b : fgt a b = true → a ≠ NaN.
Proof. by destruct a. Qed.

(** Every path through [evaluate_and_save] adds [steps] to the running
    total, once. *)
Lemma evaluate_and_save_total_step ev steps w :
  total_step (evaluate_and_save ev steps w).1 = (total_step ev + steps)%Z.
Proof. unfold evaluate_and_save. simpl. repeat case_match; simplify_eq; by simpl. Qed.

(** [evaluate_and_save] sends nothing to the Learner. *)
Lemma evaluate_and_save_flags ev steps w :
  flags (evaluate_and_save ev steps w).2 = [].
Proof.
  unfold evaluate_and_save. simpl.
  repeat case_match; by simplify_eq.
Qed.

(** [max_r] after a call: as before, or the new average return, which then
    exceeds both the old [max_r] and [-inf]. *)
Lemma evaluate_and_save_max_r ev steps w :
  let avg_r := default NegInf (episodes w) in
  max_r (evaluate_and_save ev steps w).1 = max_r ev
  ∨ (max_r (evaluate_and_save ev steps w).1 = avg_r
     ∧ fgt avg_r (max_r ev) = true).
Proof.
  unfold evaluate_and_save, pymax. simpl.
  repeat case_match; simpl in *; simplify_eq; auto.
Qed.

(** A checkpoint of the improvement branch is written only after episodes
    whose average return exceeds the [max_r] of before the call. *)
Lemma evaluate_and_save_improved ev steps w file :
  SaveCheckpoint Improved file ∈ (evaluate_and_save ev steps w).2 →
  fgt (default NegInf (episodes w)) (max_r ev) = true
  ∧ RunEpisodes ∈ (evaluate_and_save ev steps w).2.
Proof.
  unfold evaluate_and_save. simpl.
  repeat case_match; simpl in *; simplify_eq;
    rewrite ?elem_of_cons, ?elem_of_app, ?elem_of_cons, ?elem_of_nil;
    intros Hin; try done; (split; [|by left]);
    repeat match goal with
    | H : _ && _ = true |- _ => apply andb_true_iff in H as [? ?]
    end; try done; destruct_or!; by simplify_eq.
Qed.

(** Episodes are run exactly when the running total has reached both the
    recording threshold and the next evaluation step. *)
Lemma evaluate_and_save_runs_episodes ev steps w :
  RunEpisodes ∈ (evaluate_and_save ev steps w).2 ↔
  (recorder_step ev ≤ total_step ev + steps)%Z
  ∧ (eval_step_counter ev + eval_per_step ev ≤ total_step ev + steps)%Z.
Proof.
  unfold evaluate_and_save. simpl.
  destruct (_ <? recorder_step ev)%Z eqn:H1; simpl.
  { apply Z.ltb_lt in H1. split; [intros Hin; by inversion Hin|lia]. }
  destruct (_ <? _ + _)%Z eqn:H2; simpl.
  { apply Z.ltb_lt in H2. split; [intros Hin; by inversion Hin|lia]. }
  apply Z.ltb_ge in H1, H2. split; [done|]. intros _.
  repeat case_match; simplify_eq; by left.
Qed.

Lemma flags_app tr1 tr2 : flags (tr1 ++ tr2) = flags tr1 ++ flags tr2.
Proof. unfold flags. apply omap_app. Qed.

Section Proc.
Context {actor : Type}.
Implicit Types (m : @learner_msg actor) (inbox : list (@learner_msg actor * world)).

Lemma cycle_total_step break_step ev m w :
  total_step (cycle break_step ev m w).1.1 = (total_step ev + msg_steps m)%Z.
Proof.
  unfold cycle. destruct (msg_actor m); [|done].
  pose proof (evaluate_and_save_total_step ev (msg_steps m) w) as H.
  by destruct (evaluate_and_save ev (msg_steps m) w).
Qed.

Lemma cycle_flags break_step ev m w :
  flags (cycle break_step ev m w).1.2 = [(cycle break_step ev m w).2].
Proof.
  unfold cycle. destruct (msg_actor m); [|done].
  pose proof (evaluate_and_save_flags ev (msg_steps m) w) as H.
  destruct (evaluate_and_save ev (msg_steps m) w) as [ev' evs]. simpl in *.
  by rewrite flags_app, H.
Qed.

(** The flags of a run: [true] until the loop is left, then at most one
    [false], the last thing sent. *)
Lemma proc_loop_flags break_step inbox : ∀ ev,
  ∃ n, flags (proc_loop break_step ev inbox).1.2
       = replicate n true
           ++ match (proc_loop break_step ev inbox).2 with
              | Exited => [false]
              | _ => []
              end.
Proof.
  induction inbox as [|[m w] inbox IH]; intros ev; simpl.
  - by exists 0.
  - pose proof (cycle_flags break_step ev m w) as Hc.
    destruct (cycle break_step ev m w) as [[ev' evs] if_train]. simpl in Hc.
    destruct if_train.
    + destruct (IH ev') as [n Hn].
      destruct (proc_loop break_step ev' inbox) as [[ev'' evs'] s]. simpl in *.
      exists (S n). by rewrite flags_app, Hc, Hn.
    + exists 0. simpl. by rewrite Hc.
Qed.

(** [C3] The flag a cycle of the Evaluator sends is
    [(running total <= break_step) and (no stop file)], the running total
    being the one before the cycle plus the [steps] of the message, with
    or without a policy; it is the last thing the cycle does.  The
    single-process loop computes its [if_train] by the same formula, on
    the total after [horizon_len] more steps. *)
Theorem continue_flag_decides break_step ev m w horizon_len :
  total_step (cycle break_step ev m w).1.1 = (total_step ev + msg_steps m)%Z
  ∧ (cycle break_step ev m w).2
    = continue_flag break_step (total_step ev + msg_steps m) (stop_exists w)
  ∧ last (cycle break_step ev m w).1.2 = Some (SendFlag (cycle break_step ev m w).2)
  ∧ flags (cycle break_step ev m w).1.2 = [(cycle break_step ev m w).2]
  ∧ (single_process_cycle break_step horizon_len ev w).2
    = continue_flag break_step (total_step ev + horizon_len) (stop_exists w).
Proof.
  split; [apply cycle_total_step|]. split; [|split; [|split; [apply cycle_flags|]]].
  - pose proof (cycle_total_step break_step ev m w) as H. unfold cycle in *.
    destruct (match msg_actor m with Some _ => _ | None => _ end) as [ev' evs].
    simpl in *. by rewrite <-H.
  - unfold cycle.
    destruct (match msg_actor m with Some _ => _ | None => _ end) as [ev' evs].
    simpl. by rewrite last_snoc.
  - unfold single_process_cycle.
    pose proof (evaluate_and_save_total_step ev horizon_len w) as H.
    destruct (evaluate_and_save ev horizon_len w) as [ev' evs]. simpl in *.
    by rewrite H.
Qed.

(** [C4] The flags of one run of the Evaluator loop are monotone: after a
    [false] flag no later flag is [true].  (The loop is left on the first
    [false], so nothing at all is sent after it.) *)
Theorem flag_never_true_again break_step ev inbox i j :
  flags (proc_loop break_step ev inbox).1.2 !! i = Some false →
  i < j →
  flags (proc_loop break_step ev inbox).1.2 !! j ≠ Some true.
Proof.
  destruct (proc_loop_flags break_step inbox ev) as [n ->].
  intros Hi Hij Hj.
  assert (n ≤ i) as Hn.
  { destruct (decide (i < n)); [|lia].
    rewrite lookup_app_l in Hi by (by rewrite length_replicate).
    apply lookup_replicate in Hi as [? _]. done. }
  apply lookup_lt_Some in Hj. rewrite length_app, length_replicate in Hj.
  destruct ((proc_loop break_step ev inbox).2); simpl in Hj; lia.
Qed.

(** [C5] A message without a policy only advances the running total: the
    cycle adds its [steps], runs no episodes and sends the flag.  After
    [(None, 10)] and then [(policy, 10)] a fresh Evaluator has a running
    total of 20; the first message ran no episodes, and the second runs
    them exactly when the recording threshold [eval_record_step] is at
    most 20. *)
Theorem null_policy_skips_evaluation break_step ev steps w
    eval_per_step eval_record_step save_gap if_keep_save if_over_write
    (a : actor) w1 w2 :
  let c := cycle break_step ev (@LearnerMsg actor None steps) w in
  let ev0 := init eval_per_step eval_record_step save_gap if_keep_save if_over_write in
  let c1 := cycle break_step ev0 (@LearnerMsg actor None 10) w1 in
  let c2 := cycle break_step c1.1.1 (LearnerMsg (Some a) 10) w2 in
  c.1.1 = set_total_step (total_step ev + steps) ev
  ∧ c.1.2 = [SendFlag c.2]
  ∧ (RunEpisodes ∉ c.1.2)
  ∧ total_step c2.1.1 = 20%Z
  ∧ (RunEpisodes ∉ c1.1.2)
  ∧ (RunEpisodes ∈ c2.1.2 ↔ (eval_record_step ≤ 20)%Z).
Proof.
  intros c ev0 c1 c2.
  split; [done|]. split; [done|]. split.
  { simpl. intros [?|Hin]%elem_of_cons; [done|by inversion Hin]. }
  split.
  { unfold c2. rewrite cycle_total_step. unfold c1. by rewrite cycle_total_step. }
  split.
  { simpl. intros [?|Hin]%elem_of_cons; [done|by inversion Hin]. }
  unfold c2, c1, cycle. simpl.
  pose proof (evaluate_and_save_runs_episodes (set_total_step (0 + 10) ev0) 10 w2) as Hrun.
  destruct (evaluate_and_save (set_total_step (0 + 10) ev0) 10 w2) as [ev' evs].
  simpl in *. rewrite elem_of_app, Hrun. split.
  - intros [?|Hin]; [lia|].
    apply elem_of_cons in Hin as [?|Hin]; [done|by inversion Hin].
  - intros ?. left. lia.
Qed.
End Proc.

(** [max_r] starts at [-inf]. *)
Lemma init_max_r eval_per_step eval_record_step save_gap if_keep_save if_over_write :
  max_r (init eval_per_step eval_record_step save_gap if_keep_save if_over_write) ≠ NaN.
Proof. done. Qed.

(** [C10] [max_r] never decreases over a call of [evaluate_and_save]: after
    the call it is greater than or equal to what it was (and still a
    number), and a checkpoint of the improvement branch is written only if
    the new average return is strictly greater than the [max_r] of before
    the call. *)
Theorem max_r_never_decreases ev steps w :
  max_r ev ≠ NaN →
  fge (max_r (evaluate_and_save ev steps w).1) (max_r ev) = true
  ∧ max_r (evaluate_and_save ev steps w).1 ≠ NaN
  ∧ ∀ file, SaveCheckpoint Improved file ∈ (evaluate_and_save ev steps w).2 →
      fgt (default NegInf (episodes w)) (max_r ev) = true.
Proof.
  intros Hnan.
  destruct (evaluate_and_save_max_r ev steps w) as [->|[-> Hgt]].
  - split; [by apply fge_refl|]. split; [done|].
    intros file Hin. by eapply evaluate_and_save_improved.
  - split; [unfold fge; by rewrite Hgt|]. split; [by eapply fgt_not_NaN|].
    intros file Hin. by eapply evaluate_and_save_improved.
Qed.

(** Three messages of 10 steps against a budget of 15: the second flag is
    [false] and the third message is never read. *)
Lemma flag_never_true_again_witness :
  let inbox := [(LearnerMsg (Some tt) 10, World (Some (Fin 1)) true false);
                (LearnerMsg None 10, World None true false);
                (LearnerMsg (Some tt) 10, World (Some (Fin 2)) true false)] in
  let tr := (proc_loop 15 (init 5 0 3 true false) inbox).1.2 in
  flags tr !! 1 = Some false ∧ 1 < 2 ∧ flags tr !! 2 ≠ Some true.
Proof.
  intros inbox tr. split; [reflexivity|]. split; [lia|].
  apply (flag_never_true_again 15 (init 5 0 3 true false) inbox 1 2).
  - reflexivity.
  - lia.
Defined.

(** The first evaluation of a run, with an average return of 3. *)
Lemma max_r_never_decreases_witness :
  let ev := init 0 0 1 true false in
  let w := World (Some (Fin 3)) true false in
  max_r ev ≠ NaN
  ∧ fge (max_r (evaluate_and_save ev 10 w).1) (max_r ev) = true
  ∧ max_r (evaluate_and_save ev 10 w).1 ≠ NaN
  ∧ ∀ file, SaveCheckpoint Improved file ∈ (evaluate_and_save ev 10 w).2 →
      fgt (default NegInf (episodes w)) (max_r ev) = true.
Proof.
  intros ev w. split; [discriminate|].
  apply (max_r_never_decreases ev 10 w). discriminate.
Defined.

End EvaluatorFacts.

(** * Whatever is received: shapes, frames and barriers *)

Module FrameFacts.
Import Tensor TensorFacts Learner LearnerFacts RingFacts Frame.

Lemma untouched_outside_refl lo hi b : untouched_outside lo hi b b.
Proof. by split. Qed.

Lemma untouched_outside_trans lo hi a b c :
  untouched_outside lo hi a b → untouched_outside lo hi b c →
  untouched_outside lo hi a c.
Proof.
  intros [Hs1 Hg1] [Hs2 Hg2]. split; [congruence|].
  intros k col r Hc. rewrite Hg1 by done. by apply Hg2.
Qed.

Lemma untouched_outside_weaken lo hi lo' hi' a b :
  lo' ≤ lo → hi ≤ hi' →
  untouched_outside lo hi a b → untouched_outside lo' hi' a b.
Proof.
  intros Hlo Hhi [Hs Hg]. split; [done|].
  intros k c r Hc. apply Hg. lia.
Qed.

(** Whatever tensor arrives, a write that returns keeps the shape of the
    buffer tensor and every column outside [buf_i, buf_j). *)
Lemma write_segment_frame i j buf item t :
  write_segment 1 i j buf item = Ok t → untouched_outside i j t buf.
Proof.
  unfold write_segment, slice_axis.
  destruct (shape buf !! 1) as [n|] eqn:Hn; [|done]. simpl.
  destruct (decide _) as [_|_].
  - intros [= <-]. unfold assign_axis. rewrite Hn. split; [done|].
    intros k c r Hc. simpl.
    replace ((slice_lo i n <=? c) && (c <? slice_hi j n)) with false; [done|].
    symmetry. apply andb_false_iff. rewrite Nat.leb_gt, Nat.ltb_ge.
    unfold slice_lo, slice_hi.
    assert (c < n ∨ n ≤ c) as [?|?] by lia; lia.
  - destruct (decide _) as [_|_]; [|intros [= <-]; apply untouched_outside_refl].
    unfold assign_axis_trunc. rewrite Hn.
    destruct (_ <? _); [done|]. intros [= <-]. split; [done|].
    intros k c r Hc. simpl. destruct (last (c :: r)); [|done].
    replace ((slice_lo i n <=? c) && (c <? slice_hi j n)) with false; [done|].
    symmetry. apply andb_false_iff. rewrite Nat.leb_gt, Nat.ltb_ge.
    unfold slice_lo, slice_hi.
    assert (c < n ∨ n ≤ c) as [?|?] by lia; lia.
Qed.

Lemma write_items_frame i j items : ∀ tensors ts,
  write_items i j items tensors = Ok ts →
  Forall2 (untouched_outside i j) ts tensors.
Proof.
  induction items as [|item items IH]; intros tensors ts; simpl.
  - intros [= <-]. apply Forall2_same_length_lookup_2; [done|].
    intros ? ? ? H1 H2. rewrite H1 in H2. injection H2 as <-.
    apply untouched_outside_refl.
  - destruct tensors as [|b tensors].
    { intros [= <-]. constructor. }
    destruct (write_segment 1 i j b item) as [t| |] eqn:Hw; try done. simpl.
    destruct (write_items i j items tensors) as [ts'| |] eqn:Hws; try done. simpl.
    intros [= <-]. constructor; [by eapply write_segment_frame|by apply IH].
Qed.

Lemma Forall2_untouched_trans lo hi (a b c : list tensor) :
  Forall2 (untouched_outside lo hi) a b →
  Forall2 (untouched_outside lo hi) b c →
  Forall2 (untouched_outside lo hi) a c.
Proof.
  intros Hab. revert c. induction Hab as [|x y a b Hxy Hab IH]; intros c Hbc.
  - by inversion Hbc.
  - inversion Hbc; subst. constructor; [by eapply untouched_outside_trans|by apply IH].
Qed.

Lemma Forall2_untouched_weaken lo hi lo' hi' (a b : list tensor) :
  lo' ≤ lo → hi ≤ hi' →
  Forall2 (untouched_outside lo hi) a b →
  Forall2 (untouched_outside lo' hi') a b.
Proof.
  intros Hlo Hhi H. eapply Forall2_impl; [exact H|]. intros x y.
  by apply untouched_outside_weaken.
Qed.

Lemma Forall2_untouched_refl lo hi (a : list tensor) :
  Forall2 (untouched_outside lo hi) a a.
Proof. induction a; constructor; [apply untouched_outside_refl|done]. Qed.

Lemma Forall2_untouched_shapes lo hi (a b : list tensor) :
  Forall2 (untouched_outside lo hi) a b → shape <$> a = shape <$> b.
Proof.
  induction 1 as [|x y a b [Hxy _] _ IH]; [done|].
  rewrite !fmap_cons. by f_equal.
Qed.

Lemma gather_loop_frame args lo hi : ∀ n pipe st st' rest,
  gather_loop args n pipe st = Ok (st', rest) →
  n ≤ length pipe ∧ rest = drop n pipe
  ∧ shape <$> buffer_items_tensor st' = shape <$> buffer_items_tensor st
  ∧ ((∀ m, m ∈ take n pipe →
        lo ≤ num_envs args * msg_worker_id m
        ∧ num_envs args * (msg_worker_id m + 1) ≤ hi) →
     Forall2 (untouched_outside lo hi) (buffer_items_tensor st') (buffer_items_tensor st)).
Proof.
  induction n as [|n IH]; intros pipe st st' rest; simpl.
  - intros [= <- <-]. split; [lia|]. split; [by rewrite drop_0|]. split; [done|].
    intros _. apply Forall2_untouched_refl.
  - destruct pipe as [|m pipe]; [done|].
    unfold recv_worker.
    destruct (write_items _ _ (msg_buffer_items m) _) as [ts| |] eqn:Hw; try done.
    simpl. destruct (write_segment 0 _ _ _ _) as [ls| |]; try done. simpl.
    intros Hloop. destruct (IH _ _ _ _ Hloop) as (Hlen & Hrest & Hshape & Hframe).
    simpl in *. apply write_items_frame in Hw.
    split; [lia|]. split; [done|]. split.
    + rewrite Hshape. by eapply Forall2_untouched_shapes.
    + intros Hids. eapply Forall2_untouched_trans.
      * apply Hframe. intros m' Hm'. apply Hids. by right.
      * destruct (Hids m) as [? ?]; [by left|].
        by eapply Forall2_untouched_weaken; [..|exact Hw].
Qed.

(** The gather loop is a barrier: it returns only when it has taken
    [num_workers] messages from its pipe, the first ones in arrival order,
    and leaves the others in the pipe; with fewer it never returns. *)
Theorem gather_takes_num_workers_messages args pipe st st' rest :
  gather args pipe st = Ok (st', rest) →
  num_workers args ≤ length pipe
  ∧ rest = drop (num_workers args) pipe.
Proof.
  intros Hg. destruct (gather_loop_frame args 0 0 _ _ _ _ _ Hg) as (? & ? & _).
  done.
Qed.

(** Whatever the Workers send (any shapes, any order, repeated ids), if all
    messages taken carry a [worker_id] below [num_workers], a gather that
    returns has written nothing outside the first [num_envs * num_workers]
    columns: the slots of the peer Learners are as before. *)
Theorem gather_keeps_peer_slots args pipe st st' rest :
  gather args pipe st = Ok (st', rest) →
  (∀ m, m ∈ take (num_workers args) pipe → msg_worker_id m < num_workers args) →
  Forall2 (untouched_outside 0 (buffer_len args))
          (buffer_items_tensor st') (buffer_items_tensor st).
Proof.
  intros Hg Hids.
  destruct (gather_loop_frame args 0 (buffer_len args) _ _ _ _ _ Hg)
    as (_ & _ & _ & Hframe).
  apply Hframe. intros m Hm. specialize (Hids m Hm). split; [lia|].
  unfold buffer_len. apply Nat.mul_le_mono_l. lia.
Qed.

Lemma ring_recv_loop_frame args : ∀ shifts tensors pipes ts pipes',
  ring_recv_loop args shifts tensors pipes = Ok (ts, pipes') →
  shape <$> ts = shape <$> tensors
  ∧ ((∀ s, s ∈ shifts → s + 2 ≤ num_learners args) →
     Forall2 (untouched_outside (buffer_len args) (num_seqs args)) ts tensors)
  ∧ (NoDup shifts → (∀ s, s ∈ shifts → s + 1 < num_learners args) →
     (∀ s, s ∈ shifts →
        ∃ p q, pipes !! peer args s = Some (p :: q) ∧ pipes' !! peer args s = Some q)
     ∧ ∀ k, (∀ s, s ∈ shifts → peer args s ≠ k) → pipes' !! k = pipes !! k).
Proof.
  induction shifts as [|s shifts IH]; intros tensors pipes ts pipes'; simpl.
  - intros [= <- <-]. split; [done|]. split; [intros _; apply Forall2_untouched_refl|].
    intros _ _. split; [|done]. intros s Hs. by inversion Hs.
  - fold (peer args s).
    destruct (pipes !! peer args s) as [[|p q]|] eqn:Hq; try done.
    destruct (write_items _ _ p tensors) as [ts1| |] eqn:Hw; try done. simpl.
    intros Hloop. destruct (IH _ _ _ _ Hloop) as (Hshape & Hframe & Hpops).
    apply write_items_frame in Hw. split; [|split].
    + rewrite Hshape. by eapply Forall2_untouched_shapes.
    + intros Hlt. eapply Forall2_untouched_trans.
      * apply Hframe. intros s' Hs'. apply Hlt. by right.
      * eapply Forall2_untouched_weaken; [| |exact Hw].
        -- unfold buffer_len. nia.
        -- unfold num_seqs. apply Nat.mul_le_mono_l. apply Hlt. by left.
    + intros [Hs Hnd]%NoDup_cons Hlt.
      assert (∀ s', s' ∈ shifts → peer args s' ≠ peer args s) as Hne.
      { intros s' Hs' Heq. apply peer_inj in Heq; [by subst| |].
        - apply Hlt. by right.
        - apply Hlt. by left. }
      destruct Hpops as [Hpop Hsame]; [done|intros s' Hs'; apply Hlt; by right|].
      split.
      * intros s' [->|Hs']%elem_of_cons.
        -- exists p, q. split; [done|]. rewrite Hsame by done.
           apply list_lookup_insert_eq. by eapply lookup_lt_Some.
        -- destruct (Hpop s' Hs') as (p' & q' & Hp' & Hq').
           exists p', q'. split; [|done].
           by rewrite list_lookup_insert_ne in Hp' by (symmetry; by apply Hne).
      * intros k Hk. rewrite Hsame.
        -- apply list_lookup_insert_ne. apply Hk. by left.
        -- intros s' Hs'. apply Hk. by right.
Qed.

(** Whatever the peers send, a receive loop that returns has written only
    into the peers' slots: the Learner's own first [num_envs * num_workers]
    columns, which hold what its Workers sent, are as the gather left them,
    and every buffer tensor keeps its shape. *)
Theorem ring_recv_keeps_own_segment args tensors pipes ts pipes' :
  ring_recv args tensors pipes = Ok (ts, pipes') →
  Forall2 (untouched_outside (buffer_len args) (num_seqs args)) ts tensors.
Proof.
  intros Hr. destruct (ring_recv_loop_frame args _ _ _ _ _ Hr) as (_ & Hframe & _).
  apply Hframe. intros s Hs%elem_of_seq. unfold num_communications in Hs. lia.
Qed.

Lemma ring_recv_pops_peers args tensors pipes ts pipes' :
  ring_recv args tensors pipes = Ok (ts, pipes') →
  learner_id args < num_learners args →
  pipes' !! learner_id args = pipes !! learner_id args
  ∧ ∀ k, k < num_learners args → k ≠ learner_id args →
      ∃ p q, pipes !! k = Some (p :: q) ∧ pipes' !! k = Some q.
Proof.
  intros Hr Hme. set (L := num_learners args). set (me := learner_id args).
  destruct (ring_recv_loop_frame args _ _ _ _ _ Hr) as (_ & _ & Hpops).
  assert (∀ s, s ∈ seq 0 (num_communications args) → s + 1 < L) as Hshift.
  { intros s Hs%elem_of_seq. unfold num_communications in Hs. fold L in Hs. lia. }
  assert (slot_owner L me 0 = me) as H0.
  { unfold slot_owner. rewrite Nat.add_0_r. by apply Nat.mod_small. }
  destruct Hpops as [Hpop Hsame]; [apply NoDup_seq|done|]. split.
  - apply Hsame. intros s Hs. rewrite peer_slot_owner. fold L me. intros Heq.
    destruct (slot_owner_bijective L me me Hme) as (slot & _ & _ & Huniq).
    pose proof (Huniq (s + 1) (Hshift s Hs) Heq).
    pose proof (Huniq 0 ltac:(lia) H0). lia.
  - intros k Hk Hne.
    destruct (slot_owner_bijective L me k Hk) as (slot & Hslot & Hown & _).
    destruct slot as [|s]; [congruence|].
    replace (S s) with (s + 1) in Hown by lia. unfold L, me in Hown.
    rewrite <-peer_slot_owner in Hown. rewrite <-Hown. apply Hpop.
    apply elem_of_seq. unfold num_communications. fold L. lia.
Qed.

(** The receive loop is a barrier too: it returns only if the pipe of every
    peer held a payload, takes exactly the first one of each, and never
    reads the Learner's own pipe. *)
Theorem ring_recv_takes_one_from_each_peer args tensors pipes ts pipes' :
  ring_recv args tensors pipes = Ok (ts, pipes') →
  learner_id args < num_learners args →
  pipes' !! learner_id args = pipes !! learner_id args
  ∧ ∀ k, k < num_learners args → k ≠ learner_id args →
      ∃ p q, pipes !! k = Some (p :: q) ∧ pipes' !! k = Some q.
Proof. apply ring_recv_pops_peers. Qed.

(** Whatever arrives in a round, from Workers or peers, in any shape: if the
    round gets to the update, the tuple it hands over has the tensors of the
    buffer as allocated, each with its shape. *)
Theorem round_keeps_buffer_shapes args recv_pipe pipes st r :
  round_to_update args recv_pipe pipes st = Ok r →
  shape <$> handed_to_update r = shape <$> buffer_items_tensor st.
Proof.
  unfold round_to_update.
  destruct (gather args recv_pipe st) as [[st1 rest]| |] eqn:Hg; try done. simpl.
  destruct (num_workers args =? 0); [done|]. simpl.
  destruct (ring_send args _ pipes) as [pipes1| |]; try done. simpl.
  destruct (ring_recv args _ pipes1) as [[ts pipes2]| |] eqn:Hr; try done. simpl.
  intros [= <-]. simpl.
  destruct (gather_loop_frame args 0 0 _ _ _ _ _ Hg) as (_ & _ & Hs1 & _).
  destruct (ring_recv_loop_frame args _ _ _ _ _ Hr) as (Hs2 & _).
  by rewrite Hs2, Hs1.
Qed.

(** With a single Learner the exchange does nothing: no pipe is read or
    written, and the update gets the buffer exactly as the gather left
    it. *)
Theorem single_learner_round_is_gather args recv_pipe pipes st r :
  num_learners args = 1 →
  round_to_update args recv_pipe pipes st = Ok r →
  ring_after r = pipes
  ∧ gather args recv_pipe st = Ok (state_after r, recv_pipe_after r)
  ∧ handed_to_update r = buffer_items_tensor (state_after r).
Proof.
  intros HL. unfold round_to_update.
  destruct (gather args recv_pipe st) as [[st1 rest]| |] eqn:Hg; try done. simpl.
  destruct (num_workers args =? 0); [done|]. simpl.
  unfold ring_send, ring_recv, num_communications. rewrite HL. simpl.
  destruct (local_segment _ _) as [seg| |]; try done. simpl.
  intros [= <-]. simpl. by destruct st1.
Qed.

(** When does a write crash the Learner?  On a buffer tensor of shape
    [(h, n)] (rewards, flags, log-probabilities, discrete actions) exactly
    when the item has rank two, the right horizon and the wrong number of
    columns; on a buffer tensor with trailing dimensions, never.  In all
    other cases the write returns. *)
Theorem write_segment_raises_iff h n f i j buf item :
  shape buf = h :: n :: f →
  (write_segment 1 i j buf item = Raise IndexError
   ↔ f = [] ∧ ∃ e, shape item = [h; e] ∧ e ≠ slice_hi j n - slice_lo i n)
  ∧ (write_segment 1 i j buf item ≠ Raise IndexError →
     ∃ t, write_segment 1 i j buf item = Ok t).
Proof.
  intros Hb. unfold write_segment.
  destruct (slice_axis_cols h n f i j buf Hb) as (s & -> & Hsh & _). simpl.
  rewrite Hsh. set (cols := slice_hi j n - slice_lo i n).
  destruct (decide (shape item = h :: cols :: f)) as [Heq|Hne].
  { split; [|by eexists]. split; [done|].
    intros (-> & e & He & Hcols). rewrite He in Heq. by injection Heq. }
  destruct (decide _) as [[Hlen Hlead]|Hlead].
  - unfold assign_axis_trunc. rewrite Hb. simpl.
    destruct f as [|d f]; simpl.
    + split; [|done]. split; [|done]. intros _. split; [done|].
      destruct (shape item) as [|a [|e [|? ?]]]; try done.
      simpl in Hlead. injection Hlead as ->. exists e. split; [done|].
      intros ->. done.
    + split; [|by eexists]. split; [done|]. by intros [? _].
  - split; [|by eexists]. split; [done|].
    intros (-> & e & He & Hcols). exfalso. apply Hlead. by rewrite He.
Qed.

(** Two messages wait for a Learner with one Worker: the second stays in
    the pipe. *)
Lemma gather_takes_num_workers_messages_witness :
  let args := Config 1 1 1 3 1 false true 1 0 in
  let st := State (init_buffer_items_tensor args) (zeros [1; 3]) in
  let m := WorkerMsg 0 ((λ sh, Build sh (λ _, 7%Z)) <$> item_shapes args 1) (zeros [1; 3]) in
  ∃ st' rest, gather args [m; m] st = Ok (st', rest)
    ∧ num_workers args ≤ length [m; m]
    ∧ rest = drop (num_workers args) [m; m].
Proof.
  intros args st m. eexists _, _. split; [reflexivity|].
  eapply (gather_takes_num_workers_messages args [m; m] st). reflexivity.
Defined.

(** The only Worker of Learner 0 of two sends states of the wrong
    dimension: the slot of Learner 1 is as before. *)
Lemma gather_keeps_peer_slots_witness :
  let args := Config 1 1 1 3 1 false true 2 0 in
  let st := State (init_buffer_items_tensor args) (zeros [2; 3]) in
  let m := WorkerMsg 0 [Build [1; 1; 5] (λ _, 7%Z)] (zeros [1; 3]) in
  ∃ st' rest, gather args [m] st = Ok (st', rest)
    ∧ Forall2 (untouched_outside 0 1) (buffer_items_tensor st') (buffer_items_tensor st).
Proof.
  intros args st m. eexists _, _. split; [reflexivity|].
  eapply (gather_keeps_peer_slots args [m] st).
  - reflexivity.
  - intros m' Hm'. simpl in Hm'. apply list_elem_of_singleton in Hm' as ->. simpl. lia.
Defined.

Lemma ring_recv_keeps_own_segment_witness :
  let args := Config 1 1 1 2 1 true true 2 0 in
  let tensors := init_buffer_items_tensor args in
  let seg1 := (λ sh, Build sh (λ _, 9%Z)) <$> item_shapes args 1 in
  ∃ ts pipes', ring_recv args tensors [[]; [seg1]] = Ok (ts, pipes')
    ∧ Forall2 (untouched_outside 1 2) ts tensors.
Proof.
  intros args tensors seg1. eexists _, _. split; [reflexivity|].
  eapply (ring_recv_keeps_own_segment args tensors [[]; [seg1]]). reflexivity.
Defined.

Lemma ring_recv_takes_one_from_each_peer_witness :
  let args := Config 1 1 1 2 1 true true 2 0 in
  let tensors := init_buffer_items_tensor args in
  let seg1 := (λ sh, Build sh (λ _, 9%Z)) <$> item_shapes args 1 in
  ∃ ts pipes', ring_recv args tensors [[seg1]; [seg1; seg1]] = Ok (ts, pipes')
    ∧ pipes' !! 0 = Some [seg1]
    ∧ ∀ k, k < 2 → k ≠ 0 →
        ∃ p q, [[seg1]; [seg1; seg1]] !! k = Some (p :: q) ∧ pipes' !! k = Some q.
Proof.
  intros args tensors seg1. eexists _, _. split; [reflexivity|].
  eapply (ring_recv_takes_one_from_each_peer args tensors [[seg1]; [seg1; seg1]]).
  - reflexivity.
  - simpl. lia.
Defined.

(** A batch of another horizon: nothing is written, the shapes stay. *)
Lemma round_keeps_buffer_shapes_witness :
  let args := Config 1 1 1 3 1 false true 1 0 in
  let st := State (init_buffer_items_tensor args) (zeros [1; 3]) in
  let m := WorkerMsg 0 [Build [2; 1; 3] (λ _, 7%Z)] (zeros [1; 3]) in
  ∃ r, round_to_update args [m] [] st = Ok r
    ∧ shape <$> handed_to_update r = shape <$> buffer_items_tensor st.
Proof.
  intros args st m. eexists. split; [reflexivity|].
  apply (round_keeps_buffer_shapes args [m] [] st). reflexivity.
Defined.

Lemma single_learner_round_is_gather_witness :
  let args := Config 1 1 1 3 1 false true 1 0 in
  let st := State (init_buffer_items_tensor args) (zeros [1; 3]) in
  let m := WorkerMsg 0 ((λ sh, Build sh (λ _, 7%Z)) <$> item_shapes args 1) (zeros [1; 3]) in
  ∃ r, round_to_update args [m] [] st = Ok r
    ∧ ring_after r = []
    ∧ gather args [m] st = Ok (state_after r, recv_pipe_after r)
    ∧ handed_to_update r = buffer_items_tensor (state_after r).
Proof.
  intros args st m. eexists. split; [reflexivity|].
  apply (single_learner_round_is_gather args [m] [] st); reflexivity.
Defined.

(** Rewards for two environments arrive where one is expected. *)
Lemma write_segment_raises_iff_witness :
  write_segment 1 0 1 (zeros [4; 1]) (zeros [4; 2]) = Raise IndexError.
Proof.
  apply (write_segment_raises_iff 4 1 [] 0 1 (zeros [4; 1]) (zeros [4; 2]) eq_refl).
  split; [reflexivity|]. exists 2. split; [reflexivity|]. simpl. lia.
Defined.

End FrameFacts.

(** * Runs of the Evaluator: cadence, records, budget *)

Module EvaluatorRunFacts.
Import Evaluator EvaluatorFacts EvaluatorRun.

Lemma evaluate_and_save_config ev steps w :
  eval_per_step (evaluate_and_save ev steps w).1 = eval_per_step ev
  ∧ recorder_step (evaluate_and_save ev steps w).1 = recorder_step ev
  ∧ save_gap (evaluate_and_save ev steps w).1 = save_gap ev
  ∧ if_keep_save (evaluate_and_save ev steps w).1 = if_keep_save ev
  ∧ if_over_write (evaluate_and_save ev steps w).1 = if_over_write ev.
Proof. unfold evaluate_and_save. simpl. repeat case_match; by simplify_eq. Qed.

(** The evaluation step counter after a call: the running total if
    episodes were run, else what it was. *)
Lemma evaluate_and_save_counter ev steps w :
  (RunEpisodes ∈ (evaluate_and_save ev steps w).2 →
   eval_step_counter (evaluate_and_save ev steps w).1 = (total_step ev + steps)%Z)
  ∧ (RunEpisodes ∉ (evaluate_and_save ev steps w).2 →
     eval_step_counter (evaluate_and_save ev steps w).1 = eval_step_counter ev).
Proof.
  unfold evaluate_and_save. simpl.
  repeat case_match; simplify_eq; simpl; split; try done;
    try (intros Hin; by inversion Hin);
    intros Hnot; exfalso; apply Hnot; by left.
Qed.

(** What a call records: nothing, or one tuple with the running total and
    an average return above [-inf], which [max_r] then takes into
    account. *)
Lemma evaluate_and_save_recorder ev steps w :
  (recorder (evaluate_and_save ev steps w).1 = recorder ev
   ∧ max_r (evaluate_and_save ev steps w).1 = max_r ev)
  ∨ (∃ avg_r, episodes w = Some avg_r ∧ fgt avg_r NegInf = true
     ∧ recorder (evaluate_and_save ev steps w).1
       = recorder ev ++ [((total_step ev + steps)%Z, avg_r)]
     ∧ max_r (evaluate_and_save ev steps w).1 = pymax (max_r ev) avg_r
     ∧ RunEpisodes ∈ (evaluate_and_save ev steps w).2).
Proof.
  unfold evaluate_and_save. simpl.
  destruct (episodes w) as [avg_r|] eqn:Hep; simpl;
    repeat case_match; simplify_eq; simpl; auto;
    right; exists avg_r; repeat split; try done; by left.
Qed.

Lemma fgt_above_NegInf a b : fgt a b = true → fgt a NegInf = true.
Proof. by destruct a, b. Qed.

(** An evaluation that yields no average return above [-inf] (no episode
    returned, the evaluation raised, or the mean is [-inf] or [nan])
    records nothing, leaves [max_r] alone and writes no checkpoint of the
    improvement branch.  It still uses up the evaluation: the next one is
    due [eval_per_step] steps later. *)
Theorem failed_evaluation_records_nothing ev steps w :
  fgt (default NegInf (episodes w)) NegInf = false →
  recorder (evaluate_and_save ev steps w).1 = recorder ev
  ∧ max_r (evaluate_and_save ev steps w).1 = max_r ev
  ∧ (∀ file, SaveCheckpoint Improved file ∉ (evaluate_and_save ev steps w).2)
  ∧ (RunEpisodes ∈ (evaluate_and_save ev steps w).2 →
     eval_step_counter (evaluate_and_save ev steps w).1 = (total_step ev + steps)%Z).
Proof.
  intros Hfail.
  destruct (evaluate_and_save_recorder ev steps w)
    as [[Hrec Hmax]|(avg_r & Hep & Hgt & _)].
  - split; [done|]. split; [done|]. split.
    + intros file Hin. apply evaluate_and_save_improved in Hin as [Hgt _].
      apply fgt_above_NegInf in Hgt. congruence.
    + apply evaluate_and_save_counter.
  - rewrite Hep in Hfail. simpl in Hfail. congruence.
Qed.

Lemma failed_evaluation_records_nothing_witness :
  let ev := init 0 0 2 true false in
  let w := World None true false in
  fgt (default NegInf (episodes w)) NegInf = false
  ∧ recorder (evaluate_and_save ev 10 w).1 = recorder ev
  ∧ max_r (evaluate_and_save ev 10 w).1 = max_r ev
  ∧ (∀ file, SaveCheckpoint Improved file ∉ (evaluate_and_save ev 10 w).2)
  ∧ (RunEpisodes ∈ (evaluate_and_save ev 10 w).2 →
     eval_step_counter (evaluate_and_save ev 10 w).1 = (total_step ev + 10)%Z).
Proof.
  intros ev w. split; [reflexivity|].
  apply (failed_evaluation_records_nothing ev 10 w). reflexivity.
Defined.

(** A checkpoint of the improvement branch goes with a record: the call
    has appended [(total_step, avg_r)] to the recorder, [max_r] is that
    [avg_r], and the file is [actor.pt] when overwriting, else the name
    built from that step and that return. *)
Theorem improvement_checkpoint_matches_record ev steps w file :
  SaveCheckpoint Improved file ∈ (evaluate_and_save ev steps w).2 →
  ∃ avg_r, episodes w = Some avg_r
    ∧ max_r (evaluate_and_save ev steps w).1 = avg_r
    ∧ last (recorder (evaluate_and_save ev steps w).1)
      = Some ((total_step ev + steps)%Z, avg_r)
    ∧ file = (if if_over_write ev then ActorPt
              else ActorStepReturn (total_step ev + steps) avg_r)
    ∧ if_keep_save ev = true ∧ save_ok w = true.
Proof.
  intros Hin. pose proof Hin as Hin'.
  apply evaluate_and_save_improved in Hin' as [Hgt _].
  pose proof (fgt_above_NegInf _ _ Hgt) as Hgt0.
  destruct (episodes w) as [avg_r|] eqn:Hep; [|done]. simpl in *.
  exists avg_r. split; [done|]. revert Hin.
  unfold evaluate_and_save, pymax. simpl. rewrite Hep. simpl.
  rewrite Hgt0. simpl. rewrite Hgt. simpl.
  repeat case_match; simplify_eq; simpl;
    rewrite ?elem_of_cons, ?elem_of_app, ?elem_of_cons, ?elem_of_nil;
    intros Hin; destruct_or?; simplify_eq; try done;
    (split; [done|]); (split; [by rewrite last_snoc|]); (split; [done|]);
    (split; [|done]); by destruct (if_keep_save ev).
Qed.

Lemma improvement_checkpoint_matches_record_witness :
  let ev := init 0 0 2 true false in
  let w := World (Some (Fin 3)) true false in
  SaveCheckpoint Improved (ActorStepReturn 10 (Fin 3)) ∈ (evaluate_and_save ev 10 w).2
  ∧ ∃ avg_r, episodes w = Some avg_r
      ∧ max_r (evaluate_and_save ev 10 w).1 = avg_r
      ∧ last (recorder (evaluate_and_save ev 10 w).1) = Some ((total_step ev + 10)%Z, avg_r)
      ∧ ActorStepReturn 10 (Fin 3)
        = (if if_over_write ev then ActorPt else ActorStepReturn (total_step ev + 10) avg_r)
      ∧ if_keep_save ev = true ∧ save_ok w = true.
Proof.
  intros ev w.
  assert (SaveCheckpoint Improved (ActorStepReturn 10 (Fin 3))
            ∈ (evaluate_and_save ev 10 w).2) as Hin by (simpl; do 2 right; left).
  split; [exact Hin|].
  exact (improvement_checkpoint_matches_record ev 10 w _ Hin).
Defined.

Lemma recorder_ok_step ev steps w :
  recorder_ok ev → (0 ≤ steps)%Z →
  recorder_ok (evaluate_and_save ev steps w).1.
Proof.
  intros (Hmax & Hall & Hsorted) Hsteps.
  pose proof (evaluate_and_save_total_step ev steps w) as Htotal.
  unfold recorder_ok. rewrite Htotal.
  destruct (evaluate_and_save_recorder ev steps w)
    as [[-> ->]|(avg_r & _ & Hgt & -> & -> & _)].
  - split; [done|]. split; [|done].
    eapply Forall_impl; [exact Hall|]. intros [t r] [? ?]. simpl in *. split; [done|lia].
  - split; [|split].
    + rewrite fmap_app. unfold best. rewrite foldl_app. simpl.
      fold (best (recorder ev).*2). by rewrite Hmax.
    + apply Forall_app. split.
      * eapply Forall_impl; [exact Hall|]. intros [t r] [? ?]. simpl in *. split; [done|lia].
      * constructor; [|constructor]. simpl. split; [done|lia].
    + rewrite fmap_app. apply StronglySorted_app_2; [|done|repeat constructor].
      intros x1 x2 Hx1 Hx2. simpl in Hx2. apply list_elem_of_singleton in Hx2 as ->.
      apply list_elem_of_fmap in Hx1 as ([t r] & -> & Hin).
      rewrite Forall_forall in Hall. destruct (Hall _ Hin) as [_ ?]. simpl in *. lia.
Qed.

Lemma recorder_ok_after_calls cs : ∀ ev,
  recorder_ok ev → Forall (λ c, (0 ≤ c.1)%Z) cs →
  recorder_ok (after_calls ev cs).
Proof.
  induction cs as [|[steps w] cs IH]; intros ev Hok Hsteps; [done|].
  inversion Hsteps; subst. apply IH; [|done]. by apply recorder_ok_step.
Qed.

(** Through any run of a fresh Evaluator whose messages carry no negative
    step counts, the recorder explains [max_r]: [max_r] is the greatest
    recorded average return ([-inf] while nothing is recorded), every
    recorded return is above [-inf], and the recorded steps are in
    ascending order and not beyond the running total. *)
Theorem recorder_explains_max_r eval_per_step eval_record_step save_gap
    if_keep_save if_over_write cs :
  Forall (λ c, (0 ≤ c.1)%Z) cs →
  recorder_ok
    (after_calls (init eval_per_step eval_record_step save_gap if_keep_save if_over_write) cs).
Proof.
  intros Hsteps. apply recorder_ok_after_calls; [|done].
  split; [done|]. split; constructor.
Qed.

Lemma recorder_explains_max_r_witness :
  let cs := [(10%Z, World (Some (Fin 3)) true false);
             (10%Z, World (Some (Fin 1)) true false)] in
  Forall (λ c, (0 ≤ c.1)%Z) cs
  ∧ recorder_ok (after_calls (init 0 0 2 true false) cs).
Proof.
  intros cs.
  assert (Forall (λ c, (0 ≤ c.1)%Z) cs) as Hsteps by (repeat constructor; simpl; lia).
  split; [exact Hsteps|]. exact (recorder_explains_max_r 0 0 2 true false cs Hsteps).
Defined.

Lemma calls_cadence cs : ∀ ev lo j rj,
  Forall (λ c, (0 ≤ c.1)%Z) cs →
  (lo ≤ eval_step_counter ev)%Z → (lo ≤ total_step ev)%Z →
  calls ev cs !! j = Some rj → RunEpisodes ∈ rj.2 →
  (lo + eval_per_step ev ≤ total_step rj.1)%Z.
Proof.
  induction cs as [|[steps w] cs IH]; intros ev lo j rj Hsteps Hlo1 Hlo2; [done|].
  inversion Hsteps as [|? ? Hs Hsteps']; subst. simpl in Hs.
  pose proof (evaluate_and_save_total_step ev steps w) as Htotal.
  destruct (evaluate_and_save_config ev steps w) as (Heps & _).
  destruct (evaluate_and_save_counter ev steps w) as [Hc1 Hc2].
  destruct j as [|j]; simpl.
  - intros [= <-] Hin. apply evaluate_and_save_runs_episodes in Hin. lia.
  - intros Hj Hin. rewrite <-Heps. eapply IH; [done| | |exact Hj|exact Hin].
    + destruct (evaluate_and_save_runs_episodes ev steps w) as [Hrun _].
      assert (RunEpisodes ∈ (evaluate_and_save ev steps w).2
              ∨ RunEpisodes ∉ (evaluate_and_save ev steps w).2) as [Hin'|Hnot].
      { unfold evaluate_and_save. simpl. repeat case_match; simplify_eq;
          try (left; by left); right; intros H'; by inversion H'. }
      * rewrite Hc1 by done. lia.
      * rewrite Hc2 by done. lia.
    + lia.
Qed.

(** The cadence of evaluations: in any run whose messages carry no negative
    step counts, two calls that both run episodes are at least
    [eval_per_step] training steps apart. *)
Theorem evaluations_are_eval_per_step_apart ev cs i j ri rj :
  Forall (λ c, (0 ≤ c.1)%Z) cs →
  i < j →
  calls ev cs !! i = Some ri → RunEpisodes ∈ ri.2 →
  calls ev cs !! j = Some rj → RunEpisodes ∈ rj.2 →
  (total_step ri.1 + eval_per_step ev ≤ total_step rj.1)%Z.
Proof.
  revert ev i j. induction cs as [|[steps w] cs IH]; intros ev i j Hsteps Hij; [done|].
  inversion Hsteps as [|? ? Hs Hsteps']; subst.
  destruct (evaluate_and_save_config ev steps w) as (Heps & _).
  destruct j as [|j]; [lia|]. destruct i as [|i]; simpl.
  - intros [= <-] Hin Hj Hinj. rewrite <-Heps.
    eapply calls_cadence; [done| | |exact Hj|exact Hinj]; [|lia].
    destruct (evaluate_and_save_counter ev steps w) as [Hc1 _].
    rewrite Hc1 by done. rewrite evaluate_and_save_total_step. lia.
  - intros Hi Hin Hj Hinj. rewrite <-Heps.
    eapply (IH _ i j); [done|lia|exact Hi|exact Hin|exact Hj|exact Hinj].
Qed.

Lemma evaluations_are_eval_per_step_apart_witness :
  let ev := init 15 0 2 false false in
  let w := World (Some (Fin 1)) true false in
  let cs := [(10%Z, w); (10%Z, w); (10%Z, w)] in
  ∃ ri rj, calls ev cs !! 0 = Some ri ∧ calls ev cs !! 2 = Some rj
    ∧ (total_step ri.1 + eval_per_step ev ≤ total_step rj.1)%Z.
Proof.
  intros ev w cs. eexists _, _. split; [reflexivity|]. split; [reflexivity|].
  eapply (evaluations_are_eval_per_step_apart ev cs 0 2).
  - repeat constructor; simpl; lia.
  - lia.
  - reflexivity.
  - simpl. left.
  - reflexivity.
  - simpl. left.
Defined.

Section Budget.
Context {actor : Type}.
Implicit Types (m : @learner_msg actor) (inbox : list (@learner_msg actor * world)).

Lemma cycle_flag break_step ev m w :
  (cycle break_step ev m w).2
  = continue_flag break_step (total_step ev + msg_steps m) (stop_exists w).
Proof.
  pose proof (cycle_total_step break_step ev m w) as H. unfold cycle in *.
  destruct (match msg_actor m with Some _ => _ | None => _ end) as [ev' evs].
  simpl in *. by rewrite <-H.
Qed.

Lemma proc_loop_budget break_step s inbox : ∀ ev,
  (0 < s)%Z → (total_step ev ≤ break_step)%Z →
  Forall (λ mw, msg_steps mw.1 = s ∧ stop_exists mw.2 = false) inbox →
  ((break_step - total_step ev) `div` s < Z.of_nat (length inbox))%Z →
  (proc_loop break_step ev inbox).2 = Exited
  ∧ flags (proc_loop break_step ev inbox).1.2
    = replicate (Z.to_nat ((break_step - total_step ev) `div` s)) true ++ [false]
  ∧ total_step (proc_loop break_step ev inbox).1.1
    = (total_step ev + ((break_step - total_step ev) `div` s + 1) * s)%Z.
Proof.
  induction inbox as [|[m w] inbox IH]; intros ev Hs HT Hall Hlen.
  { simpl in Hlen. pose proof (Z.div_pos (break_step - total_step ev) s). lia. }
  apply Forall_cons in Hall as [[Hm Hw] Hall']. simpl in Hm, Hw.
  pose proof (cycle_total_step break_step ev m w) as Htotal.
  pose proof (cycle_flag break_step ev m w) as Hflag.
  pose proof (cycle_flags break_step ev m w) as Hflags.
  simpl. destruct (cycle break_step ev m w) as [[ev' evs] f]. simpl in *.
  rewrite Hw, Hm in Hflag. rewrite Hm in Htotal.
  unfold continue_flag in Hflag. rewrite andb_true_r in Hflag.
  set (T := total_step ev) in *.
  destruct (Z.leb_spec (T + s) break_step) as [Hle|Hgt]; subst f.
  - assert ((break_step - T) `div` s = (break_step - total_step ev') `div` s + 1)%Z as Hdiv.
    { rewrite Htotal. replace (break_step - T)%Z with (break_step - (T + s) + 1 * s)%Z by lia.
      rewrite Z.div_add by lia. done. }
    assert (0 ≤ (break_step - total_step ev') `div` s)%Z as Hpos.
    { apply Z.div_pos; lia. }
    destruct (IH ev') as (Hst & Hfl & Htot); [done|lia|done|lia|].
    destruct (proc_loop break_step ev' inbox) as [[ev'' evs'] st]. simpl in *.
    split; [done|]. split.
    + rewrite flags_app, Hflags, Hfl, Hdiv.
      replace (Z.to_nat (_ + 1)) with (S (Z.to_nat ((break_step - total_step ev') `div` s)))
        by lia.
      done.
    + rewrite Htot, Hdiv, Htotal. lia.
  - assert ((break_step - T) `div` s = 0)%Z as Hdiv by (apply Z.div_small; lia).
    simpl. split; [done|]. rewrite Hdiv. split; [done|]. lia.
Qed.

(** The Evaluator stops on the budget after a number of messages that is
    known beforehand: with [s > 0] steps in every message and no stop file,
    from a running total [T <= break_step], it answers [true] to the first
    [(break_step - T) / s] messages and [false] to the next one, and leaves
    its loop with a total that exceeds the budget by at most [s]. *)
Theorem proc_loop_stops_on_budget break_step s ev inbox :
  (0 < s)%Z → (total_step ev ≤ break_step)%Z →
  Forall (λ mw, msg_steps mw.1 = s ∧ stop_exists mw.2 = false) inbox →
  ((break_step - total_step ev) `div` s < Z.of_nat (length inbox))%Z →
  (proc_loop break_step ev inbox).2 = Exited
  ∧ flags (proc_loop break_step ev inbox).1.2
    = replicate (Z.to_nat ((break_step - total_step ev) `div` s)) true ++ [false]
  ∧ (break_step < total_step (proc_loop break_step ev inbox).1.1 ≤ break_step + s)%Z.
Proof.
  intros Hs HT Hall Hlen.
  destruct (proc_loop_budget break_step s inbox ev Hs HT Hall Hlen) as (? & ? & Htot).
  split; [done|]. split; [done|]. rewrite Htot.
  pose proof (Z.div_mod (break_step - total_step ev) s ltac:(lia)).
  pose proof (Z.mod_pos_bound (break_step - total_step ev) s Hs). nia.
Qed.
End Budget.

(** A budget of 25 steps and messages of 10: [true], [true], [false]. *)
Lemma proc_loop_stops_on_budget_witness :
  let ev := init 0 0 2 true false in
  let inbox := replicate 5 (LearnerMsg (Some tt) 10, World (Some (Fin 1)) true false) in
  (proc_loop 25 ev inbox).2 = Exited
  ∧ flags (proc_loop 25 ev inbox).1.2 = [true; true; false]
  ∧ (25 < total_step (proc_loop 25 ev inbox).1.1 ≤ 25 + 10)%Z.
Proof.
  intros ev inbox.
  apply (proc_loop_stops_on_budget 25 10 ev inbox).
  - lia.
  - simpl. lia.
  - repeat constructor.
  - simpl. reflexivity.
Defined.

End EvaluatorRunFacts.

(** * The loop of the Learner *)

Module LearnerLoopFacts.
Import Tensor Learner Worker WorkerFacts LearnerLoop.

Lemma worker_inbox_app i tr1 tr2 :
  worker_inbox i (tr1 ++ tr2) = worker_inbox i tr1 ++ worker_inbox i tr2.
Proof. unfold worker_inbox. apply omap_app. Qed.

Lemma updates_app tr1 tr2 : updates (tr1 ++ tr2) = updates tr1 ++ updates tr2.
Proof. unfold updates. apply omap_app. Qed.

Lemma evaluator_msgs_app tr1 tr2 :
  evaluator_msgs (tr1 ++ tr2) = evaluator_msgs tr1 ++ evaluator_msgs tr2.
Proof. unfold evaluator_msgs. apply omap_app. Qed.

Lemma worker_inbox_to_workers i a n : ∀ s,
  worker_inbox i ((λ j, ToWorker j a) <$> seq s n)
  = if decide (s ≤ i < s + n) then [a] else [].
Proof.
  induction n as [|n IH]; intros s; simpl.
  - by rewrite decide_False by lia.
  - unfold worker_inbox in *. simpl. rewrite IH.
    destruct (decide (s = i)) as [->|Hne].
    + rewrite decide_False by lia. by rewrite decide_True by lia.
    + destruct (decide (S s ≤ i < S s + n)).
      * by rewrite decide_True by lia.
      * by rewrite decide_False by lia.
Qed.

Lemma worker_inbox_broadcast args i a :
  i < num_workers args → worker_inbox i (broadcast args a) = [a].
Proof.
  intros Hi. unfold broadcast. rewrite worker_inbox_to_workers.
  by rewrite decide_True by lia.
Qed.

Lemma broadcast_updates args a : updates (broadcast args a) = [].
Proof.
  unfold broadcast, updates. induction (seq 0 (num_workers args)); [done|]. by simpl.
Qed.

Lemma broadcast_evaluator_msgs args a : evaluator_msgs (broadcast args a) = [].
Proof.
  unfold broadcast, evaluator_msgs. induction (seq 0 (num_workers args)); [done|]. by simpl.
Qed.

Lemma fmap_seq_shift {B} (g : nat → B) round n :
  (λ k, g (round + k)) <$> seq 0 (S n)
  = g round :: ((λ k, g (S round + k)) <$> seq 0 n).
Proof.
  change (seq 0 (S n)) with (0 :: seq 1 n). rewrite fmap_cons, Nat.add_0_r. f_equal.
  rewrite <-fmap_S_seq, <-list_fmap_compose. apply list_fmap_ext.
  intros ? k _. simpl. f_equal. lia.
Qed.

(** How the loop is left: by a [false] flag found by the poll, and in no
    other way; that round still updates, reports nothing to the Evaluator
    and ends with the sentinel for every Worker. *)
Lemma learner_loop_stopped nt args inputs : ∀ round recv_pipe st tr,
  learner_loop nt args round inputs recv_pipe st = (tr, Stopped) →
  ∃ n, ri_poll <$> inputs !! n = Some (Some false)
    ∧ (∀ k, k < n → ri_poll <$> inputs !! k ≠ Some (Some false))
    ∧ length (updates tr) = S n
    ∧ length (evaluator_msgs tr) = n
    ∧ ∀ i, i < num_workers args →
        worker_inbox i tr
        = (Some <$> ((λ k, fetch_actor nt (round + k) false) <$> seq 0 (S n))) ++ [None].
Proof.
  induction inputs as [|inp inputs IH]; intros round recv_pipe st tr; simpl; [done|].
  destruct (round_to_update args recv_pipe (ri_pipes inp) st) as [r| |]; try done.
  destruct (ri_poll inp) as [[|]|] eqn:Hpoll.
  - destruct (learner_loop nt args (S round) inputs _ _) as [tr' o] eqn:Hloop.
    intros [= <- ->]. apply IH in Hloop as (n & Hn & Hbefore & Hup & Hev & Hin).
    exists (S n). split; [done|]. split; [|split; [|split]].
    + intros [|k] Hk; simpl; [by rewrite Hpoll|]. apply Hbefore. lia.
    + rewrite updates_app, broadcast_updates.
      change (updates (Update ?b :: _ :: tr')) with (b :: updates tr').
      simpl. by rewrite Hup.
    + rewrite evaluator_msgs_app, broadcast_evaluator_msgs.
      change (evaluator_msgs (_ :: ToEvaluator ?a ?k _ :: tr'))
        with ((a, k) :: evaluator_msgs tr').
      simpl. by rewrite Hev.
    + intros i Hi. rewrite worker_inbox_app, worker_inbox_broadcast by done.
      change (worker_inbox i (_ :: _ :: tr')) with (worker_inbox i tr').
      rewrite (Hin i Hi).
      pose proof (fmap_seq_shift (λ k, fetch_actor nt k false) round (S n)) as Hsh.
      simpl in Hsh. simpl. rewrite Nat.add_0_r in *.
      injection Hsh as H1 H2. by rewrite H1, H2.
  - intros [= <-]. exists 0. split; [simpl; by rewrite Hpoll|]. split; [lia|].
    split; [|split].
    + rewrite updates_app, broadcast_updates.
      change (updates (Update ?b :: ?tr)) with (b :: updates tr).
      by rewrite updates_app, broadcast_updates.
    + rewrite evaluator_msgs_app, broadcast_evaluator_msgs.
      change (evaluator_msgs (Update ?b :: ?tr)) with (evaluator_msgs tr).
      by rewrite evaluator_msgs_app, broadcast_evaluator_msgs.
    + intros i Hi. rewrite worker_inbox_app, worker_inbox_broadcast by done.
      change (worker_inbox i (Update ?b :: ?tr)) with (worker_inbox i tr).
      rewrite worker_inbox_app, worker_inbox_broadcast by done.
      simpl. by rewrite Nat.add_0_r.
  - destruct (learner_loop nt args (S round) inputs _ _) as [tr' o] eqn:Hloop.
    intros [= <- ->]. apply IH in Hloop as (n & Hn & Hbefore & Hup & Hev & Hin).
    exists (S n). split; [done|]. split; [|split; [|split]].
    + intros [|k] Hk; simpl; [by rewrite Hpoll|]. apply Hbefore. lia.
    + rewrite updates_app, broadcast_updates.
      change (updates (Update ?b :: _ :: tr')) with (b :: updates tr').
      simpl. by rewrite Hup.
    + rewrite evaluator_msgs_app, broadcast_evaluator_msgs.
      change (evaluator_msgs (_ :: ToEvaluator ?a ?k _ :: tr'))
        with ((a, k) :: evaluator_msgs tr').
      simpl. by rewrite Hev.
    + intros i Hi. rewrite worker_inbox_app, worker_inbox_broadcast by done.
      change (worker_inbox i (_ :: _ :: tr')) with (worker_inbox i tr').
      rewrite (Hin i Hi).
      pose proof (fmap_seq_shift (λ k, fetch_actor nt k false) round (S n)) as Hsh.
      simpl in Hsh. simpl. rewrite Nat.add_0_r in *.
      injection Hsh as H1 H2. by rewrite H1, H2.
Qed.

Lemma not_in_broadcast args a e :
  e ∈ broadcast args a → ∃ i, e = ToWorker i a.
Proof. unfold broadcast. intros (i & -> & _)%list_elem_of_fmap. by exists i. Qed.

Lemma reward_index_names args : item_names args !! reward_index args = Some Rewards.
Proof. unfold item_names, reward_index. by destruct (if_off_policy args). Qed.

Lemma learner_loop_evaluator nt args inputs : ∀ round recv_pipe st tr o a n idx,
  learner_loop nt args round inputs recv_pipe st = (tr, o) →
  ToEvaluator a n idx ∈ tr →
  is_Some a ∧ n = num_steps args ∧ idx = reward_index args
  ∧ (nt = false → a = Some AgentAct).
Proof.
  induction inputs as [|inp inputs IH]; intros round recv_pipe st tr o a n idx; simpl.
  { intros [= <- <-] Hin. by inversion Hin. }
  destruct (round_to_update args recv_pipe (ri_pipes inp) st) as [r| |].
  2,3: intros [= <- <-] (i & ?)%not_in_broadcast; done.
  assert (∀ tr' o' act,
    learner_loop nt args (S round) inputs (recv_pipe_after r) (state_after r) = (tr', o') →
    is_Some act → (nt = false → act = Some AgentAct) →
    ToEvaluator a n idx
      ∈ broadcast args (Some (fetch_actor nt round false))
          ++ Update (handed_to_update r)
             :: ToEvaluator act (num_steps args) (reward_index args) :: tr' →
    is_Some a ∧ n = num_steps args ∧ idx = reward_index args
    ∧ (nt = false → a = Some AgentAct)) as Hcont.
  { intros tr' o' act Hloop Hact Hnt Hin.
    apply elem_of_app in Hin as [(i & ?)%not_in_broadcast|Hin]; [done|].
    apply elem_of_cons in Hin as [?|Hin]; [done|].
    apply elem_of_cons in Hin as [[= -> -> ->]|Hin]; [done|].
    by eapply IH. }
  destruct (ri_poll inp) as [[|]|].
  - destruct (learner_loop nt args (S round) inputs _ _) as [tr' o'] eqn:Hloop.
    intros [= <- <-]. eapply Hcont; [done|done|].
    intros ->. done.
  - intros [= <- <-] Hin.
    apply elem_of_app in Hin as [(i & ?)%not_in_broadcast|Hin]; [done|].
    apply elem_of_cons in Hin as [?|Hin]; [done|].
    apply elem_of_app in Hin as [(i & ?)%not_in_broadcast|Hin]; [done|].
    apply list_elem_of_singleton in Hin. done.
  - destruct (learner_loop nt args (S round) inputs _ _) as [tr' o'] eqn:Hloop.
    intros [= <- <-]. eapply Hcont; [done|done|].
    intros ->. done.
Qed.

(** Every message of the Learner to the Evaluator carries a policy, never
    [None]: the name [actor] is set to [None] when no flag is pending but
    bound again before the send.  The message counts
    [horizon_len * num_workers] steps, and its exploration reward is the
    mean of the rewards tensor, on-policy or off-policy.  Off Windows the
    policy is [agent.act] itself. *)
Theorem evaluator_always_gets_policy nt args round inputs recv_pipe st tr o a n idx :
  learner_loop nt args round inputs recv_pipe st = (tr, o) →
  ToEvaluator a n idx ∈ tr →
  is_Some a
  ∧ n = horizon_len args * num_workers args
  ∧ item_names args !! idx = Some Rewards
  ∧ (nt = false → a = Some AgentAct).
Proof.
  intros Hloop Hin.
  destruct (learner_loop_evaluator nt args inputs _ _ _ _ _ _ _ _ Hloop Hin)
    as (? & -> & -> & ?).
  split; [done|]. split; [done|]. split; [apply reward_index_names|done].
Qed.

(** Two rounds on Windows: no flag is pending in the first, so the name
    [actor] is [None] for a moment, and the Evaluator gets the copy made
    after the update. *)
Lemma evaluator_always_gets_policy_witness :
  let run := learner_loop true demo_args 0
               [RoundInput [] None; RoundInput [] (Some false)]
               [demo_msg; demo_msg] demo_state in
  ToEvaluator (Some (ActCopy 0 true)) 1 2 ∈ run.1
  ∧ is_Some (Some (ActCopy 0 true))
  ∧ 1 = horizon_len demo_args * num_workers demo_args
  ∧ item_names demo_args !! 2 = Some Rewards
  ∧ (true = false → Some (ActCopy 0 true) = Some AgentAct).
Proof.
  intros run.
  assert (ToEvaluator (Some (ActCopy 0 true)) 1 2 ∈ run.1) as Hin
    by (simpl; do 2 right; left).
  split; [exact Hin|].
  apply (evaluator_always_gets_policy true demo_args 0
           [RoundInput [] None; RoundInput [] (Some false)]
           [demo_msg; demo_msg] demo_state run.1 run.2).
  - reflexivity.
  - exact Hin.
Defined.

(** The Learner leaves its loop only on a [false] flag that its poll
    finds: the round [n] that finds the first one is its last.  It has then
    handed [n + 1] buffers to the update but reported only [n] of those
    rounds to the Evaluator, and every Worker has been sent one policy per
    round followed by the sentinel [None]. *)
Theorem learner_stops_on_first_false_flag nt args round inputs recv_pipe st tr :
  learner_loop nt args round inputs recv_pipe st = (tr, Stopped) →
  ∃ n, ri_poll <$> inputs !! n = Some (Some false)
    ∧ (∀ k, k < n → ri_poll <$> inputs !! k ≠ Some (Some false))
    ∧ length (updates tr) = S n
    ∧ length (evaluator_msgs tr) = n
    ∧ ∀ i, i < num_workers args →
        worker_inbox i tr
        = (Some <$> ((λ k, fetch_actor nt (round + k) false) <$> seq 0 (S n))) ++ [None].
Proof. apply learner_loop_stopped. Qed.

Lemma learner_stops_on_first_false_flag_witness :
  let inputs := [RoundInput [] None; RoundInput [] (Some true); RoundInput [] (Some false);
                 RoundInput [] (Some true)] in
  let run := learner_loop false demo_args 0 inputs
               [demo_msg; demo_msg; demo_msg; demo_msg] demo_state in
  run.2 = Stopped
  ∧ ∃ n, ri_poll <$> inputs !! n = Some (Some false)
      ∧ (∀ k, k < n → ri_poll <$> inputs !! k ≠ Some (Some false))
      ∧ length (updates run.1) = S n
      ∧ length (evaluator_msgs run.1) = n
      ∧ ∀ i, i < num_workers demo_args →
          worker_inbox i run.1
          = (Some <$> ((λ k, fetch_actor false (0 + k) false) <$> seq 0 (S n))) ++ [None].
Proof.
  intros inputs run. split; [reflexivity|].
  apply (learner_stops_on_first_false_flag false demo_args 0 inputs
           [demo_msg; demo_msg; demo_msg; demo_msg] demo_state run.1).
  reflexivity.
Defined.

Section WithWorker.
Context {wstate : Type}.
Variable explore_env : actor_obj → wstate → option (list tensor * wstate).
Variable agent_last_state : wstate → tensor.

(** Learner and Worker end together: when the Learner has returned, a
    Worker that runs on what the Learner sent it and whose exploration
    never raises returns too, with exit code 0, having sent one message for
    each buffer the Learner handed to the update, each with its own id. *)
Theorem workers_stop_with_learner nt args round inputs recv_pipe st tr i ws :
  learner_loop nt args round inputs recv_pipe st = (tr, Stopped) →
  i < num_workers args →
  (worker_loop explore_env agent_last_state i (worker_inbox i tr) ws).2 ≠ Crashed →
  (worker_loop explore_env agent_last_state i (worker_inbox i tr) ws).2 = Exited
  ∧ exit_code (worker_loop explore_env agent_last_state i (worker_inbox i tr) ws).2
    = Some 0%Z
  ∧ length (sends (worker_loop explore_env agent_last_state i (worker_inbox i tr) ws).1)
    = length (updates tr)
  ∧ ∀ m, m ∈ sends (worker_loop explore_env agent_last_state i (worker_inbox i tr) ws).1 →
      msg_worker_id m = i.
Proof.
  intros Hloop Hi Hs.
  destruct (learner_loop_stopped nt args inputs _ _ _ _ Hloop)
    as (n & _ & _ & Hup & _ & Hin).
  rewrite (Hin i Hi) in *.
  assert (length ((λ k, fetch_actor nt (round + k) false) <$> seq 0 (S n)) = S n) as Hpre
    by (by rewrite length_fmap, length_seq).
  revert Hs Hpre.
  generalize ((λ k, fetch_actor nt (round + k) false) <$> seq 0 (S n)).
  intros pre Hs Hpre.
  destruct (worker_loop explore_env agent_last_state i ((Some <$> pre) ++ [None]) ws)
    as [wtr s] eqn:Hw.
  change ((wtr, s).2) with s in *. change ((wtr, s).1) with wtr in *.
  destruct (worker_loop_reaches_sentinel explore_env agent_last_state i pre [] ws wtr s Hw Hs)
    as (-> & _ & Hpol).
  pose proof (worker_loop_rounds explore_env agent_last_state i _ ws wtr Exited Hw Hs) as Hr.
  apply rounds_sends in Hr as [Hids Hlen].
  split; [done|]. split; [done|]. split; [|done].
  by rewrite Hlen, Hpol, Hup, Hpre.
Qed.
End WithWorker.

Lemma workers_stop_with_learner_witness :
  let inputs := [RoundInput [] None; RoundInput [] (Some false)] in
  let tr := (learner_loop false demo_args 0 inputs [demo_msg; demo_msg] demo_state).1 in
  let run := worker_loop (λ a ws, Some (msg_buffer_items demo_msg, S ws))
               (λ _, zeros [1; 3]) 0 (worker_inbox 0 tr) 0 in
  run.2 = Exited ∧ exit_code run.2 = Some 0%Z
  ∧ length (sends run.1) = length (updates tr)
  ∧ ∀ m, m ∈ sends run.1 → msg_worker_id m = 0.
Proof.
  intros inputs tr run.
  apply (workers_stop_with_learner _ _ false demo_args 0 inputs [demo_msg; demo_msg]
           demo_state tr 0 0).
  - reflexivity.
  - simpl. lia.
  - simpl. discriminate.
Defined.

End LearnerLoopFacts.

(** * Which Learner gets which id *)

Module TopologyFacts.
Import Tensor Learner FrameFacts Topology.

Lemma index_Some x l : ∀ k,
  index x l = Some k → l !! k = Some x ∧ ∀ j, j < k → l !! j ≠ Some x.
Proof.
  induction l as [|y l IH]; intros k; simpl; [done|].
  destruct (decide (y = x)) as [->|Hne].
  - intros [= <-]. split; [done|]. lia.
  - destruct (index x l) as [k'|] eqn:Hi; [|done]. intros [= <-].
    destruct (IH k' eq_refl) as [Hk Hj]. split; [done|].
    intros [|j] Hlt; simpl; [congruence|]. apply Hj. lia.
Qed.

Lemma index_first x l : ∀ k,
  l !! k = Some x → (∀ j, j < k → l !! j ≠ Some x) → index x l = Some k.
Proof.
  induction l as [|y l IH]; intros k; simpl; [done|].
  destruct k as [|k]; simpl.
  - intros [= ->] _. by rewrite decide_True.
  - intros Hk Hj. rewrite decide_False.
    + rewrite (IH k); [done|done|]. intros j Hlt. apply (Hj (S j)). lia.
    + intros ->. by apply (Hj 0); [lia|].
Qed.

Lemma index_elem x l : x ∈ l → ∃ k, index x l = Some k.
Proof.
  induction l as [|y l IH]; [by intros ?%elem_of_nil|].
  simpl. destruct (decide (y = x)) as [->|Hne]; [by eexists|].
  intros [->|Hin]%elem_of_cons; [done|]. destruct (IH Hin) as [k ->]. by eexists.
Qed.

Lemma learner_id_of_index ids g :
  g ∈ ids → learner_id_of ids g = index g ids.
Proof.
  unfold learner_id_of. destruct ids; [by intros ?%elem_of_nil|done].
Qed.

Lemma not_NoDup_repeats (l : list Z) :
  ¬ NoDup l → ∃ j k x, j < k ∧ l !! j = Some x ∧ l !! k = Some x.
Proof.
  induction l as [|x l IH]; intros Hnd.
  - destruct Hnd. constructor.
  - destruct (decide (x ∈ l)) as [Hin|Hnotin].
    + apply list_elem_of_lookup in Hin as [k Hk].
      exists 0, (S k), x. split; [lia|done].
    + destruct IH as (j & k & y & Hlt & Hj & Hk).
      { intros Hl. apply Hnd. by constructor. }
      exists (S j), (S k), y. split; [lia|done].
Qed.

Lemma ring_send_keeps_others args tensors pipes pipes1 k :
  ring_send args tensors pipes = Ok pipes1 →
  k ≠ learner_id args → pipes1 !! k = pipes !! k.
Proof.
  unfold ring_send. destruct (local_segment _ _); try done. simpl.
  destruct (num_communications args); [by intros [= <-]|].
  destruct (pipes !! learner_id args); [|done].
  intros [= <-] Hk. by apply list_lookup_insert_ne.
Qed.

Lemma send_each_keeps_others args p : ∀ procs pipes pipes1,
  send_each args procs pipes = Ok pipes1 →
  p ∉ procs.*1 → pipes1 !! p = pipes !! p.
Proof.
  induction procs as [|[k ts] procs IH]; intros pipes pipes1; simpl.
  - by intros [= <-].
  - destruct (ring_send _ ts pipes) as [pipes'| |] eqn:Hs; try done. simpl.
    intros Hrest Hp. apply not_elem_of_cons in Hp as [Hne Hp].
    rewrite (IH _ _ Hrest Hp). by eapply ring_send_keeps_others.
Qed.

(** The Learners built for the GPUs [learner_gpu_ids] all find their
    [gpu_id] in the list (no [ValueError]), and the id of the Learner built
    [k]-th is the first position of its GPU, so at most [k].  The ids are
    [0, 1, ..., L-1] in the order of the list exactly when no GPU is listed
    twice. *)
Theorem learner_ids_are_positions_iff_distinct ids :
  (∀ k g, ids !! k = Some g →
     ∃ i, spawned_learner_ids ids !! k = Some (Some i) ∧ i ≤ k ∧ ids !! i = Some g
          ∧ ∀ j, j < i → ids !! j ≠ Some g)
  ∧ (spawned_learner_ids ids = Some <$> seq 0 (length ids) ↔ NoDup ids).
Proof.
  assert (∀ k g, ids !! k = Some g →
     ∃ i, spawned_learner_ids ids !! k = Some (Some i) ∧ i ≤ k ∧ ids !! i = Some g
          ∧ ∀ j, j < i → ids !! j ≠ Some g) as Hpos.
  { intros k g Hk. unfold spawned_learner_ids. rewrite list_lookup_fmap, Hk. simpl.
    assert (g ∈ ids) as Hin by (by eapply list_elem_of_lookup_2).
    rewrite learner_id_of_index by done.
    destruct (index_elem g ids Hin) as [i Hi]. rewrite Hi.
    destruct (index_Some g ids i Hi) as [Hg Hfirst].
    exists i. split; [done|]. split; [|done].
    destruct (decide (i ≤ k)); [done|]. exfalso. apply (Hfirst k); [lia|done]. }
  split; [exact Hpos|].
  split.
  - intros Heq. apply NoDup_alt. intros i j g Hi Hj.
    destruct (Hpos i g Hi) as (i' & Hi' & _ & Hgi & Hfi).
    destruct (Hpos j g Hj) as (j' & Hj' & _ & Hgj & Hfj).
    rewrite Heq, list_lookup_fmap in Hi', Hj'.
    assert (i < length ids) as Hli by (by eapply lookup_lt_Some).
    assert (j < length ids) as Hlj by (by eapply lookup_lt_Some).
    rewrite lookup_seq_lt in Hi', Hj' by done. simpl in *.
    injection Hi' as <-. injection Hj' as <-.
    destruct (Nat.lt_trichotomy i j) as [Hlt|[->|Hlt]]; [|done|].
    + by destruct (Hfj i Hlt).
    + by destruct (Hfi j Hlt).
  - intros Hnd. apply list_eq. intros k. rewrite list_lookup_fmap.
    destruct (ids !! k) as [g|] eqn:Hk.
    + destruct (Hpos k g Hk) as (i & -> & _ & Hi & _).
      assert (k < length ids) as Hlk by (by eapply lookup_lt_Some).
      rewrite lookup_seq_lt by done. simpl.
      by rewrite (proj1 (NoDup_alt ids) Hnd i k g Hi Hk).
    + unfold spawned_learner_ids. rewrite list_lookup_fmap, Hk.
      apply lookup_ge_None in Hk. by rewrite lookup_seq_ge.
Qed.

(** A GPU listed twice starves the exchange.  Two Learners then compute the
    same [learner_id] and send on the same pipe, so the pipe of some
    position [p] is never written: it is empty after all the send loops, in
    whatever order they run, and the receive loop of every Learner, which
    reads the pipe of every position but its own, does not return while it
    is. *)
Theorem repeated_gpu_id_starves_exchange args ids procs pipes :
  ¬ NoDup ids →
  num_learners args = num_learners_of ids →
  Some <$> procs.*1 ≡ₚ spawned_learner_ids ids →
  send_each args procs (learners_pipe args) = Ok pipes →
  ∃ p, p < length ids
    ∧ pipes !! p = Some []
    ∧ ∀ me tensors pipes' r,
        me ∈ procs.*1 → pipes' !! p = Some [] →
        ring_recv (learner_args args me) tensors pipes' ≠ Ok r.
Proof.
  intros Hdup HL Hprocs Hsend.
  destruct (not_NoDup_repeats ids Hdup) as (j & p & g & Hlt & Hj & Hp).
  assert (p < length ids) as Hpl by (by eapply lookup_lt_Some).
  unfold num_learners_of in HL. rewrite Nat.max_r in HL by lia.
  assert (∀ me, me ∈ procs.*1 → me ≠ p ∧ me < length ids) as Hids.
  { intros me Hme.
    assert (Some me ∈ spawned_learner_ids ids) as Hin.
    { rewrite <-Hprocs. by apply list_elem_of_fmap_2. }
    unfold spawned_learner_ids in Hin.
    apply list_elem_of_fmap in Hin as (g' & Hid & Hg').
    rewrite learner_id_of_index in Hid by done. symmetry in Hid.
    destruct (index_Some g' ids me Hid) as [Hme' Hfirst].
    split; [|by eapply lookup_lt_Some].
    intros ->. apply (Hfirst j Hlt). congruence. }
  exists p. split; [done|]. split.
  - rewrite (send_each_keeps_others args p _ _ _ Hsend).
    + unfold learners_pipe. rewrite HL. by apply lookup_replicate_2.
    + intros Hin. by destruct (Hids p Hin).
  - intros me tensors pipes' [ts pipes''] Hme Hempty Hrecv.
    destruct (Hids me Hme) as [Hne Hml].
    destruct (ring_recv_pops_peers _ _ _ _ _ Hrecv) as [_ Hpop]; [simpl; lia|].
    destruct (Hpop p) as (x & q & Hx & _); [simpl; lia|done|]. congruence.
Qed.

(** Two Learners for GPU 0: both take id 0, pipe 1 stays empty. *)
Lemma repeated_gpu_id_starves_exchange_witness :
  let args := Config 1 1 1 3 1 false true 2 0 in
  let buf := init_buffer_items_tensor args in
  ∃ pipes, send_each args [(0, buf); (0, buf)] (learners_pipe args) = Ok pipes
    ∧ ∃ p, p < 2 ∧ pipes !! p = Some []
        ∧ ∀ me tensors pipes' r,
            me ∈ [0; 0] → pipes' !! p = Some [] →
            ring_recv (learner_args args me) tensors pipes' ≠ Ok r.
Proof.
  intros args buf. eexists. split; [reflexivity|].
  apply (repeated_gpu_id_starves_exchange args [0%Z; 0%Z] [(0, buf); (0, buf)]).
  - intros Hnd. apply NoDup_cons in Hnd as [Hnotin _]. apply Hnotin. by left.
  - reflexivity.
  - reflexivity.
  - reflexivity.
Defined.

End TopologyFacts.

(** * Evaluation episodes *)

Module EpisodeFacts.
Import Evaluator EvaluatorRunFacts Episode.

Section Env.
Context {obs action env_state reward : Type}.
Variable zero : reward.
Variable add : reward → reward → reward.
Implicit Types (e : @env obs action env_state reward) (pi : @policy obs action).

Lemma max_step_of_pos e : (1 ≤ max_step_of e)%Z.
Proof.
  unfold max_step_of.
  destruct (max_step_attr e) as [[m|]|]; [| |destruct (max_episode_steps_attr e) as [[m|]|]];
    try lia; case_match; lia.
Qed.

Lemma episode_loop_steps e pi :
  reports_no_length e →
  ∀ remaining k state cum s r n s',
    episode_loop add e pi remaining k state cum s = (Some (r, n), s') →
    (k + 1 ≤ n ≤ k + 1 + Z.of_nat remaining)%Z.
Proof.
  intros Hno. induction remaining as [|remaining IH]; intros k state cum s r n s'; simpl;
    (destruct (act pi state) as [a|]; [|done]);
    pose proof (Hno s a) as Hl;
    destruct (step e s a) as [[out|] s1]; simpl; try done;
    destruct (unpack out) as [[[[state1 r1] d] info]|] eqn:Hu; simpl; try done;
    specialize (Hl out state1 r1 d info eq_refl Hu);
    destruct d.
  - rewrite Hl. simpl. intros [= _ <- _]. lia.
  - intros [= _ <- _]. lia.
  - rewrite Hl. simpl. intros [= _ <- _]. lia.
  - intros Hloop. apply IH in Hloop. lia.
Qed.

Lemma episode_loop_never_done e pi :
  never_done e pi →
  ∀ remaining k state cum s,
    ∃ r s', episode_loop add e pi remaining k state cum s
            = (Some (r, (k + 1 + Z.of_nat remaining)%Z), s').
Proof.
  intros (_ & Hact & Hstep).
  induction remaining as [|remaining IH]; intros k state cum s; simpl;
    (destruct (Hact state) as [a ->]);
    destruct (Hstep s a) as (out & state1 & r1 & info & Hout & Hu);
    destruct (step e s a) as [out' s1]; simpl in Hout; subst out'; simpl;
    rewrite Hu; simpl.
  - eexists _, _. do 3 f_equal. lia.
  - destruct (IH (k + 1)%Z state1 (add cum r1) s1) as (r & s' & ->).
    eexists _, _. do 3 f_equal. lia.
Qed.

Lemma get_rewards_and_steps_steps e pi s r n s' :
  reports_no_length e →
  get_rewards_and_steps zero add e pi s = (Returns (Some (r, n)), s') →
  (1 ≤ n ≤ max_step_of e)%Z.
Proof.
  intros Hno. unfold get_rewards_and_steps.
  destruct (has_parameters pi); simpl; [|done].
  destruct (reset e s) as [[state|] s1]; [|done].
  destruct (episode_loop _ _ _ _ _ _ _ _) as [res s2] eqn:Hloop.
  intros [= -> ->]. apply (episode_loop_steps e pi Hno) in Hloop.
  pose proof (max_step_of_pos e). lia.
Qed.

(** An episode never counts more steps than [max_step], and at least one:
    if the environment reports no episode length of its own, the step count
    that [get_rewards_and_steps] returns lies between 1 and [max_step],
    where [max_step] is the attribute [max_step] of the environment, else
    [_max_episode_steps], and 10000 when what is found is [None] or not
    positive. *)
Theorem episode_steps_within_max_step e pi s r n s' :
  reports_no_length e →
  get_rewards_and_steps zero add e pi s = (Returns (Some (r, n)), s') →
  (1 ≤ n ≤ max_step_of e)%Z.
Proof. apply get_rewards_and_steps_steps. Qed.

(** An episode that never ends is cut: with an environment that never says
    [done] and nothing that fails, [get_rewards_and_steps] returns after
    exactly [max_step] steps, and counts [max_step]. *)
Theorem episode_is_cut_at_max_step e pi s :
  never_done e pi → has_parameters pi = true →
  ∃ r s', get_rewards_and_steps zero add e pi s
          = (Returns (Some (r, max_step_of e)), s').
Proof.
  intros Hnever Hpar. unfold get_rewards_and_steps. rewrite Hpar. simpl.
  destruct Hnever as (Hreset & Hrest). destruct (Hreset s) as [state Hs].
  destruct (reset e s) as [st s1]. simpl in Hs. subst st.
  destruct (episode_loop_never_done e pi (conj Hreset Hrest)
              (Z.to_nat (max_step_of e) - 1) 0 state zero s1) as (r & s' & ->).
  exists r, s'. do 4 f_equal. pose proof (max_step_of_pos e). lia.
Qed.

Lemma run_episodes_rows e pi (P : reward * Z → Prop) :
  (∀ s r n s', get_rewards_and_steps zero add e pi s = (Returns (Some (r, n)), s') →
               P (r, n)) →
  ∀ n s acc rows s',
    run_episodes zero add e pi n s acc = (Some rows, s') →
    ∃ new, rows = acc ++ new ∧ length new ≤ n ∧ Forall P new.
Proof.
  intros HP. induction n as [|n IH]; intros s acc rows s'; simpl.
  - intros [= <- <-]. exists []. rewrite app_nil_r. split; [done|]. split; [done|constructor].
  - destruct (get_rewards_and_steps zero add e pi s) as [[[[r k]|]|] s1] eqn:Hep; [| |done].
    + intros (new & -> & Hlen & Hall)%IH. exists ((r, k) :: new).
      rewrite <-app_assoc. split; [done|]. split; [simpl; lia|].
      constructor; [by eapply HP|done].
    + intros (new & -> & Hlen & Hall)%IH. exists new. split; [done|]. split; [lia|done].
Qed.

(** The tensor of a single-env evaluation has at most [eval_times] rows,
    one for each episode that returned a result, and the step count of
    every row lies between 1 and [max_step] (for an environment that
    reports no episode length of its own). *)
Theorem single_env_rows_are_bounded eval_times e pi s rows s' :
  get_cumulative_rewards_and_step_single_env zero add eval_times e pi s = (Some rows, s') →
  length rows ≤ Z.to_nat eval_times
  ∧ (reports_no_length e → Forall (λ row, (1 ≤ row.2 ≤ max_step_of e)%Z) rows).
Proof.
  intros Hrun. split.
  - destruct (run_episodes_rows e pi (λ _, True)) with (2 := Hrun)
      as (new & -> & Hlen & _); done.
  - intros Hno.
    destruct (run_episodes_rows e pi (λ row, (1 ≤ row.2 ≤ max_step_of e)%Z)) with
      (1 := λ s r n s', get_rewards_and_steps_steps e pi s r n s' Hno) (2 := Hrun)
      as (new & -> & _ & Hall).
    done.
Qed.

Lemma run_episodes_no_parameters e pi n s acc :
  has_parameters pi = false →
  (run_episodes zero add e pi (S n) s acc).1 = None.
Proof. intros Hpar. simpl. unfold get_rewards_and_steps. by rewrite Hpar. Qed.

(** A record needs an episode: an evaluation of a single environment adds
    a tuple to the recorder only if [eval_times] is positive, the policy has
    parameters and at least one episode returned a result.  With
    [eval_times = 0] every evaluation is a failed one. *)
Theorem record_needs_an_episode mean eval_times e pi s ev steps save_ok stop_exists :
  recorder (evaluate_and_save_single_env zero add mean eval_times e pi s
              ev steps save_ok stop_exists).1 ≠ recorder ev →
  (0 < eval_times)%Z
  ∧ has_parameters pi = true
  ∧ ∃ row rows s',
      get_cumulative_rewards_and_step_single_env zero add eval_times e pi s
      = (Some (row :: rows), s').
Proof.
  unfold evaluate_and_save_single_env. intros Hrec.
  destruct (evaluate_and_save_recorder ev steps
              (World (episodes_of mean
                 (get_cumulative_rewards_and_step_single_env zero add eval_times e pi s).1)
                 save_ok stop_exists))
    as [[Hsame _]|(avg_r & Hep & _)]; [done|].
  simpl in Hep.
  destruct (get_cumulative_rewards_and_step_single_env zero add eval_times e pi s)
    as [[[|row rows]|] s'] eqn:Hrun; try done.
  unfold get_cumulative_rewards_and_step_single_env in Hrun.
  destruct (Z.to_nat eval_times) as [|n] eqn:Hn; [done|].
  split; [lia|]. split; [|by eauto].
  destruct (has_parameters pi) eqn:Hpar; [done|].
  pose proof (run_episodes_no_parameters e pi n s [] Hpar) as Hnone.
  by rewrite Hrun in Hnone.
Qed.
End Env.

(** An environment that ends every episode at its third step, and no
    [max_step]: three steps are counted. *)
Lemma episode_steps_within_max_step_witness :
  ∃ r n s', get_rewards_and_steps 0%Z Z.add (counter_env None (Some 3%nat)) unit_policy 0%nat
            = (Returns (Some (r, n)), s')
    ∧ (1 ≤ n ≤ max_step_of (counter_env None (Some 3%nat)))%Z.
Proof.
  eexists _, _, _. split; [reflexivity|].
  eapply (episode_steps_within_max_step 0%Z Z.add (counter_env None (Some 3%nat)) unit_policy 0%nat).
  - intros s a out state r done info. simpl. intros [= <-] [= _ _ _ <-]. reflexivity.
  - reflexivity.
Defined.

(** An environment that never ends an episode, with [max_step = 5]. *)
Lemma episode_is_cut_at_max_step_witness :
  ∃ r s', get_rewards_and_steps 0%Z Z.add (counter_env (Some (Some 5%Z)) None) unit_policy 0%nat
          = (Returns (Some (r, max_step_of (counter_env (Some (Some 5%Z)) None))), s').
Proof.
  apply (episode_is_cut_at_max_step 0%Z Z.add (counter_env (Some (Some 5%Z)) None)
           unit_policy 0%nat).
  - split; [by eexists|]. split; [by eexists|].
    intros s a. eexists _, _, _, _. split; reflexivity.
  - reflexivity.
Defined.

(** Two episodes of three steps each. *)
Lemma single_env_rows_are_bounded_witness :
  ∃ rows s',
    get_cumulative_rewards_and_step_single_env 0%Z Z.add 2
      (counter_env None (Some 3%nat)) unit_policy 0%nat = (Some rows, s')
    ∧ length rows ≤ Z.to_nat 2
    ∧ Forall (λ row, (1 ≤ row.2 ≤ max_step_of (counter_env None (Some 3%nat)))%Z) rows.
Proof.
  eexists _, _. split; [reflexivity|].
  destruct (single_env_rows_are_bounded 0%Z Z.add 2 (counter_env None (Some 3%nat))
              unit_policy 0%nat _ _ eq_refl) as [Hlen Hsteps].
  split; [exact Hlen|]. apply Hsteps.
  intros s a out state r done info. simpl. intros [= <-] [= _ _ _ <-]. reflexivity.
Defined.

(** A first evaluation over two episodes with mean return 3. *)
Lemma record_needs_an_episode_witness :
  let e := counter_env None (Some 3%nat) in
  let ev := init 0 0 2 true false in
  recorder (evaluate_and_save_single_env 0%Z Z.add (λ _, Fin 3) 2 e unit_policy 0%nat
              ev 10 true false).1 ≠ recorder ev
  ∧ (0 < 2)%Z
  ∧ has_parameters unit_policy = true
  ∧ ∃ row rows s',
      get_cumulative_rewards_and_step_single_env 0%Z Z.add 2 e unit_policy 0%nat
      = (Some (row :: rows), s').
Proof.
  intros e ev.
  assert (recorder (evaluate_and_save_single_env 0%Z Z.add (λ _, Fin 3) 2 e unit_policy 0%nat
                      ev 10 true false).1 ≠ recorder ev) as Hrec
    by (vm_compute; discriminate).
  split; [exact Hrec|].
  exact (record_needs_an_episode 0%Z Z.add (λ _, Fin 3) 2 e unit_policy 0%nat
           ev 10 true false Hrec).
Defined.

End EpisodeFacts.

(** * Training in one process *)

Module SingleProcessFacts.
Import Evaluator EvaluatorFacts SingleProcess.





End SingleProcessFacts.

(** * The last states of the Workers *)

Module LastStateFacts.
Import Tensor TensorFacts Learner LearnerFacts Frame.

Lemma in_bounds_rows n f idx :
  in_bounds (n :: f) idx = true →
  ∃ c r, idx = c :: r ∧ c < n ∧ in_bounds f r = true.
Proof.
  destruct idx as [|c r]; simpl; [done|].
  rewrite andb_true_iff, Nat.ltb_lt. intros [? ?]. eauto.
Qed.

Lemma slice_axis_rows n f i j t :
  shape t = n :: f →
  ∃ s, slice_axis 0 i j t = Ok s
       ∧ shape s = (slice_hi j n - slice_lo i n) :: f
       ∧ ∀ c r, tget s (c :: r) = tget t ((slice_lo i n + c) :: r).
Proof.
  intros Hs. unfold slice_axis. rewrite Hs. simpl. eexists. split; [done|].
  by split.
Qed.

Lemma assign_axis_rows_shape i j buf src :
  shape (assign_axis 0 i j buf src) = shape buf.
Proof. unfold assign_axis. by destruct (shape buf !! 0). Qed.

Lemma assign_axis_rows_get n f i j buf src c r :
  shape buf = n :: f →
  tget (assign_axis 0 i j buf src) (c :: r) =
    if (slice_lo i n <=? c) && (c <? slice_hi j n)
    then tget src ((c - slice_lo i n) :: r)
    else tget buf (c :: r).
Proof. intros Hs. unfold assign_axis. by rewrite Hs. Qed.

Lemma rows_hold_assign n f i j buf src :
  shape buf = n :: f → i ≤ j → j ≤ n →
  shape src = (j - i) :: f →
  rows_hold i j (assign_axis 0 i j buf src) src.
Proof.
  intros Hb Hij Hjn Hsrc.
  destruct (slice_axis_rows n f i j (assign_axis 0 i j buf src))
    as (s & Hs & Hsh & Hget); [by rewrite assign_axis_rows_shape|].
  exists s. split; [done|]. unfold slice_lo, slice_hi in *.
  split.
  - rewrite Hsh, Hsrc. f_equal. lia.
  - intros idx Hidx. rewrite Hsh in Hidx.
    apply in_bounds_rows in Hidx as (c & r & -> & Hc & Hr).
    rewrite Hget, (assign_axis_rows_get n f) by done.
    unfold slice_lo, slice_hi.
    replace ((i `min` n <=? i `min` n + c) && (i `min` n + c <? j `min` n))
      with true.
    + do 2 f_equal. lia.
    + symmetry. apply andb_true_iff. rewrite Nat.leb_le, Nat.ltb_lt. lia.
Qed.

Lemma rows_hold_assign_other n f i j a b buf src x :
  shape buf = n :: f →
  b ≤ i ∨ j ≤ a →
  rows_hold a b buf x →
  rows_hold a b (assign_axis 0 i j buf src) x.
Proof.
  intros Hb Hdisj (s & Hs & Hsh & Hget).
  destruct (slice_axis_rows n f a b buf Hb) as (s0 & Hs0 & Hsh0 & Hget0).
  assert (s0 = s) as -> by congruence.
  destruct (slice_axis_rows n f a b (assign_axis 0 i j buf src))
    as (s' & Hs' & Hsh' & Hget'); [by rewrite assign_axis_rows_shape|].
  exists s'. split; [done|]. split; [congruence|].
  intros idx Hidx. rewrite <-Hget by congruence.
  rewrite Hsh' in Hidx.
  apply in_bounds_rows in Hidx as (c & r & -> & Hc & Hr).
  rewrite Hget', Hget0, (assign_axis_rows_get n f) by done.
  unfold slice_lo, slice_hi in *.
  replace ((i `min` n <=? a `min` n + c) && (a `min` n + c <? j `min` n))
    with false; [done|].
  symmetry. apply andb_false_iff. rewrite Nat.leb_gt, Nat.ltb_ge. lia.
Qed.

Lemma write_segment_rows_exact n f i j buf src :
  shape buf = n :: f → i ≤ j → j ≤ n →
  shape src = (j - i) :: f →
  write_segment 0 i j buf src = Ok (assign_axis 0 i j buf src).
Proof.
  intros Hb Hij Hjn Hsrc. unfold write_segment.
  destruct (slice_axis_rows n f i j buf Hb) as (s & -> & Hsh & _). simpl.
  rewrite decide_True; [done|].
  rewrite Hsh, Hsrc. unfold slice_lo, slice_hi. f_equal. lia.
Qed.

Lemma gather_loop_last_state args n d : ∀ pipe st st' rest,
  shape (last_state st) = [n; d] →
  NoDup (msg_worker_id <$> pipe) →
  (∀ m, m ∈ pipe →
     num_envs args * (msg_worker_id m + 1) ≤ n
     ∧ shape (msg_last_state m) = [num_envs args; d]) →
  gather_loop args (length pipe) pipe st = Ok (st', rest) →
  shape (last_state st') = [n; d]
  ∧ (∀ m, m ∈ pipe →
       rows_hold (worker_range args m).1 (worker_range args m).2
                 (last_state st') (msg_last_state m))
  ∧ (∀ a b x,
       (∀ m, m ∈ pipe → b ≤ (worker_range args m).1 ∨ (worker_range args m).2 ≤ a) →
       rows_hold a b (last_state st) x → rows_hold a b (last_state st') x).
Proof.
  induction pipe as [|m pipe IH]; intros st st' rest Hls Hnd Hmsgs; simpl.
  - intros [= <- <-]. split; [done|]. split; [|done]. intros m Hm. by inversion Hm.
  - simpl in Hnd. apply NoDup_cons in Hnd as [Hm Hnd].
    destruct (Hmsgs m) as [Hle Hsh]; [by left|].
    set (E := num_envs args) in *. set (w := msg_worker_id m) in *.
    unfold recv_worker. fold E w.
    destruct (write_items _ _ (msg_buffer_items m) _) as [ts| |]; try done. simpl.
    rewrite (write_segment_rows_exact n [d]); [|done|lia|lia|].
    2: { rewrite Hsh. f_equal. lia. }
    simpl. intros Hloop.
    pose proof (λ H1 H3, IH _ _ _ H1 Hnd H3 Hloop) as IH'.
    destruct IH' as (Hls' & Hall & Hkeep).
    { simpl. by rewrite assign_axis_rows_shape. }
    { intros m' Hm'. apply Hmsgs. by right. }
    split; [done|]. split.
    + intros m' [->|Hm']%elem_of_cons; [|by apply Hall].
      apply Hkeep.
      * intros m' Hm'. unfold worker_range. simpl. fold E w.
        assert (msg_worker_id m' ≠ w) as Hne.
        { intros Heq. apply Hm. rewrite <-Heq. by apply list_elem_of_fmap_2. }
        destruct (decide (msg_worker_id m' < w)); [right|left]; nia.
      * simpl. unfold worker_range. simpl. fold E w.
        apply (rows_hold_assign n [d]); [done|lia|lia|].
        rewrite Hsh. f_equal. lia.
    + intros a b x Hd Hx. apply Hkeep.
      * intros m' Hm'. apply Hd. by right.
      * simpl. apply (rows_hold_assign_other n [d]); [done| |done].
        apply (Hd m). by left.
Qed.

(** The last states are placed by [worker_id] too.  When one message of
    each Worker has arrived, in any order, each with a [last_state] of shape
    [(num_envs, state_dim)], a gather that returns has emptied the pipe, and
    rows [E*i, E*(i+1)) of [agent.last_state] hold exactly the last state
    that Worker [i] sent, whatever the trajectories were. *)
Theorem gather_places_last_state args st sent lasts pipe st' rest :
  shape (last_state st) = [num_seqs args; state_dim args] →
  1 ≤ num_learners args →
  (∀ i, i < num_workers args → shape (lasts i) = [num_envs args; state_dim args]) →
  pipe ≡ₚ (λ i, WorkerMsg i (sent i) (lasts i)) <$> seq 0 (num_workers args) →
  gather args pipe st = Ok (st', rest) →
  rest = []
  ∧ shape (last_state st') = [num_seqs args; state_dim args]
  ∧ ∀ i, i < num_workers args →
      rows_hold (num_envs args * i) (num_envs args * (i + 1))
                (last_state st') (lasts i).
Proof.
  intros Hls HL Hlasts Hperm Hg.
  set (mk := λ i, WorkerMsg i (sent i) (lasts i)) in *.
  assert (length pipe = num_workers args) as Hlen.
  { by rewrite Hperm, length_fmap, length_seq. }
  assert (∀ m, m ∈ pipe ↔ ∃ i, m = mk i ∧ i < num_workers args) as Hin.
  { intros m. rewrite Hperm, list_elem_of_fmap.
    setoid_rewrite elem_of_seq. split.
    - intros (i & -> & _ & Hi). eauto.
    - intros (i & -> & Hi). exists i. split; [done|lia]. }
  unfold gather in Hg. rewrite <-Hlen in Hg.
  destruct (gather_loop_last_state args (num_seqs args) (state_dim args) pipe st st' rest)
    as (Hls' & Hall & _); try done.
  - rewrite Hperm, <-list_fmap_compose.
    change (msg_worker_id ∘ mk) with (@id nat). rewrite list_fmap_id.
    apply NoDup_seq.
  - intros m (i & -> & Hi)%Hin. simpl. split; [|by apply Hlasts].
    unfold num_seqs.
    transitivity (num_envs args * num_workers args * 1); [|by apply Nat.mul_le_mono_l].
    rewrite Nat.mul_1_r. apply Nat.mul_le_mono_l. lia.
  - split.
    + destruct (FrameFacts.gather_loop_frame args 0 0 _ _ _ _ _ Hg) as (_ & -> & _).
      by rewrite drop_all.
    + split; [done|]. intros i Hi. apply (Hall (mk i)). apply Hin. eauto.
Qed.

(** Worker 1 reports before Worker 0; their last states are told apart by
    their contents. *)
Lemma gather_places_last_state_witness :
  let args := Config 2 1 4 3 1 false true 1 0 in
  let sent := λ i : nat, zeros <$> item_shapes args 1 in
  let lasts := λ i : nat, Build [1; 3] (λ _, Z.of_nat (S i)) in
  let st := State (init_buffer_items_tensor args) (zeros [2; 3]) in
  ∃ st' rest,
    gather args [WorkerMsg 1 (sent 1) (lasts 1); WorkerMsg 0 (sent 0) (lasts 0)] st
    = Ok (st', rest)
    ∧ rest = []
    ∧ shape (last_state st') = [num_seqs args; state_dim args]
    ∧ ∀ i, i < num_workers args →
        rows_hold (num_envs args * i) (num_envs args * (i + 1)) (last_state st') (lasts i).
Proof.
  intros args sent lasts st. eexists _, _. split; [reflexivity|].
  eapply (gather_places_last_state args st sent lasts
            [WorkerMsg 1 (sent 1) (lasts 1); WorkerMsg 0 (sent 0) (lasts 0)]).
  - reflexivity.
  - simpl. lia.
  - intros i Hi. reflexivity.
  - simpl. apply perm_swap.
  - reflexivity.
Defined.

End LastStateFacts.

(** * Learner and Workers in lockstep *)

Module LockstepFacts.
Import RingFacts Lockstep.

Lemma count_app {A} (f : A → bool) l1 l2 : count f (l1 ++ l2) = count f l1 + count f l2.
Proof. induction l1 as [|x l1 IH]; simpl; [done|]. rewrite IH. lia. Qed.

Lemma count_elem {A} (f : A → bool) l x : x ∈ l → f x = true → 1 ≤ count f l.
Proof.
  induction l as [|y l IH]; [by intros ?%elem_of_nil|].
  intros [->|Hin]%elem_of_cons Hf; simpl.
  - rewrite Hf. lia.
  - specialize (IH Hin Hf). lia.
Qed.

Lemma count_none {A} (f : A → bool) l : (∀ x, x ∈ l → f x = false) → count f l = 0.
Proof.
  induction l as [|y l IH]; [done|]. intros H. simpl.
  rewrite (H y) by (by left). rewrite IH; [done|]. intros x Hx. apply H. by right.
Qed.

Lemma count_pos_elem {A} (f : A → bool) l : 1 ≤ count f l → ∃ x, x ∈ l ∧ f x = true.
Proof.
  induction l as [|y l IH]; simpl; [lia|].
  destruct (f y) eqn:Hy.
  - intros _. exists y. split; [by left|done].
  - intros H. destruct IH as (x & Hx & Hfx); [lia|]. exists x. split; [by right|done].
Qed.

Lemma upd_eq {B} (f : nat → B) i v : upd f i v i = v.
Proof. unfold upd. by rewrite decide_True. Qed.

Lemma upd_ne {B} (f : nat → B) i j v : j ≠ i → upd f i v j = f j.
Proof. intros. unfold upd. by rewrite decide_False. Qed.

Lemma from_worker_true i m : from_worker i m = true ↔ m.1 = i.
Proof. unfold from_worker. apply Nat.eqb_eq. Qed.

Lemma count_from_worker_notin i l : i ∉ l.*1 → count (from_worker i) l = 0.
Proof.
  intros Hnot. apply count_none. intros m Hm.
  destruct (from_worker i m) eqn:Hf; [|done].
  apply from_worker_true in Hf. destruct Hnot. rewrite <-Hf. by apply list_elem_of_fmap_2.
Qed.

Lemma NoDup_full (l : list nat) n :
  NoDup l → (∀ x, x ∈ l → x < n) → length l = n → l ≡ₚ seq 0 n.
Proof.
  intros Hnd Hlt Hlen. apply submseteq_length_Permutation.
  - apply NoDup_submseteq; [done|]. intros x Hx. apply elem_of_seq. specialize (Hlt x Hx). lia.
  - rewrite length_seq. lia.
Qed.

Ltac unfold_counts :=
  unfold outstanding, owed, sentinels, sentinels_owed in *; simpl in *.

Lemma step_inv W a s s' : inv W s → step W a s = Some s' → inv W s'.
Proof.
  intros [Ho Hs Hp Hpipe Htaken Hpol Hexp [Hglen Hg]] Hstep.
  destruct a as [b|i]; simpl in Hstep.
  - destruct (phase s) as [k|j|k|] eqn:Hph.
    + destruct (Nat.ltb_spec k W) as [Hk|Hk]; injection Hstep as <-.
      * constructor; simpl; try done.
        -- intros i Hi. specialize (Ho i Hi). unfold_counts. rewrite Hph in Ho.
           destruct (decide (i = k)) as [->|Hne].
           ++ rewrite upd_eq, count_app. simpl.
              destruct (Nat.ltb_spec k k), (Nat.ltb_spec k (S k)); lia.
           ++ rewrite upd_ne by done.
              destruct (Nat.ltb_spec i k), (Nat.ltb_spec i (S k)); lia.
        -- intros i Hi. specialize (Hs i Hi). unfold_counts. rewrite Hph in Hs.
           destruct (decide (i = k)) as [->|Hne].
           ++ rewrite upd_eq, count_app. simpl. lia.
           ++ by rewrite upd_ne.
        -- split; [lia|]. by destruct Hp.
        -- intros i p Hi. destruct (decide (i = k)) as [->|Hne].
           ++ rewrite upd_eq. intros [Hin|Hin%list_elem_of_singleton]%elem_of_app.
              ** by eapply Hpol.
              ** congruence.
           ++ rewrite upd_ne by done. by apply Hpol.
      * constructor; simpl; try done.
        -- intros i Hi. specialize (Ho i Hi). unfold_counts. rewrite Hph in Ho.
           destruct Hp as [? ->]. simpl.
           destruct (Nat.ltb_spec i k); lia.
        -- intros i Hi. specialize (Hs i Hi). unfold_counts. by rewrite Hph in Hs.
        -- destruct Hp as [? ->]. split; [lia|]. split; [done|]. constructor.
    + destruct (Nat.ltb_spec j W) as [Hj|Hj].
      * destruct (learner_pipe s) as [|m q] eqn:Hq; [done|]. injection Hstep as <-.
        destruct Hp as (_ & Hlen & Hnd).
        destruct (Hpipe m) as [Hm Hmr]; [by left|].
        assert ((m.1 ∉ (taken s).*1) ∧ count is_policy (worker_pipes s m.1) = 0
                ∧ (∀ p, workers s m.1 ≠ Exploring p)
                ∧ count (from_worker m.1) q = 0) as (Hnotin & Hpol0 & Hexp0 & Hq0).
        { specialize (Ho _ Hm). unfold_counts. rewrite Hph, Hq in Ho. simpl in Ho.
          unfold from_worker at 1 in Ho. rewrite Nat.eqb_refl in Ho.
          case_bool_decide; [lia|]. split; [done|]. split; [lia|]. split; [|lia].
          intros p Hw. rewrite Hw in Ho. lia. }
        constructor; simpl; try done.
        -- intros i Hi. specialize (Ho i Hi). unfold_counts. rewrite Hph, Hq in Ho.
           simpl in Ho. rewrite fmap_app. simpl.
           destruct (decide (m.1 = i)) as [<-|Hne].
           ++ rewrite bool_decide_true by (apply elem_of_app; right; by left).
              rewrite Hpol0, Hq0. destruct (workers s m.1) eqn:Hw; try done.
              by destruct (Hexp0 policy).
           ++ replace (from_worker i m) with false in Ho
                by (symmetry; apply Nat.eqb_neq; done).
              simpl in Ho. rewrite Ho.
              rewrite (bool_decide_ext (i ∈ (taken s).*1 ++ [m.1]) (i ∈ (taken s).*1));
                [done|].
              rewrite elem_of_app, list_elem_of_singleton.
              split; [intros [?|?]; [done|congruence]|by left].
        -- intros i Hi. specialize (Hs i Hi). unfold_counts. by rewrite Hph in Hs.
        -- split; [lia|]. split; [rewrite length_app; simpl; lia|].
           rewrite fmap_app. apply NoDup_app. split; [done|]. split.
           ++ intros x Hx ?%list_elem_of_singleton. by subst.
           ++ apply NoDup_singleton.
        -- intros m' Hm'. apply Hpipe. by right.
        -- intros m' [Hm'|Hm'%list_elem_of_singleton]%elem_of_app; [by apply Htaken|by subst].
      * injection Hstep as <-. destruct Hp as (HjW & Hlen & Hnd).
        assert (j = W) as -> by lia.
        assert ((taken s).*1 ≡ₚ seq 0 W) as Hperm.
        { apply NoDup_full; [done| |by rewrite length_fmap].
          intros x (m & -> & Hm)%list_elem_of_fmap. by apply Htaken. }
        assert (∀ i, i < W → count is_policy (worker_pipes s i) = 0
                ∧ (∀ p, workers s i ≠ Exploring p)
                ∧ count (from_worker i) (learner_pipe s) = 0) as Hzero.
        { intros i Hi. specialize (Ho i Hi). unfold_counts. rewrite Hph in Ho.
          rewrite bool_decide_true in Ho by (rewrite Hperm; apply elem_of_seq; lia).
          split; [lia|]. split; [|lia]. intros p Hw. rewrite Hw in Ho. lia. }
        constructor; simpl; try done.
        -- intros i Hi. specialize (Ho i Hi). destruct (Hzero i Hi) as (? & ? & ?).
           unfold_counts. rewrite Hph in Ho.
           rewrite bool_decide_true in Ho by (rewrite Hperm; apply elem_of_seq; lia).
           by destruct b.
        -- intros i Hi. specialize (Hs i Hi). unfold_counts. rewrite Hph in Hs.
           by destruct b.
        -- destruct b; split; done || lia.
        -- intros m Hm. exfalso.
           destruct (Hpipe m Hm) as [Hlt _]. destruct (Hzero _ Hlt) as (_ & _ & Hc).
           pose proof (count_elem (from_worker m.1) _ m Hm) as Hge.
           rewrite Hc in Hge. unfold from_worker in Hge. rewrite Nat.eqb_refl in Hge.
           specialize (Hge eq_refl). lia.
        -- intros m Hm. by apply elem_of_nil in Hm.
        -- intros i p Hi Hin. exfalso. destruct (Hzero i Hi) as (Hc & _ & _).
           pose proof (count_elem is_policy _ _ Hin eq_refl). lia.
        -- intros i p Hi Hw. by destruct (Hzero i Hi) as (_ & Hne & _), (Hne p).
        -- split; [rewrite length_app; simpl; lia|].
           intros k g Hk.
           apply lookup_app_Some in Hk as [Hk|[Hge Hk]]; [by apply Hg|].
           apply list_lookup_singleton_Some in Hk as [Hk0 <-].
           split; [done|]. intros m Hm. destruct (Htaken m Hm) as [_ ->]. lia.
    + destruct (Nat.ltb_spec k W) as [Hk|Hk]; injection Hstep as <-.
      * constructor; simpl; try done.
        -- intros i Hi. specialize (Ho i Hi). unfold_counts. rewrite Hph in Ho.
           destruct (decide (i = k)) as [->|Hne].
           ++ rewrite upd_eq, count_app. simpl. lia.
           ++ by rewrite upd_ne.
        -- intros i Hi. specialize (Hs i Hi). unfold_counts. rewrite Hph in Hs.
           destruct (decide (i = k)) as [->|Hne].
           ++ rewrite upd_eq, count_app. simpl.
              destruct (Nat.ltb_spec k k), (Nat.ltb_spec k (S k)); lia.
           ++ rewrite upd_ne by done.
              destruct (Nat.ltb_spec i k), (Nat.ltb_spec i (S k)); lia.
        -- split; [lia|]. by destruct Hp.
        -- intros i p Hi. destruct (decide (i = k)) as [->|Hne].
           ++ rewrite upd_eq. intros [Hin|Hin%list_elem_of_singleton]%elem_of_app.
              ** by eapply Hpol.
              ** congruence.
           ++ rewrite upd_ne by done. by apply Hpol.
      * constructor; simpl; try done.
        -- intros i Hi. specialize (Ho i Hi). unfold_counts. by rewrite Hph in Ho.
        -- intros i Hi. specialize (Hs i Hi). unfold_counts. rewrite Hph in Hs.
           destruct (Nat.ltb_spec i k); lia.
        -- by destruct Hp.
    + done.
  - destruct (Nat.ltb_spec i W) as [Hi|Hi]; [|done].
    destruct (workers s i) as [|p|] eqn:Hw; [| |done].
    + destruct (worker_pipes s i) as [|[p|] q] eqn:Hq; [done| |]; injection Hstep as <-.
      * constructor; simpl; try done.
        -- intros i' Hi'. specialize (Ho i' Hi'). unfold_counts.
           destruct (decide (i' = i)) as [->|Hne].
           ++ rewrite !upd_eq. rewrite Hw, Hq in Ho. simpl in Ho. lia.
           ++ by rewrite !upd_ne.
        -- intros i' Hi'. specialize (Hs i' Hi'). unfold_counts.
           destruct (decide (i' = i)) as [->|Hne].
           ++ rewrite !upd_eq. rewrite Hw, Hq in Hs. simpl in Hs. lia.
           ++ by rewrite !upd_ne.
        -- intros i' p' Hi'. destruct (decide (i' = i)) as [->|Hne].
           ++ rewrite upd_eq. intros Hin. apply (Hpol i); [done|]. rewrite Hq. by right.
           ++ rewrite upd_ne by done. by apply Hpol.
        -- intros i' p' Hi'. destruct (decide (i' = i)) as [->|Hne].
           ++ rewrite upd_eq. intros [= <-]. apply (Hpol i); [done|]. rewrite Hq. by left.
           ++ rewrite upd_ne by done. by apply Hexp.
      * constructor; simpl; try done.
        -- intros i' Hi'. specialize (Ho i' Hi'). unfold_counts.
           destruct (decide (i' = i)) as [->|Hne].
           ++ rewrite !upd_eq. rewrite Hw, Hq in Ho. simpl in Ho. lia.
           ++ by rewrite !upd_ne.
        -- intros i' Hi'. specialize (Hs i' Hi'). unfold_counts.
           destruct (decide (i' = i)) as [->|Hne].
           ++ rewrite !upd_eq. rewrite Hw, Hq in Hs. simpl in Hs. lia.
           ++ by rewrite !upd_ne.
        -- intros i' p' Hi'. destruct (decide (i' = i)) as [->|Hne].
           ++ rewrite upd_eq. intros Hin. apply (Hpol i); [done|]. rewrite Hq. by right.
           ++ rewrite upd_ne by done. by apply Hpol.
        -- intros i' p' Hi'. destruct (decide (i' = i)) as [->|Hne].
           ++ by rewrite upd_eq.
           ++ rewrite upd_ne by done. by apply Hexp.
    + injection Hstep as <-. constructor; simpl; try done.
      * intros i' Hi'. specialize (Ho i' Hi'). unfold_counts. rewrite count_app. simpl.
        destruct (decide (i' = i)) as [->|Hne].
        -- rewrite upd_eq. rewrite Hw in Ho. unfold from_worker at 2. simpl.
           rewrite Nat.eqb_refl. lia.
        -- rewrite upd_ne by done. unfold from_worker at 2. simpl.
           replace (i =? i') with false by (symmetry; apply Nat.eqb_neq; done). lia.
      * intros i' Hi'. specialize (Hs i' Hi'). unfold_counts.
        destruct (decide (i' = i)) as [->|Hne].
        -- rewrite upd_eq. by rewrite Hw in Hs.
        -- by rewrite upd_ne.
      * intros m [Hm|Hm%list_elem_of_singleton]%elem_of_app; [by apply Hpipe|].
        subst m. simpl. split; [done|]. by eapply Hexp.
      * intros i' p' Hi'. destruct (decide (i' = i)) as [->|Hne].
        -- by rewrite upd_eq.
        -- rewrite upd_ne by done. by apply Hexp.
Qed.

Lemma inv_init W : inv W init.
Proof.
  constructor; simpl; try done.
  - split; [lia|done].
  - intros m Hm. by apply elem_of_nil in Hm.
  - intros m Hm. by apply elem_of_nil in Hm.
  - intros i p _ Hin. by apply elem_of_nil in Hin.
Qed.

Lemma run_inv W schedule : ∀ s s', inv W s → run W schedule s = Some s' → inv W s'.
Proof.
  induction schedule as [|a schedule IH]; intros s s' Hinv; simpl.
  - by intros [= <-].
  - destruct (step W a s) as [s1|] eqn:Hstep; [|done]. simpl.
    apply IH. by eapply step_inv.
Qed.

Lemma reachable_inv W schedule s : run W schedule init = Some s → inv W s.
Proof. apply run_inv, inv_init. Qed.

Lemma owed_le_1 s i : owed s i ≤ 1.
Proof. unfold owed. repeat case_match; lia. Qed.

Lemma NoDup_count (l : list (nat * nat)) :
  (∀ i, count (from_worker i) l ≤ 1) → NoDup l.*1.
Proof.
  induction l as [|m l IH]; intros Hc; simpl; [constructor|].
  constructor.
  - intros (m' & Heq & Hm')%list_elem_of_fmap.
    specialize (Hc m.1). simpl in Hc. unfold from_worker at 1 in Hc.
    rewrite Nat.eqb_refl in Hc.
    pose proof (count_elem (from_worker m.1) l m' Hm') as Hge.
    unfold from_worker at 1 in Hge. rewrite <-Heq, Nat.eqb_refl in Hge.
    specialize (Hge eq_refl). lia.
  - apply IH. intros i. specialize (Hc i). simpl in Hc. lia.
Qed.

Lemma missing_below (l : list nat) n : length l < n → ∃ i, i < n ∧ i ∉ l.
Proof.
  intros Hlen.
  destruct (decide (Forall (λ i, i ∈ l) (seq 0 n))) as [Hall|Hnot].
  - assert (seq 0 n ⊆+ l) as Hsub.
    { apply NoDup_submseteq; [apply NoDup_seq|]. intros x Hx.
      by eapply Forall_forall in Hall. }
    apply submseteq_length in Hsub. rewrite length_seq in Hsub. lia.
  - apply not_Forall_Exists in Hnot; [|apply _].
    apply Exists_exists in Hnot as (i & Hi%elem_of_seq & Hnotin).
    exists i. split; [lia|done].
Qed.

Lemma count_both_0 {A} (f : A → bool) l :
  count f l = 0 → count (λ x, negb (f x)) l = 0 → l = [].
Proof. destruct l as [|x l]; [done|]. simpl. destruct (f x); simpl; lia. Qed.

Lemma count_pos_cons {A} (f : A → bool) l : 1 ≤ count f l → ∃ x l', l = x :: l'.
Proof. destruct l; simpl; [lia|eauto]. Qed.

(** Learner and Workers run in lockstep.  However the processes are
    scheduled, every gather loop that has ended took exactly one message
    from each Worker, and each of them was explored with the policy of that
    very round: the Learner never gathers two batches of one Worker, nor a
    batch that a stale policy produced. *)
Theorem gathers_are_lockstep W schedule s k g :
  run W schedule init = Some s →
  gathers s !! k = Some g →
  g.*1 ≡ₚ seq 0 W ∧ ∀ m, m ∈ g → m.2 = k.
Proof.
  intros Hrun Hk. apply reachable_inv in Hrun. destruct Hrun.
  destruct inv_gathers0 as [_ Hg]. by apply Hg.
Qed.

(** The pipe to the Learner is bounded: at any moment it holds at most one
    message of each Worker, so at most [num_workers] messages, all of them
    for the round the Learner is in. *)
Theorem learner_pipe_holds_one_per_worker W schedule s :
  run W schedule init = Some s →
  NoDup (learner_pipe s).*1
  ∧ length (learner_pipe s) ≤ W
  ∧ ∀ m, m ∈ learner_pipe s → m.1 < W ∧ m.2 = round s.
Proof.
  intros Hrun. apply reachable_inv in Hrun.
  destruct Hrun as [Ho _ _ Hpipe _ _ _ _].
  assert (NoDup (learner_pipe s).*1) as Hnd.
  { apply NoDup_count. intros i. destruct (decide (i < W)) as [Hi|Hi].
    - specialize (Ho i Hi). pose proof (owed_le_1 s i). unfold outstanding in Ho. lia.
    - rewrite count_none; [lia|]. intros m Hm. apply Nat.eqb_neq.
      destruct (Hpipe m Hm). lia. }
  split; [done|]. split; [|done].
  rewrite <-(length_fmap fst). apply NoDup_bounded_length; [done|].
  intros x (m & -> & Hm)%list_elem_of_fmap. by apply Hpipe.
Qed.

(** As long as nobody raises, Learner and Workers never wait for each other
    forever: in every state that a schedule reaches some process can move,
    unless the Learner has returned, every Worker has obeyed its sentinel
    and left its loop, and all pipes are empty. *)
Theorem protocol_never_deadlocks W schedule s :
  run W schedule init = Some s →
  (phase s = Returned
   ∧ learner_pipe s = []
   ∧ ∀ i, i < W → workers s i = Closed ∧ worker_pipes s i = [])
  ∨ ∃ a s', step W a s = Some s'.
Proof.
  intros Hrun. apply reachable_inv in Hrun.
  destruct Hrun as [Ho Hs Hp Hpipe _ _ _ _].
  assert (∀ i, i < W → workers s i ≠ Closed →
            1 ≤ count is_policy (worker_pipes s i)
                + count (λ o, negb (is_policy o)) (worker_pipes s i)
                + match workers s i with Exploring _ => 1 | _ => 0 end →
            ∃ s', step W (TheWorker i) s = Some s') as Hworker.
  { intros i Hi Hnc Hc. simpl. destruct (Nat.ltb_spec i W); [|lia].
    destruct (workers s i) eqn:Hw; [|by eexists|done].
    destruct (worker_pipes s i) as [|[p|] q]; simpl in Hc; [lia|by eexists..]. }
  destruct (phase s) as [k|j|k|] eqn:Hph.
  - right. exists (TheLearner true). simpl. rewrite Hph. destruct (k <? W); by eexists.
  - right. destruct (Nat.ltb_spec j W) as [Hj|Hj].
    + destruct (learner_pipe s) as [|m q] eqn:Hq.
      * destruct Hp as (_ & Hlen & _).
        destruct (missing_below (taken s).*1 W) as (i & Hi & Hnotin);
          [by rewrite length_fmap, Hlen|].
        specialize (Ho i Hi). specialize (Hs i Hi).
        unfold outstanding, owed, sentinels, sentinels_owed in *.
        rewrite Hph, ?Hq in *. rewrite bool_decide_false in Ho by done. simpl in Ho.
        exists (TheWorker i). apply Hworker; [done| |lia].
        intros Hc. rewrite Hc in Hs. lia.
      * exists (TheLearner true). simpl. rewrite Hph, Hq.
        destruct (Nat.ltb_spec j W); [by eexists|lia].
    + exists (TheLearner true). simpl. rewrite Hph.
      destruct (Nat.ltb_spec j W); [lia|by eexists].
  - right. exists (TheLearner true). simpl. rewrite Hph. destruct (k <? W); by eexists.
  - destruct (decide (Forall (λ i, workers s i = Closed) (seq 0 W))) as [Hall|Hnot].
    + left. split; [done|].
      assert (∀ i, i < W → workers s i = Closed) as Hclosed.
      { intros i Hi. eapply Forall_forall in Hall; [done|]. apply elem_of_seq. lia. }
      split.
      * destruct (learner_pipe s) as [|m q] eqn:Hq; [done|]. exfalso.
        destruct (Hpipe m) as [Hm _]; [by left|].
        specialize (Ho _ Hm). unfold outstanding, owed in Ho. rewrite Hph, Hq in Ho.
        simpl in Ho. unfold from_worker at 1 in Ho. rewrite Nat.eqb_refl in Ho. lia.
      * intros i Hi. split; [by apply Hclosed|].
        specialize (Ho i Hi). specialize (Hs i Hi).
        unfold outstanding, owed, sentinels, sentinels_owed in *.
        rewrite Hph, (Hclosed i Hi) in *.
        apply (count_both_0 is_policy); lia.
    + right. apply not_Forall_Exists in Hnot; [|apply _].
      apply Exists_exists in Hnot as (i & Hi%elem_of_seq & Hnc).
      exists (TheWorker i). apply Hworker; [lia|done|].
      specialize (Hs i ltac:(lia)). unfold sentinels, sentinels_owed in Hs.
      rewrite Hph in Hs. simpl in Hs.
      destruct (workers s i) eqn:Hw; [lia|lia|by destruct Hnc].
Qed.

(** Two Workers; Worker 1 is the faster one, and the Learner stops after the
    first round. *)
Lemma gathers_are_lockstep_witness :
  let schedule :=
    [TheLearner true; TheLearner true; TheWorker 1; TheWorker 1; TheWorker 0; TheWorker 0;
     TheLearner true; TheLearner true; TheLearner true; TheLearner false] in
  ∃ s g, run 2 schedule init = Some s
    ∧ gathers s !! 0 = Some g
    ∧ g = [(1, 0); (0, 0)]
    ∧ g.*1 ≡ₚ seq 0 2 ∧ ∀ m, m ∈ g → m.2 = 0.
Proof.
  intros schedule. eexists _, _. split; [vm_compute; reflexivity|].
  split; [reflexivity|]. split; [reflexivity|].
  eapply (gathers_are_lockstep 2 schedule).
  - vm_compute. reflexivity.
  - reflexivity.
Defined.

(** Both Workers have sent; the Learner has not begun to receive. *)
Lemma learner_pipe_holds_one_per_worker_witness :
  let schedule :=
    [TheLearner true; TheLearner true; TheWorker 1; TheWorker 1; TheWorker 0; TheWorker 0] in
  ∃ s, run 2 schedule init = Some s
    ∧ learner_pipe s = [(1, 0); (0, 0)]
    ∧ NoDup (learner_pipe s).*1
    ∧ length (learner_pipe s) ≤ 2
    ∧ ∀ m, m ∈ learner_pipe s → m.1 < 2 ∧ m.2 = round s.
Proof.
  intros schedule. eexists. split; [vm_compute; reflexivity|]. split; [reflexivity|].
  apply (learner_pipe_holds_one_per_worker 2 schedule). vm_compute. reflexivity.
Defined.

(** The Learner waits in its gather loop for a Worker that has not yet read
    its policy: the Worker can move. *)
Lemma protocol_never_deadlocks_witness :
  let schedule := [TheLearner true; TheLearner true] in
  ∃ s, run 1 schedule init = Some s
    ∧ step 1 (TheLearner true) s = None
    ∧ ((phase s = Returned
        ∧ learner_pipe s = []
        ∧ ∀ i, i < 1 → workers s i = Closed ∧ worker_pipes s i = [])
       ∨ ∃ a s', step 1 a s = Some s').
Proof.
  intros schedule. eexists. split; [vm_compute; reflexivity|]. split; [reflexivity|].
  apply (protocol_never_deadlocks 1 schedule). vm_compute. reflexivity.
Defined.

End LockstepFacts.

(** * Learners a round apart *)

Module RaceFacts.
Import Tensor Learner Race.

Ltac concrete_cols :=
  eexists; split; [reflexivity|]; split; [reflexivity|];
  let idx := fresh "idx" in let H := fresh "H" in
  intros idx H; simpl in H;
  destruct idx as [|[|?] [|[|?] ?]]; simpl in H; try discriminate H;
  reflexivity.

Ltac concrete_slots :=
  simpl; repeat (constructor; [concrete_cols|]); constructor.

(** [C2] The exchange is not all-to-all when a Learner gets a round ahead.
    With three Learners every pipe holds two copies of its owner's segment,
    one for each peer, and nothing ties a copy to a peer or to a round.
    When Learner 0 goes through its round 2 before Learners 1 and 2 have
    received in round 1, its receive loop takes the copies that were meant
    for them: the buffer it hands to the update in round 2 holds its own
    segment of round 2 beside the segments of Learners 1 and 2 of round 1,
    the very ones it held in round 1.  The pipes of Learners 1 and 2 are
    then empty, and the receive loops of all three Learners block. *)
Theorem stale_segments_after_exchange :
  ∃ a b s1 s2 pipes, slow_peers_run = Ok (a, b, s1, s2, pipes)
    ∧ Forall2 (cols_hold 1 2) (buffer_items_tensor a) (batch 1 1)
    ∧ Forall2 (cols_hold 2 3) (buffer_items_tensor a) (batch 2 1)
    ∧ Forall2 (cols_hold 0 1) (buffer_items_tensor b) (batch 0 2)
    ∧ Forall2 (cols_hold 1 2) (buffer_items_tensor b) (batch 1 1)
    ∧ Forall2 (cols_hold 2 3) (buffer_items_tensor b) (batch 2 1)
    ∧ pipes !! 1 = Some [] ∧ pipes !! 2 = Some []
    ∧ receive three 1 s1 pipes = Block
    ∧ receive three 2 s2 pipes = Block
    ∧ third_round b pipes = Block.
Proof.
  eexists _, _, _, _, _. split; [vm_compute; reflexivity|].
  split; [concrete_slots|].
  split; [concrete_slots|].
  split; [concrete_slots|].
  split; [concrete_slots|].
  split; [concrete_slots|].
  split; [reflexivity|]. split; [reflexivity|].
  split; [reflexivity|]. split; reflexivity.
Qed.

End RaceFacts.

(** * The exchange under any schedule *)

Module RingRunFacts.
Import Lockstep LockstepFacts RingRun.

(** With three Learners it is not: Learner 0 goes through two rounds while
    Learners 1 and 2 have only sent, and takes their segments of round 0
    twice. *)
Example three_learners_read_stale :
  ∃ s, run 3 [1; 1; 2; 2; 0; 0; 0; 0; 0; 0; 0; 0; 0; 0; 0; 0] init = Some s
    ∧ history s = [(0, 0, [(1, 0); (2, 0)]); (0, 1, [(1, 0); (2, 0)])].
Proof. eexists. split; [vm_compute; reflexivity|]. reflexivity. Qed.

Lemma tags_snoc (k a b : nat) :
  a ≤ b →
  ((λ r, (k, r)) <$> seq a (b - a)) ++ [(k, b)] = (λ r, (k, r)) <$> seq a (S b - a).
Proof.
  intros Hab. replace (S b - a) with (S (b - a)) by lia.
  rewrite seq_S, fmap_app. simpl. do 3 f_equal. lia.
Qed.

Lemma tags_cons (k a b : nat) m q :
  (λ r, (k, r)) <$> seq a (b - a) = m :: q →
  m = (k, a) ∧ a < b ∧ q = (λ r, (k, r)) <$> seq (S a) (b - S a).
Proof.
  destruct (b - a) as [|n] eqn:Hn; simpl; [done|]. intros [= <- <-].
  split; [done|]. split; [lia|]. by replace (b - S a) with n by lia.
Qed.

Lemma peer_of_two k : k < 2 → (k + 0 + 1) `mod` 2 = 1 - k.
Proof. intros Hk. by destruct k as [|[|k]]; [..|lia]. Qed.

Lemma step_inv2 k s s' : inv2 s → step 2 k s = Some s' → inv2 s'.
Proof.
  intros [Hph Hpipe Hgot Hhist]. unfold step.
  destruct (Nat.ltb_spec k 2) as [Hk|]; [|done].
  assert (1 - k < 2) as Hk' by lia.
  assert (1 - k ≠ k) as Hkk by lia.
  assert (∀ i, i < 2 → i ≠ k → i = 1 - k) as Hother by lia.
  pose proof (Hph k Hk) as Hphk. pose proof (Hgot k Hk) as Hgotk.
  pose proof (Hpipe k Hk) as [Hlek Hpk]. pose proof (Hpipe (1 - k) Hk') as [Hlep Hpp].
  replace (1 - (1 - k)) with k in * by lia.
  unfold sent_count, received_count in Hlek, Hpk, Hlep, Hpp.
  destruct (phases s k) as [j|j] eqn:Hphase.
  - destruct j as [|[|j]]; [| |lia]; simpl; intros [= <-].
    + constructor; simpl.
      * intros i Hi. destruct (decide (i = k)) as [->|Hne].
        -- by rewrite upd_eq.
        -- rewrite upd_ne by done. by apply Hph.
      * intros i Hi. unfold sent_count, received_count. simpl.
        destruct (decide (i = k)) as [->|Hne].
        -- rewrite !upd_eq, (upd_ne _ _ (1 - k)) by done.
           split; [lia|]. rewrite Hpk, Nat.add_0_r, Nat.add_1_r.
           rewrite Nat.add_0_r in Hlek. by apply tags_snoc.
        -- rewrite (Hother i Hi Hne). replace (1 - (1 - k)) with k by lia.
           rewrite ?upd_eq, ?(upd_ne _ _ (1 - k)) by done. done.
      * intros i Hi. destruct (decide (i = k)) as [->|Hne].
        -- by rewrite upd_eq.
        -- rewrite upd_ne by done. by apply Hgot.
      * done.
    + constructor; simpl.
      * intros i Hi. destruct (decide (i = k)) as [->|Hne].
        -- rewrite upd_eq. lia.
        -- rewrite upd_ne by done. by apply Hph.
      * intros i Hi. unfold sent_count, received_count. simpl.
        destruct (decide (i = k)) as [->|Hne].
        -- rewrite !upd_eq, (upd_ne _ _ (1 - k)) by done. done.
        -- rewrite (Hother i Hi Hne). replace (1 - (1 - k)) with k by lia.
           rewrite ?upd_eq, ?(upd_ne _ _ (1 - k)) by done. done.
      * intros i Hi. destruct (decide (i = k)) as [->|Hne].
        -- by rewrite upd_eq.
        -- rewrite upd_ne by done. by apply Hgot.
      * done.
  - destruct j as [|[|j]]; [| |lia].
    + rewrite (peer_of_two k Hk). simpl.
      destruct (pipes s (1 - k)) as [|m q] eqn:Hq; [done|]. intros [= <-].
      rewrite Nat.add_0_r in Hpp. symmetry in Hpp.
      apply tags_cons in Hpp as (-> & Hlt & ->).
      constructor; simpl.
      * intros i Hi. destruct (decide (i = k)) as [->|Hne].
        -- by rewrite upd_eq.
        -- rewrite upd_ne by done. by apply Hph.
      * intros i Hi. unfold sent_count, received_count. simpl.
        destruct (decide (i = k)) as [->|Hne].
        -- rewrite !upd_eq, !(upd_ne _ _ (1 - k)), (upd_ne _ _ k) by done. done.
        -- rewrite (Hother i Hi Hne). replace (1 - (1 - k)) with k by lia.
           rewrite ?upd_eq, ?(upd_ne _ _ (1 - k)) by done.
           split; [lia|]. by rewrite Nat.add_1_r.
      * intros i Hi. destruct (decide (i = k)) as [->|Hne].
        -- rewrite !upd_eq. by rewrite Hgotk.
        -- rewrite !upd_ne by done. by apply Hgot.
      * done.
    + simpl. intros [= <-]. constructor; simpl.
      * intros i Hi. destruct (decide (i = k)) as [->|Hne].
        -- rewrite upd_eq. lia.
        -- rewrite upd_ne by done. by apply Hph.
      * intros i Hi. unfold sent_count, received_count. simpl.
        destruct (decide (i = k)) as [->|Hne].
        -- rewrite !upd_eq, !(upd_ne _ _ (1 - k)) by done.
           rewrite Nat.add_0_r. rewrite Nat.add_1_r in Hlek, Hpk. done.
        -- rewrite (Hother i Hi Hne). replace (1 - (1 - k)) with k by lia.
           rewrite ?upd_eq, ?(upd_ne _ _ (1 - k)) by done.
           rewrite Nat.add_0_r. rewrite Nat.add_1_r in Hlep, Hpp. done.
      * intros i Hi. destruct (decide (i = k)) as [->|Hne].
        -- by rewrite !upd_eq.
        -- rewrite !upd_ne by done. by apply Hgot.
      * intros k0 r g [Hin|Hin%list_elem_of_singleton]%elem_of_app; [by apply Hhist|].
        injection Hin as -> -> ->. done.
Qed.

Lemma inv2_init : inv2 init.
Proof.
  constructor; simpl; try done.
  - intros k _. lia.
  - intros k r g Hin. by apply elem_of_nil in Hin.
Qed.

Lemma run_inv2 schedule : ∀ s s', inv2 s → run 2 schedule s = Some s' → inv2 s'.
Proof.
  induction schedule as [|k schedule IH]; intros s s' Hinv; simpl.
  - by intros [= <-].
  - destruct (step 2 k s) as [s1|] eqn:Hstep; [|done]. simpl.
    apply IH. by eapply step_inv2.
Qed.

(** Between two Learners the exchange is exact, however they are
    scheduled: each pipe has one writer and one reader, so in every round
    that is over the Learner took exactly one payload, the segment its peer
    gathered in that same round. *)
Theorem two_learners_never_read_stale schedule s k r g :
  run 2 schedule init = Some s →
  (k, r, g) ∈ history s →
  g = [(1 - k, r)].
Proof.
  intros Hrun. apply (run_inv2 schedule init s inv2_init) in Hrun.
  by destruct Hrun as [_ _ _ Hhist]; apply Hhist.
Qed.

(** Learner 1 is a round behind: it receives in round 0 when Learner 0 has
    already sent in round 1. *)
Lemma two_learners_never_read_stale_witness :
  let schedule := [0; 0; 1; 1; 0; 0; 0; 0; 1; 1] in
  ∃ s, run 2 schedule init = Some s
    ∧ pipes s 0 = [(0, 1)]
    ∧ (1, 0, [(0, 0)]) ∈ history s
    ∧ [(0, 0)] = [(1 - 1, 0)].
Proof.
  intros schedule. eexists. split; [vm_compute; reflexivity|].
  split; [reflexivity|].
  assert ((1, 0, [(0, 0)]) ∈ [(0, 0, [(1, 0)]); (1, 0, [(0, 0)])]) as Hin
    by (right; left).
  split; [exact Hin|].
  eapply (two_learners_never_read_stale schedule _ 1 0 [(0, 0)]).
  - vm_compute. reflexivity.
  - exact Hin.
Defined.

End RingRunFacts.
